(** * libgwyfile: the GWY container codec, tree model and conformance checker

    A shallow embedding of [gwyfile.c] (libgwyfile, as bundled with
    pygwyfile) and the properties of its reader, writer, checker and
    size accounting.

    Conventions of the embedding.
    - The configuration is the one the file selects itself:
      [#undef WORDS_BIGENDIAN] (little-endian host, [gwyfile_fread_le] and
      [gwyfile_fwrite_le] are plain [fread]/[fwrite]); [size_t] is 64 bits
      wide, [unsigned int] and [uint32_t] are 32 bits wide.
    - A [FILE*] opened for reading is the list of bytes still to be read; the
      only way a read can fall short is the end of that list, so [feof] holds
      whenever a read falls short.  A [FILE*] opened for writing is the list
      of bytes written so far; writes never fail.
    - [malloc] never fails.  The text of error messages is not modelled, an
      error is its domain and code.
    - A C string is the list of its bytes before the terminating nul. *)

From Stdlib Require Import ZArith List Lia Bool Sorting.Sorted Sorting.Permutation.
From Stdlib.Strings Require Import Byte.
From stdpp Require Import gmap list.
Import ListNotations.
Open Scope Z_scope.

(** ** Machine integers and bytes *)

Definition u32 (x : Z) : Z := x mod 2 ^ 32.
Definition size_t (x : Z) : Z := x mod 2 ^ 64.
Definition SIZE_MAX : Z := 2 ^ 64 - 1.

Definition byte_to_Z (b : byte) : Z := Z.of_N (Byte.to_N b).

Definition byte_of_Z (z : Z) : byte :=
  match Byte.of_N (Z.to_N (z mod 256)) with
  | Some b => b
  | None => x00
  end.

Definition byte_eqb (a b : byte) : bool := Byte.eqb a b.

(** [strlen] of a modelled C string, as a [size_t]. *)
Definition strlen (s : list byte) : Z := Z.of_nat (length s).

(** [strcmp]: bytes compare as [unsigned char].  ISO C fixes the sign of
    the result and leaves its magnitude to the library; the code uses the
    sign only (in [gwyfile_strequal] and as the order of [qsort]), and so
    does everything below: the magnitude returned here has no meaning. *)
Fixpoint strcmp (a b : list byte) : Z :=
  match a, b with
  | [], [] => 0
  | [], _ :: _ => -1
  | _ :: _, [] => 1
  | x :: a', y :: b' =>
      if byte_to_Z x =? byte_to_Z y then strcmp a' b'
      else byte_to_Z x - byte_to_Z y
  end.

(** [#define gwyfile_strequal(a,b) (!strcmp((a),(b)))] *)
Definition gwyfile_strequal (a b : list byte) : bool := strcmp a b =? 0.

(** [#define gwyfile_max(a,b) ((a) < (b) ? (b) : (a))] and [gwyfile_min]. *)
Definition gwyfile_max (a b : Z) : Z := if a <? b then b else a.
Definition gwyfile_min (a b : Z) : Z := if a >? b then b else a.

(** Little-endian memory images of integers: [le_decode] reads the value of
    the bytes, [le_encode n] is the [n]-byte image of a value. *)
Fixpoint le_decode (bs : list byte) : Z :=
  match bs with
  | [] => 0
  | b :: bs' => byte_to_Z b + 256 * le_decode bs'
  end.

Fixpoint le_encode (n : nat) (v : Z) : list byte :=
  match n with
  | O => []
  | S n' => byte_of_Z v :: le_encode n' (v / 256)
  end.

(** The value of an [n]-bit two's complement image. *)
Definition signed (bits : Z) (x : Z) : Z :=
  if x <? 2 ^ (bits - 1) then x else x - 2 ^ bits.

(** Cutting a byte list into consecutive chunks of [k] bytes. *)
Fixpoint chunks (n : nat) (k : nat) (bs : list byte) : list (list byte) :=
  match n with
  | O => []
  | S n' => firstn k bs :: chunks n' k (skipn k bs)
  end.

(** ** Errors *)

Inductive GwyfileErrorDomain :=
| GWYFILE_ERROR_DOMAIN_SYSTEM
| GWYFILE_ERROR_DOMAIN_DATA
| GWYFILE_ERROR_DOMAIN_VALIDITY
| GWYFILE_ERROR_DOMAIN_WARNING.

Inductive GwyfileErrorCode :=
| GWYFILE_ERROR_MAGIC
| GWYFILE_ERROR_ITEM_TYPE
| GWYFILE_ERROR_CONFINEMENT
| GWYFILE_ERROR_ARRAY_SIZE
| GWYFILE_ERROR_DUPLICATE_NAME
| GWYFILE_ERROR_LONG_STRING
| GWYFILE_ERROR_OBJECT_SIZE
| GWYFILE_ERROR_OBJECT_NAME
| GWYFILE_ERROR_MISSING_ITEM
| GWYFILE_ERROR_TOO_DEEP_NESTING.

Inductive GwyfileInvalidCode :=
| GWYFILE_INVALID_UTF8_NAME
| GWYFILE_INVALID_UTF8_TYPE
| GWYFILE_INVALID_UTF8_STRING
| GWYFILE_INVALID_DOUBLE.

Inductive GwyfileWarningCode :=
| GWYFILE_WARNING_TYPE_IDENTIFIER
| GWYFILE_WARNING_EMPTY_NAME.

(** [GwyfileError] without its message: the code is read in the domain. *)
Inductive GwyfileError :=
| SystemError (errno : Z)
| DataError (code : GwyfileErrorCode)
| ValidityError (code : GwyfileInvalidCode)
| WarningError (code : GwyfileWarningCode).

Definition error_domain (e : GwyfileError) : GwyfileErrorDomain :=
  match e with
  | SystemError _ => GWYFILE_ERROR_DOMAIN_SYSTEM
  | DataError _ => GWYFILE_ERROR_DOMAIN_DATA
  | ValidityError _ => GWYFILE_ERROR_DOMAIN_VALIDITY
  | WarningError _ => GWYFILE_ERROR_DOMAIN_WARNING
  end.

(** Outcome of a call: a value, a [NULL]/[false] return with the error that
    was set, a failed [assert] (the process aborts), or the recursion budget
    of the embedding running out (shown below never to happen for the file
    level readers). *)
Inductive result (A : Type) :=
| Ok (a : A)
| Fail (e : GwyfileError)
| Abort
| OutOfFuel.
Arguments Ok {A} a.
Arguments Fail {A} e.
Arguments Abort {A}.
Arguments OutOfFuel {A}.

Definition bind {A B} (m : result A) (k : A -> result B) : result B :=
  match m with
  | Ok a => k a
  | Fail e => Fail e
  | Abort => Abort
  | OutOfFuel => OutOfFuel
  end.

Notation "'let*' x ':=' m 'in' k" := (bind m (fun x => k))
  (at level 10, x pattern, m at level 100, k at level 200).

Definition assert (b : bool) : result unit := if b then Ok tt else Abort.

Definition overrun {A} : result A := Fail (DataError GWYFILE_ERROR_CONFINEMENT).

(** [gwyfile_set_error_fread]: the stream of the model only falls short at its
    end, so [feof] holds and the error is CONFINEMENT in the DATA domain. *)
Definition error_fread {A} : result A := Fail (DataError GWYFILE_ERROR_CONFINEMENT).

(** ** Constants of the source *)

Definition GWYFILE_MAX_DEPTH : Z := 200.
Definition GWYFILE_MAGIC_HEADER2 : list byte := [x47; x57; x59; x50].
Definition GWYFILE_MAGIC_LEN : Z := 4.

Definition GWYFILE_ITEM_BOOL : Z := 98.
Definition GWYFILE_ITEM_CHAR : Z := 99.
Definition GWYFILE_ITEM_INT32 : Z := 105.
Definition GWYFILE_ITEM_INT64 : Z := 113.
Definition GWYFILE_ITEM_DOUBLE : Z := 100.
Definition GWYFILE_ITEM_STRING : Z := 115.
Definition GWYFILE_ITEM_OBJECT : Z := 111.
Definition GWYFILE_ITEM_CHAR_ARRAY : Z := 67.
Definition GWYFILE_ITEM_INT32_ARRAY : Z := 73.
Definition GWYFILE_ITEM_INT64_ARRAY : Z := 81.
Definition GWYFILE_ITEM_DOUBLE_ARRAY : Z := 68.
Definition GWYFILE_ITEM_STRING_ARRAY : Z := 83.
Definition GWYFILE_ITEM_OBJECT_ARRAY : Z := 79.

(** [char c; type = c;]: the type byte read as a (signed) [char]. *)
Definition char_to_int (b : byte) : Z := signed 8 (byte_to_Z b).

(** The conversion [(char)type] of the [int] behind [GwyfileItemType]: the
    low eight bits, read as a (signed) [char]. *)
Definition to_char (type : Z) : Z := signed 8 (type mod 256).

(** [strchr(s, c) != NULL]: [c] is one of the characters of [s], or the
    nul that ends it. *)
Definition strchr_found (s : list Z) (c : Z) : bool :=
  existsb (Z.eqb c) s || (c =? 0).

(** [static const char valid_types[] = "bciqdsoCIQDSO";] *)
Definition valid_types : list Z :=
  [GWYFILE_ITEM_BOOL; GWYFILE_ITEM_CHAR; GWYFILE_ITEM_INT32;
   GWYFILE_ITEM_INT64; GWYFILE_ITEM_DOUBLE; GWYFILE_ITEM_STRING;
   GWYFILE_ITEM_OBJECT; GWYFILE_ITEM_CHAR_ARRAY; GWYFILE_ITEM_INT32_ARRAY;
   GWYFILE_ITEM_INT64_ARRAY; GWYFILE_ITEM_DOUBLE_ARRAY;
   GWYFILE_ITEM_STRING_ARRAY; GWYFILE_ITEM_OBJECT_ARRAY].

(** [static const char array_types[] = "CIQDSO";] *)
Definition array_types : list Z :=
  [GWYFILE_ITEM_CHAR_ARRAY; GWYFILE_ITEM_INT32_ARRAY;
   GWYFILE_ITEM_INT64_ARRAY; GWYFILE_ITEM_DOUBLE_ARRAY;
   GWYFILE_ITEM_STRING_ARRAY; GWYFILE_ITEM_OBJECT_ARRAY].

(** [return type && !!strchr(valid_types, (char)type);] *)
Definition gwyfile_item_type_is_valid (type : Z) : bool :=
  negb (type =? 0) && strchr_found valid_types (to_char type).

(** [return type && !!strchr(array_types, (char)type);] *)
Definition gwyfile_item_type_is_array (type : Z) : bool :=
  negb (type =? 0) && strchr_found array_types (to_char type).

(** ** The tree built by the reader and walked by the writer and the checker

    [struct _GwyfileItem] and [struct _GwyfileObject].  The union [v] and its
    discriminator [type] form one sum type; the [items] array with [nitems]
    is a list.  The cached sizes [name_len], [array_length] and [data_size]
    are fields, as in the source.  The back references [owner] and the flag
    [data_owned] are part of the store model further below; the reader only
    uses [owner] to format messages and always sets [data_owned]. *)

Inductive GwyfileItem : Type :=
| Item (name : list byte) (name_len array_length data_size : Z)
       (v : GwyfileValue)
with GwyfileValue : Type :=
| v_b (b : bool)
| v_c (c : byte)
| v_i (i : Z)
| v_q (q : Z)
| v_d (d : Z)
| v_s (s : list byte)
| v_o (o : GwyfileObject)
| v_ca (ca : list byte)
| v_ia (ia : list Z)
| v_qa (qa : list Z)
| v_da (da : list Z)
| v_sa (sa : list (list byte))
| v_oa (oa : list GwyfileObject)
with GwyfileObject : Type :=
| Object (name : list byte) (name_len : Z) (items : list GwyfileItem)
         (data_size : Z).

Definition item_name (i : GwyfileItem) : list byte :=
  match i with Item n _ _ _ _ => n end.
Definition item_name_len (i : GwyfileItem) : Z :=
  match i with Item _ l _ _ _ => l end.
Definition item_array_length (i : GwyfileItem) : Z :=
  match i with Item _ _ a _ _ => a end.
Definition item_data_size (i : GwyfileItem) : Z :=
  match i with Item _ _ _ d _ => d end.
Definition item_v (i : GwyfileItem) : GwyfileValue :=
  match i with Item _ _ _ _ v => v end.

Definition object_name (o : GwyfileObject) : list byte :=
  match o with Object n _ _ _ => n end.
Definition object_name_len (o : GwyfileObject) : Z :=
  match o with Object _ l _ _ => l end.
Definition object_items (o : GwyfileObject) : list GwyfileItem :=
  match o with Object _ _ its _ => its end.
Definition object_data_size (o : GwyfileObject) : Z :=
  match o with Object _ _ _ d => d end.

(** The [type] field. *)
Definition value_type (v : GwyfileValue) : Z :=
  match v with
  | v_b _ => GWYFILE_ITEM_BOOL
  | v_c _ => GWYFILE_ITEM_CHAR
  | v_i _ => GWYFILE_ITEM_INT32
  | v_q _ => GWYFILE_ITEM_INT64
  | v_d _ => GWYFILE_ITEM_DOUBLE
  | v_s _ => GWYFILE_ITEM_STRING
  | v_o _ => GWYFILE_ITEM_OBJECT
  | v_ca _ => GWYFILE_ITEM_CHAR_ARRAY
  | v_ia _ => GWYFILE_ITEM_INT32_ARRAY
  | v_qa _ => GWYFILE_ITEM_INT64_ARRAY
  | v_da _ => GWYFILE_ITEM_DOUBLE_ARRAY
  | v_sa _ => GWYFILE_ITEM_STRING_ARRAY
  | v_oa _ => GWYFILE_ITEM_OBJECT_ARRAY
  end.

Definition item_type (i : GwyfileItem) : Z := value_type (item_v i).

(** [gwyfile_object_size]: [object->name_len+1 + sizeof(uint32_t) +
    object->data_size]; [name_len] is a [uint32_t]. *)
Definition gwyfile_object_size (o : GwyfileObject) : Z :=
  size_t (u32 (object_name_len o + 1) + 4 + object_data_size o).

(** [gwyfile_item_size] on a non-null item of non-zero type:
    [1 + item->name_len+1 + item->data_size]; [name_len] is an
    [unsigned int]. *)
Definition item_size (i : GwyfileItem) : Z :=
  size_t (u32 (1 + item_name_len i + 1) + item_data_size i).

(** *** Constructors ([gwyfile_item_new_internal_*]) *)

Definition gwyfile_object_new_internal (name : list byte) : GwyfileObject :=
  Object name (u32 (strlen name)) [] 0.

Definition gwyfile_item_new_internal (name : list byte) (v : GwyfileValue)
  : GwyfileItem :=
  Item name (u32 (strlen name)) 0 0 v.

Definition set_sizes (i : GwyfileItem) (array_length data_size : Z)
  : GwyfileItem :=
  match i with Item n l _ _ v => Item n l array_length data_size v end.

Definition gwyfile_item_new_internal_bool (name : list byte) (value : bool) :=
  set_sizes (gwyfile_item_new_internal name (v_b value)) 0 1.

Definition gwyfile_item_new_internal_char (name : list byte) (value : byte) :=
  set_sizes (gwyfile_item_new_internal name (v_c value)) 0 1.

Definition gwyfile_item_new_internal_int32 (name : list byte) (value : Z) :=
  set_sizes (gwyfile_item_new_internal name (v_i value)) 0 4.

Definition gwyfile_item_new_internal_int64 (name : list byte) (value : Z) :=
  set_sizes (gwyfile_item_new_internal name (v_q value)) 0 8.

Definition gwyfile_item_new_internal_double (name : list byte) (value : Z) :=
  set_sizes (gwyfile_item_new_internal name (v_d value)) 0 8.

Definition gwyfile_item_new_internal_string (name value : list byte) :=
  set_sizes (gwyfile_item_new_internal name (v_s value)) 0
    (size_t (strlen value + 1)).

Definition gwyfile_item_new_internal_object (name : list byte)
    (value : GwyfileObject) :=
  set_sizes (gwyfile_item_new_internal name (v_o value)) 0
    (gwyfile_object_size value).

Definition gwyfile_item_new_internal_char_array (name : list byte)
    (value : list byte) (array_length : Z) :=
  set_sizes (gwyfile_item_new_internal name (v_ca value)) array_length
    (size_t (4 + array_length)).

Definition gwyfile_item_new_internal_int32_array (name : list byte)
    (value : list Z) (array_length : Z) :=
  set_sizes (gwyfile_item_new_internal name (v_ia value)) array_length
    (size_t (4 + array_length * 4)).

Definition gwyfile_item_new_internal_int64_array (name : list byte)
    (value : list Z) (array_length : Z) :=
  set_sizes (gwyfile_item_new_internal name (v_qa value)) array_length
    (size_t (4 + array_length * 8)).

Definition gwyfile_item_new_internal_double_array (name : list byte)
    (value : list Z) (array_length : Z) :=
  set_sizes (gwyfile_item_new_internal name (v_da value)) array_length
    (size_t (4 + array_length * 8)).

(** [for (i = 0; i < array_length; i++) item->data_size += strlen(value[i]) + 1;] *)
Definition gwyfile_item_new_internal_string_array (name : list byte)
    (value : list (list byte)) (array_length : Z) :=
  set_sizes (gwyfile_item_new_internal name (v_sa value)) array_length
    (fold_left (fun acc s => size_t (acc + (strlen s + 1)))
       (firstn (Z.to_nat array_length) value) 4).

(** [for (...) item->data_size += gwyfile_object_size(value[i]);] *)
Definition gwyfile_item_new_internal_object_array (name : list byte)
    (value : list GwyfileObject) (array_length : Z) :=
  set_sizes (gwyfile_item_new_internal name (v_oa value)) array_length
    (fold_left (fun acc o => size_t (acc + gwyfile_object_size o))
       (firstn (Z.to_nat array_length) value) 4).

(** [gwyfile_object_append] on an object that has no owner (the state in
    which the reader calls it): the item is stored and
    [gwyfile_object_propagate_size_change] adds [gwyfile_item_size(item)] to
    [data_size] after asserting that the sum does not wrap. *)
Definition gwyfile_object_append (o : GwyfileObject) (i : GwyfileItem)
  : result GwyfileObject :=
  let size_change := item_size i in
  let* _ := assert (size_t (object_data_size o + size_change)
                    >=? object_data_size o) in
  Ok (Object (object_name o) (object_name_len o) (object_items o ++ [i])
        (size_t (object_data_size o + size_change))).

(** ** Duplicate detection

    [gwyfile_object_find_duplicate_item] sorts the [items] array of the
    object in place with [qsort] and [gwyfile_compare_items] (that is
    [strcmp] on the names) and then compares neighbours.  [qsort] is the C
    library's; it is modelled by insertion sort.  The sorted order of items
    with pairwise distinct names does not depend on the algorithm
    (lemma [sorted_order_unique] below), and with a duplicate the function
    returns the content of the least duplicated name whatever the algorithm. *)

Definition gwyfile_compare_items (a b : GwyfileItem) : Z :=
  strcmp (item_name a) (item_name b).

Fixpoint insert_item (x : GwyfileItem) (l : list GwyfileItem)
  : list GwyfileItem :=
  match l with
  | [] => [x]
  | y :: l' =>
      if gwyfile_compare_items x y <=? 0 then x :: y :: l'
      else y :: insert_item x l'
  end.

Fixpoint qsort (l : list GwyfileItem) : list GwyfileItem :=
  match l with
  | [] => []
  | x :: l' => insert_item x (qsort l')
  end.

(** [for (i = 0; i < n-1; i++) if (strequal(items[i]->name, items[i+1]->name))
    return items[i]->name;] *)
Fixpoint adjacent_duplicate (l : list GwyfileItem) : option (list byte) :=
  match l with
  | x :: ((y :: _) as l') =>
      if gwyfile_strequal (item_name x) (item_name y) then Some (item_name x)
      else adjacent_duplicate l'
  | _ => None
  end.

(** Returns the duplicated name, if any, and the object as the call leaves
    it. *)
Definition gwyfile_object_find_duplicate_item (object : GwyfileObject)
  : option (list byte) * GwyfileObject :=
  let items := object_items object in
  let n := Z.of_nat (length items) in
  if n <? 2 then (None, object)
  else
    let items := qsort items in
    (adjacent_duplicate items,
     Object (object_name object) (object_name_len object) items
       (object_data_size object)).

(** ** Reading primitives *)

(** [fread(ptr, size, nmemb, stream)]: the number of complete members read,
    the bytes stored, and the rest of the stream. *)
Definition fread (size nmemb : Z) (stream : list byte)
  : Z * list byte * list byte :=
  let want := Z.to_nat (size * nmemb) in
  let got := firstn want stream in
  (Z.of_nat (length got) / size, got, skipn want stream).

(** [gwyfile_fread_le]: [fread(p0, itemsize, nitems, stream) == nitems]. *)
Definition gwyfile_fread_le (itemsize nitems : Z) (stream : list byte)
  : bool * list byte * list byte :=
  let '(n, got, rest) := fread itemsize nitems stream in
  (n =? nitems, got, rest).

(** [gwyfile_check_size]: the new value of [*max_size]. *)
Definition gwyfile_check_size (max_size size : Z) : result Z :=
  if max_size <? size then overrun else Ok (size_t (max_size - size)).

(** The [do ... while (c)] loop of [gwyfile_fread_string]; [len] and [size]
    are [unsigned int].  Returns the bytes stored before the nul, the final
    [len] and the rest of the stream. *)
Fixpoint fread_string_loop (stream : list byte) (max_size len size : Z)
  : result (list byte * Z * list byte) :=
  match stream with
  | [] => error_fread
  | c :: stream' =>
      let* size' :=
        if len =? size then
          if len =? max_size then overrun
          else if size >=? 2147483648
               then Fail (DataError GWYFILE_ERROR_LONG_STRING)
          else Ok (u32 (gwyfile_min (gwyfile_max (u32 (2 * size)) 16) max_size))
        else Ok size in
      let len' := u32 (len + 1) in
      if byte_eqb c x00 then Ok ([], len', stream')
      else
        let* (s, len'', rest) := fread_string_loop stream' max_size len' size' in
        Ok (c :: s, len'', rest)
  end.

(** [gwyfile_fread_string]: the string, the new [*max_size], the rest of the
    stream. *)
Definition gwyfile_fread_string (stream : list byte) (max_size : Z)
  : result (list byte * Z * list byte) :=
  if max_size =? 0 then overrun
  else
    let* (s, len, rest) := fread_string_loop stream max_size 0 0 in
    Ok (s, size_t (max_size - len), rest).

(** The [for] loop over [sa[i]] in the string array branch. *)
Fixpoint fread_string_array (n : nat) (stream : list byte) (max_size : Z)
  : result (list (list byte) * Z * list byte) :=
  match n with
  | O => Ok ([], max_size, stream)
  | S n' =>
      let* (s, max_size, stream) := gwyfile_fread_string stream max_size in
      let* (sa, max_size, stream) := fread_string_array n' stream max_size in
      Ok (s :: sa, max_size, stream)
  end.

Definition decode_array (bits : Z) (k : nat) (n : Z) (buf : list byte)
  : list Z :=
  map (fun b => signed bits (le_decode b)) (chunks (Z.to_nat n) k buf).

Definition decode_double_array (n : Z) (buf : list byte) : list Z :=
  map le_decode (chunks (Z.to_nat n) 8 buf).

(** ** The reader

    [junk] is the content of freshly allocated memory, byte by byte: the
    char array branch hands out the buffer whenever [fread] stored at least
    one byte, so the rest of the buffer keeps what [malloc] returned.

    A value of type [double] is kept as its IEEE 754 binary64 image, an
    unsigned 64-bit integer. *)

Section Reader.

Variable junk : nat -> byte.

Definition partial_buffer (got : list byte) (alen : Z) : list byte :=
  got ++ map junk (seq (length got) (Z.to_nat alen - length got)).

Fixpoint gwyfile_object_fread_internal (fuel : nat) (stream : list byte)
    (max_size depth : Z) {struct fuel}
  : result (GwyfileObject * list byte) :=
  match fuel with
  | O => OutOfFuel
  | S fuel' =>
      if depth >=? GWYFILE_MAX_DEPTH
      then Fail (DataError GWYFILE_ERROR_TOO_DEEP_NESTING)
      else
        let* (name, max_size, stream) := gwyfile_fread_string stream max_size in
        let* max_size := gwyfile_check_size max_size 4 in
        let '(ok, buf, stream) := gwyfile_fread_le 4 1 stream in
        if negb ok then error_fread
        else
          let data_size := le_decode buf in
          if max_size <? data_size then overrun
          else
            let object := gwyfile_object_new_internal name in
            let* (object, stream) :=
              object_fread_items fuel' stream data_size depth object in
            let* _ := assert (object_data_size object =? data_size) in
            match gwyfile_object_find_duplicate_item object with
            | (Some dupname, _) => Fail (DataError GWYFILE_ERROR_DUPLICATE_NAME)
            | (None, object) => Ok (object, stream)
            end
  end

(** [while (object->data_size < data_size) { ... }] *)
with object_fread_items (fuel : nat) (stream : list byte)
    (data_size depth : Z) (object : GwyfileObject) {struct fuel}
  : result (GwyfileObject * list byte) :=
  match fuel with
  | O => OutOfFuel
  | S fuel' =>
      if object_data_size object <? data_size then
        let remaining_size := u32 (data_size - object_data_size object) in
        let* (item, stream) :=
          gwyfile_item_fread_internal fuel' stream remaining_size
            (u32 (depth + 1)) in
        let* object := gwyfile_object_append object item in
        object_fread_items fuel' stream data_size depth object
      else Ok (object, stream)
  end

with gwyfile_item_fread_internal (fuel : nat) (stream : list byte)
    (max_size depth : Z) {struct fuel}
  : result (GwyfileItem * list byte) :=
  match fuel with
  | O => OutOfFuel
  | S fuel' =>
      let* (name, max_size, stream) := gwyfile_fread_string stream max_size in
      let* max_size := gwyfile_check_size max_size 1 in
      let '(n, buf, stream) := fread 1 1 stream in
      if negb (n =? 1) then error_fread
      else
        let type := char_to_int (hd x00 buf) in
        if negb (gwyfile_item_type_is_valid type)
        then Fail (DataError GWYFILE_ERROR_ITEM_TYPE)
        else
          let* (alen, max_size, stream) :=
            if gwyfile_item_type_is_array type then
              let* max_size := gwyfile_check_size max_size 4 in
              let '(ok, buf, stream) := gwyfile_fread_le 4 1 stream in
              if negb ok then error_fread
              else
                let alen := le_decode buf in
                if alen =? 0 then Fail (DataError GWYFILE_ERROR_ARRAY_SIZE)
                else Ok (alen, max_size, stream)
            else Ok (0, max_size, stream) in
          if type =? GWYFILE_ITEM_BOOL then
            let* max_size := gwyfile_check_size max_size 1 in
            let '(n, buf, stream) := fread 1 1 stream in
            if n =? 1
            then Ok (gwyfile_item_new_internal_bool name
                       (negb (byte_eqb (hd x00 buf) x00)), stream)
            else error_fread
          else if type =? GWYFILE_ITEM_CHAR then
            let* max_size := gwyfile_check_size max_size 1 in
            let '(n, buf, stream) := fread 1 1 stream in
            if n =? 1
            then Ok (gwyfile_item_new_internal_char name (hd x00 buf), stream)
            else error_fread
          else if type =? GWYFILE_ITEM_INT32 then
            let* max_size := gwyfile_check_size max_size 4 in
            let '(ok, buf, stream) := gwyfile_fread_le 4 1 stream in
            if ok
            then Ok (gwyfile_item_new_internal_int32 name
                       (signed 32 (le_decode buf)), stream)
            else error_fread
          else if type =? GWYFILE_ITEM_INT64 then
            let* max_size := gwyfile_check_size max_size 8 in
            let '(ok, buf, stream) := gwyfile_fread_le 8 1 stream in
            if ok
            then Ok (gwyfile_item_new_internal_int64 name
                       (signed 64 (le_decode buf)), stream)
            else error_fread
          else if type =? GWYFILE_ITEM_DOUBLE then
            let* max_size := gwyfile_check_size max_size 8 in
            let '(ok, buf, stream) := gwyfile_fread_le 8 1 stream in
            if ok
            then Ok (gwyfile_item_new_internal_double name (le_decode buf),
                     stream)
            else error_fread
          else if type =? GWYFILE_ITEM_STRING then
            let* (s, max_size, stream) := gwyfile_fread_string stream max_size in
            Ok (gwyfile_item_new_internal_string name s, stream)
          else if type =? GWYFILE_ITEM_OBJECT then
            let* (object, stream) :=
              gwyfile_object_fread_internal fuel' stream max_size depth in
            Ok (gwyfile_item_new_internal_object name object, stream)
          else if type =? GWYFILE_ITEM_CHAR_ARRAY then
            let* max_size := gwyfile_check_size max_size alen in
            let '(n, buf, stream) := fread 1 alen stream in
            if negb (n =? 0)
            then Ok (gwyfile_item_new_internal_char_array name
                       (partial_buffer buf alen) alen, stream)
            else error_fread
          else if type =? GWYFILE_ITEM_INT32_ARRAY then
            if alen >? max_size / 4 then overrun
            else
              let max_size := size_t (max_size - alen * 4) in
              let '(ok, buf, stream) := gwyfile_fread_le 4 alen stream in
              if ok
              then Ok (gwyfile_item_new_internal_int32_array name
                         (decode_array 32 4 alen buf) alen, stream)
              else error_fread
          else if type =? GWYFILE_ITEM_INT64_ARRAY then
            if alen >? max_size / 8 then overrun
            else
              let max_size := size_t (max_size - alen * 8) in
              let '(ok, buf, stream) := gwyfile_fread_le 8 alen stream in
              if ok
              then Ok (gwyfile_item_new_internal_int64_array name
                         (decode_array 64 8 alen buf) alen, stream)
              else error_fread
          else if type =? GWYFILE_ITEM_DOUBLE_ARRAY then
            if alen >? max_size / 8 then overrun
            else
              let '(ok, buf, stream) := gwyfile_fread_le 8 alen stream in
              if ok
              then Ok (gwyfile_item_new_internal_double_array name
                         (decode_double_array alen buf) alen, stream)
              else error_fread
          else if type =? GWYFILE_ITEM_STRING_ARRAY then
            if alen >? max_size then overrun
            else
              let* (sa, max_size, stream) :=
                fread_string_array (Z.to_nat alen) stream max_size in
              Ok (gwyfile_item_new_internal_string_array name sa alen, stream)
          else if type =? GWYFILE_ITEM_OBJECT_ARRAY then
            if alen >? max_size / 5 then overrun
            else
              let* (oa, stream) :=
                item_fread_object_array fuel' stream max_size depth
                  (Z.to_nat alen) in
              Ok (gwyfile_item_new_internal_object_array name oa alen, stream)
          else Abort
  end

(** The [for] loop over [oa[i]] in the object array branch, [n] objects
    still to read. *)
with item_fread_object_array (fuel : nat) (stream : list byte)
    (max_size depth : Z) (n : nat) {struct fuel}
  : result (list GwyfileObject * list byte) :=
  match fuel with
  | O => OutOfFuel
  | S fuel' =>
      match n with
      | O => Ok ([], stream)
      | S n' =>
          let* (object, stream) :=
            gwyfile_object_fread_internal fuel' stream max_size depth in
          let object_size := gwyfile_object_size object in
          let* _ := assert (object_size <=? max_size) in
          let max_size := size_t (max_size - object_size) in
          let* (oa, stream) :=
            item_fread_object_array fuel' stream max_size depth n' in
          Ok (object :: oa, stream)
      end
  end.

End Reader.

(** The public readers.  The budget handed to the recursion is the length of
    the input plus two, which is never exhausted ([gwyfile_fread_outcome]). *)

Definition fread_fuel (stream : list byte) : nat := length stream + 2.

Definition gwyfile_object_fread (junk : nat -> byte) (stream : list byte)
    (max_size : Z) : result (GwyfileObject * list byte) :=
  gwyfile_object_fread_internal junk (fread_fuel stream) stream max_size 0.

Definition gwyfile_item_fread (junk : nat -> byte) (stream : list byte)
    (max_size : Z) : result (GwyfileItem * list byte) :=
  gwyfile_item_fread_internal junk (fread_fuel stream) stream max_size 0.

(** [memcmp(magic, GWYFILE_MAGIC_HEADER2, GWYFILE_MAGIC_LEN)] is zero. *)
Definition magic_ok (magic : list byte) : bool :=
  gwyfile_strequal magic GWYFILE_MAGIC_HEADER2.

Definition gwyfile_fread (junk : nat -> byte) (stream : list byte)
    (max_size : Z) : result (GwyfileObject * list byte) :=
  let* max_size := gwyfile_check_size max_size GWYFILE_MAGIC_LEN in
  let '(n, magic, stream) := fread 1 GWYFILE_MAGIC_LEN stream in
  if negb (n =? GWYFILE_MAGIC_LEN) then error_fread
  else if negb (magic_ok magic) then Fail (DataError GWYFILE_ERROR_MAGIC)
  else gwyfile_object_fread junk stream max_size.

(** ** The writer

    A writing function returns its outcome and the bytes it appended to the
    stream; on failure the bytes already written stay in the stream. *)

Definition written (A : Type) : Type := (result A * list byte)%type.

Definition fwrite (bs : list byte) : written unit := (Ok tt, bs).

Definition wseq (a : written unit) (b : written unit) : written unit :=
  match a with
  | (Ok _, x) => let '(r, y) := b in (r, x ++ y)
  | (e, x) => (e, x)
  end.

(** [fwrite(name, 1, name_len+1, stream)] on the nul-terminated buffer. *)
Definition fwrite_name (name : list byte) (name_len : Z) : written unit :=
  fwrite (firstn (Z.to_nat (u32 (name_len + 1))) (name ++ [x00])).

Definition encode_array (k : nat) (n : Z) (a : list Z) : list byte :=
  concat (map (le_encode k) (firstn (Z.to_nat n) a)).

Fixpoint gwyfile_object_fwrite (object : GwyfileObject) : written unit :=
  match object with
  | Object name name_len items data_size =>
      if data_size >? size_t (4294967295 - 4 - name_len)
      then (Fail (DataError GWYFILE_ERROR_OBJECT_SIZE), [])
      else
        wseq (fwrite_name name name_len)
          (wseq (fwrite (le_encode 4 data_size))
             ((fix loop (items : list GwyfileItem) : written unit :=
                 match items with
                 | [] => (Ok tt, [])
                 | item :: items' =>
                     wseq (gwyfile_item_fwrite item) (loop items')
                 end) items))
  end

with gwyfile_item_fwrite (item : GwyfileItem) : written unit :=
  match item with
  | Item name name_len alen data_size v =>
      wseq (fwrite_name name name_len)
        (wseq (fwrite [byte_of_Z (value_type v)])
           match v with
           | v_b b => fwrite [if b then x01 else x00]
           | v_c c => fwrite [c]
           | v_i i => fwrite (le_encode 4 i)
           | v_q q => fwrite (le_encode 8 q)
           | v_d d => fwrite (le_encode 8 d)
           | v_s s => fwrite (s ++ [x00])
           | v_o o => gwyfile_object_fwrite o
           | v_ca ca =>
               wseq (fwrite (le_encode 4 alen))
                 (fwrite (firstn (Z.to_nat alen) ca))
           | v_ia ia =>
               wseq (fwrite (le_encode 4 alen)) (fwrite (encode_array 4 alen ia))
           | v_qa qa =>
               wseq (fwrite (le_encode 4 alen)) (fwrite (encode_array 8 alen qa))
           | v_da da =>
               wseq (fwrite (le_encode 4 alen)) (fwrite (encode_array 8 alen da))
           | v_sa sa =>
               wseq (fwrite (le_encode 4 alen))
                 (fwrite (concat (map (fun s => s ++ [x00])
                                    (firstn (Z.to_nat alen) sa))))
           | v_oa oa =>
               wseq (fwrite (le_encode 4 alen))
                 ((fix loop (oa : list GwyfileObject) (n : nat) {struct oa}
                     : written unit :=
                     match oa, n with
                     | o :: oa', S n' =>
                         wseq (gwyfile_object_fwrite o) (loop oa' n')
                     | _, _ => (Ok tt, [])
                     end) oa (Z.to_nat alen))
           end)
  end.

(** [gwyfile_fwrite]: the magic header, then the object. *)
Definition gwyfile_fwrite (object : GwyfileObject) : written unit :=
  wseq (fwrite GWYFILE_MAGIC_HEADER2) (gwyfile_object_fwrite object).

Definition gwyempty : GwyfileObject :=
  gwyfile_object_new_internal [x47; x77; x79; x45; x6d; x70; x74; x79].


(** ** Measures and predicates on trees *)

Definition sumZ (l : list Z) : Z := fold_right Z.add 0 l.

(** Number of object levels on the deepest path: an object counts one level
    more than the deepest object below one of its items; the objects of an
    object array are on the level of an object item. *)
Fixpoint object_nesting (o : GwyfileObject) : Z :=
  match o with
  | Object _ _ items _ =>
      1 + (fix deepest (items : list GwyfileItem) : Z :=
             match items with
             | [] => 0
             | i :: items' => Z.max (item_nesting i) (deepest items')
             end) items
  end

with item_nesting (i : GwyfileItem) : Z :=
  match i with
  | Item _ _ _ _ v =>
      match v with
      | v_o o => object_nesting o
      | v_oa oa =>
          (fix deepest (oa : list GwyfileObject) : Z :=
             match oa with
             | [] => 0
             | o :: oa' => Z.max (object_nesting o) (deepest oa')
             end) oa
      | _ => 0
      end
  end.

(** A string that the reader accepts: no nul inside and, with its nul, at
    most 0x80000000 bytes. *)
Definition cstring_ok (s : list byte) : Prop :=
  Forall (fun b => b <> x00) s /\ strlen s + 1 <= 2147483648.

Definition in_range (bits : Z) (x : Z) : Prop :=
  - 2 ^ (bits - 1) <= x < 2 ^ (bits - 1).

(** Well-formed trees: every cached size is the size of what it caches,
    array lengths are the lengths of the arrays and are not zero, strings are
    C strings, integers fit their types, and every object passes the size
    check of [gwyfile_object_fwrite]. *)
Fixpoint wf_item (i : GwyfileItem) : Prop :=
  match i with
  | Item name name_len alen data_size v =>
      cstring_ok name /\ name_len = strlen name
      /\ strlen name + 2 + data_size < 2 ^ 32
      /\ match v with
         | v_b _ => alen = 0 /\ data_size = 1
         | v_c _ => alen = 0 /\ data_size = 1
         | v_i i => alen = 0 /\ data_size = 4 /\ in_range 32 i
         | v_q q => alen = 0 /\ data_size = 8 /\ in_range 64 q
         | v_d d => alen = 0 /\ data_size = 8 /\ 0 <= d < 2 ^ 64
         | v_s s => alen = 0 /\ data_size = strlen s + 1 /\ cstring_ok s
         | v_o o => alen = 0 /\ data_size = gwyfile_object_size o /\ wf_object o
         | v_ca ca =>
             alen = Z.of_nat (length ca) /\ 0 < alen /\ data_size = 4 + alen
         | v_ia ia =>
             alen = Z.of_nat (length ia) /\ 0 < alen
             /\ data_size = 4 + alen * 4 /\ Forall (in_range 32) ia
         | v_qa qa =>
             alen = Z.of_nat (length qa) /\ 0 < alen
             /\ data_size = 4 + alen * 8 /\ Forall (in_range 64) qa
         | v_da da =>
             alen = Z.of_nat (length da) /\ 0 < alen
             /\ data_size = 4 + alen * 8
             /\ Forall (fun d => 0 <= d < 2 ^ 64) da
         | v_sa sa =>
             alen = Z.of_nat (length sa) /\ 0 < alen
             /\ data_size = 4 + sumZ (map (fun s => strlen s + 1) sa)
             /\ Forall cstring_ok sa
         | v_oa oa =>
             alen = Z.of_nat (length oa) /\ 0 < alen
             /\ data_size = 4 + sumZ (map gwyfile_object_size oa)
             /\ (fix all (oa : list GwyfileObject) : Prop :=
                   match oa with
                   | [] => True
                   | o :: oa' => wf_object o /\ all oa'
                   end) oa
         end
  end

with wf_object (o : GwyfileObject) : Prop :=
  match o with
  | Object name name_len items data_size =>
      cstring_ok name /\ name_len = strlen name
      /\ data_size = sumZ (map item_size items)
      /\ data_size <= 4294967295 - 4 - name_len
      /\ (fix all (items : list GwyfileItem) : Prop :=
            match items with
            | [] => True
            | i :: items' => wf_item i /\ all items'
            end) items
  end.

(** Item names are pairwise distinct in every object of the tree. *)
Fixpoint names_distinct (o : GwyfileObject) : Prop :=
  match o with
  | Object _ _ items _ =>
      NoDup (map item_name items)
      /\ (fix all (items : list GwyfileItem) : Prop :=
            match items with
            | [] => True
            | i :: items' => item_names_distinct i /\ all items'
            end) items
  end

with item_names_distinct (i : GwyfileItem) : Prop :=
  match i with
  | Item _ _ _ _ v =>
      match v with
      | v_o o => names_distinct o
      | v_oa oa =>
          (fix all (oa : list GwyfileObject) : Prop :=
             match oa with
             | [] => True
             | o :: oa' => names_distinct o /\ all oa'
             end) oa
      | _ => True
      end
  end.

(** The items of every object of the tree are stored in ascending [strcmp]
    order of their names. *)
Definition items_sorted (items : list GwyfileItem) : Prop :=
  Sorted (fun a b => gwyfile_compare_items a b <= 0) items.

Fixpoint names_sorted (o : GwyfileObject) : Prop :=
  match o with
  | Object _ _ items _ =>
      items_sorted items
      /\ (fix all (items : list GwyfileItem) : Prop :=
            match items with
            | [] => True
            | i :: items' => item_names_sorted i /\ all items'
            end) items
  end

with item_names_sorted (i : GwyfileItem) : Prop :=
  match i with
  | Item _ _ _ _ v =>
      match v with
      | v_o o => names_sorted o
      | v_oa oa =>
          (fix all (oa : list GwyfileObject) : Prop :=
             match oa with
             | [] => True
             | o :: oa' => names_sorted o /\ all oa'
             end) oa
      | _ => True
      end
  end.

(** The tree the reader builds from the encoding of a tree: in every object
    the duplicate check has sorted the items. *)
Fixpoint sorted_copy (o : GwyfileObject) : GwyfileObject :=
  match o with
  | Object name name_len items data_size =>
      snd (gwyfile_object_find_duplicate_item
             (Object name name_len (map item_sorted_copy items) data_size))
  end

with item_sorted_copy (i : GwyfileItem) : GwyfileItem :=
  match i with
  | Item name name_len alen data_size v =>
      Item name name_len alen data_size
        match v with
        | v_o o => v_o (sorted_copy o)
        | v_oa oa => v_oa (map sorted_copy oa)
        | _ => v
        end
  end.

(** What [gwyfile_object_foreach] passes to its callback and
    [gwyfile_object_item_names] returns: the items, respectively their names,
    in the order of the [items] array. *)
Definition gwyfile_object_foreach (object : GwyfileObject)
  : list GwyfileItem := object_items object.

Definition gwyfile_object_item_names (object : GwyfileObject)
  : list (list byte) := map item_name (object_items object).

(** ** The conformance checker *)

Definition GWYFILE_CHECK_FLAG_VALIDITY : Z := Z.shiftl 1 2.
Definition GWYFILE_CHECK_FLAG_WARNING : Z := Z.shiftl 1 3.

Definition has_flag (flags flag : Z) : bool := negb (Z.land flags flag =? 0).

(** The [while] loop of [gwyfile_is_valid_utf8] over the bytes of [s]. *)
Fixpoint is_valid_utf8_loop (s : list byte) (remains_10xxxxxx : Z) : bool :=
  match s with
  | [] => remains_10xxxxxx =? 0
  | c :: s' =>
      let b := byte_to_Z c in
      if remains_10xxxxxx =? 0 then
        if Z.land b 128 =? 0 then is_valid_utf8_loop s' 0
        else if Z.land b 224 =? 192 then is_valid_utf8_loop s' 1
        else if Z.land b 240 =? 224 then is_valid_utf8_loop s' 2
        else if Z.land b 248 =? 240 then is_valid_utf8_loop s' 3
        else if Z.land b 252 =? 248 then is_valid_utf8_loop s' 4
        else if Z.land b 254 =? 252 then is_valid_utf8_loop s' 5
        else false
      else if negb (Z.land b 192 =? 128) then false
      else is_valid_utf8_loop s' (remains_10xxxxxx - 1)
  end.

Definition gwyfile_is_valid_utf8 (s : list byte) : bool :=
  is_valid_utf8_loop s 0.

Definition is_alpha (c : byte) : bool :=
  let z := byte_to_Z c in
  (65 <=? z) && (z <=? 90) || (97 <=? z) && (z <=? 122).

Definition is_ident_char (c : byte) : bool :=
  let z := byte_to_Z c in
  is_alpha c || (48 <=? z) && (z <=? 57) || (z =? 95).

Definition gwyfile_is_valid_identifier (s : list byte) : bool :=
  match s with
  | [] => false
  | c :: s' => is_alpha c && forallb is_ident_char s'
  end.

(** [gwyfile_double_isnormal]: the biased exponent, bits 52 to 62 of the
    binary64 image, is not 0x7ff. *)
Definition gwyfile_double_isnormal (x : Z) : bool :=
  negb (Z.land (Z.shiftr x 52) 2047 =? 2047).

(** A [GwyfileErrorList*]: [None] is the null pointer; the list holds the
    errors, [n] is its length. *)
Definition errlist := option (list GwyfileError).

Definition is_null (el : errlist) : bool :=
  match el with None => true | Some _ => false end.

Definition errlist_n (el : errlist) : Z :=
  match el with None => 0 | Some l => Z.of_nat (length l) end.

(** The common tail of the four checks: [if (!errlist) return false;] and
    else build the error, append it, and return false. *)
Definition report (e : GwyfileError) (el : errlist) : bool * errlist :=
  match el with
  | None => (false, None)
  | Some l => (false, Some (l ++ [e]))
  end.

Definition gwyfile_check_valid_utf8 (s : list byte) (code : GwyfileInvalidCode)
    (el : errlist) : bool * errlist :=
  if gwyfile_is_valid_utf8 s then (true, el) else report (ValidityError code) el.

Definition gwyfile_check_valid_identifier (object_name : list byte)
    (el : errlist) : bool * errlist :=
  if gwyfile_is_valid_identifier object_name then (true, el)
  else report (WarningError GWYFILE_WARNING_TYPE_IDENTIFIER) el.

Definition gwyfile_check_nonempty_name (item_name : list byte) (el : errlist)
  : bool * errlist :=
  if negb (strlen item_name =? 0) then (true, el)
  else report (WarningError GWYFILE_WARNING_EMPTY_NAME) el.

Definition gwyfile_check_double (x : Z) (el : errlist) : bool * errlist :=
  if gwyfile_double_isnormal x then (true, el)
  else report (ValidityError GWYFILE_INVALID_DOUBLE) el.

(** [if (!check(...) && !errlist) return false;] followed by the rest [k] of
    the function body. *)
Definition guarded (r : bool * errlist) (k : errlist -> bool * errlist)
  : bool * errlist :=
  let '(ok, el) := r in
  if negb ok && is_null el then (false, el) else k el.

(** [if (flags & FLAG) { guarded check }] *)
Definition when_flag (flags flag : Z) (check : errlist -> bool * errlist)
    (el : errlist) : bool * errlist :=
  if has_flag flags flag then check el else (true, el).

(** [for (i = 0; i < n; i++) { guarded check of the i-th element }] *)
Fixpoint check_each {A} (check : A -> errlist -> bool * errlist) (l : list A)
    (el : errlist) (k : errlist -> bool * errlist) : bool * errlist :=
  match l with
  | [] => k el
  | x :: l' => guarded (check x el) (fun el => check_each check l' el k)
  end.

(** [return !errlist || errlist->n == oldn;] *)
Definition check_result (oldn : Z) (el : errlist) : bool * errlist :=
  (is_null el || (errlist_n el =? oldn), el).

Fixpoint gwyfile_check_object_internal (object : GwyfileObject) (flags : Z)
    (el : errlist) : bool * errlist :=
  match object with
  | Object name _ items _ =>
      let oldn := errlist_n el in
      guarded (when_flag flags GWYFILE_CHECK_FLAG_VALIDITY
                 (gwyfile_check_valid_utf8 name GWYFILE_INVALID_UTF8_TYPE) el)
        (fun el =>
      guarded (when_flag flags GWYFILE_CHECK_FLAG_WARNING
                 (gwyfile_check_valid_identifier name) el)
        (fun el =>
      (fix each (items : list GwyfileItem) (el : errlist) : bool * errlist :=
         match items with
         | [] => check_result oldn el
         | item :: items' =>
             guarded (gwyfile_check_item_internal item flags el)
               (fun el => each items' el)
         end) items el))
  end

with gwyfile_check_item_internal (item : GwyfileItem) (flags : Z)
    (el : errlist) : bool * errlist :=
  match item with
  | Item name _ array_length _ v =>
      let oldn := errlist_n el in
      let n := Z.to_nat array_length in
      guarded (when_flag flags GWYFILE_CHECK_FLAG_VALIDITY
                 (gwyfile_check_valid_utf8 name GWYFILE_INVALID_UTF8_NAME) el)
        (fun el =>
      guarded (when_flag flags GWYFILE_CHECK_FLAG_WARNING
                 (gwyfile_check_nonempty_name name) el)
        (fun el =>
      (if has_flag flags GWYFILE_CHECK_FLAG_VALIDITY then
         match v with
         | v_s s =>
             guarded (gwyfile_check_valid_utf8 s GWYFILE_INVALID_UTF8_STRING el)
         | v_sa sa =>
             check_each
               (fun s => gwyfile_check_valid_utf8 s GWYFILE_INVALID_UTF8_STRING)
               (firstn n sa) el
         | v_d d => guarded (gwyfile_check_double d el)
         | v_da da => check_each gwyfile_check_double (firstn n da) el
         | _ => fun k => k el
         end
       else fun k => k el)
        (fun el =>
      match v with
      | v_o o =>
          guarded (gwyfile_check_object_internal o flags el)
            (check_result oldn)
      | v_oa oa =>
          (fix each (oa : list GwyfileObject) (n : nat) (el : errlist)
             : bool * errlist :=
             match oa, n with
             | o :: oa', S n' =>
                 guarded (gwyfile_check_object_internal o flags el)
                   (fun el => each oa' n' el)
             | _, _ => check_result oldn el
             end) oa n el
      | _ => check_result oldn el
      end)))
  end.

(** [gwyfile_check_object]; the object pointer is not null. *)
Definition gwyfile_check_object (object : GwyfileObject) (flags : Z)
    (el : errlist) : bool * errlist :=
  let flags :=
    Z.land flags (Z.lor GWYFILE_CHECK_FLAG_VALIDITY GWYFILE_CHECK_FLAG_WARNING) in
  if flags =? 0 then (true, el)
  else gwyfile_check_object_internal object flags el.

(** What the checker reports, with the tests of the code themselves
    ([gwyfile_is_valid_utf8], [gwyfile_is_valid_identifier],
    [gwyfile_double_isnormal], [flags & FLAG]) at the leaves, in the order
    of its walk through the tree. *)
Definition validity (flags : Z) : bool :=
  has_flag flags GWYFILE_CHECK_FLAG_VALIDITY.
Definition warning (flags : Z) : bool :=
  has_flag flags GWYFILE_CHECK_FLAG_WARNING.

Definition violation (b : bool) (e : GwyfileError) : list GwyfileError :=
  if b then [e] else [].

Definition value_violations (flags : Z) (n : nat) (v : GwyfileValue)
  : list GwyfileError :=
  let bad_string s :=
    violation (validity flags && negb (gwyfile_is_valid_utf8 s))
      (ValidityError GWYFILE_INVALID_UTF8_STRING) in
  let bad_double d :=
    violation (validity flags && negb (gwyfile_double_isnormal d))
      (ValidityError GWYFILE_INVALID_DOUBLE) in
  match v with
  | v_s s => bad_string s
  | v_sa sa => concat (map bad_string (firstn n sa))
  | v_d d => bad_double d
  | v_da da => concat (map bad_double (firstn n da))
  | _ => []
  end.

Fixpoint object_violations (flags : Z) (o : GwyfileObject)
  : list GwyfileError :=
  match o with
  | Object name _ items _ =>
      violation (validity flags && negb (gwyfile_is_valid_utf8 name))
        (ValidityError GWYFILE_INVALID_UTF8_TYPE)
      ++ violation (warning flags && negb (gwyfile_is_valid_identifier name))
           (WarningError GWYFILE_WARNING_TYPE_IDENTIFIER)
      ++ concat (map (item_violations flags) items)
  end

with item_violations (flags : Z) (i : GwyfileItem) : list GwyfileError :=
  match i with
  | Item name _ array_length _ v =>
      violation (validity flags && negb (gwyfile_is_valid_utf8 name))
        (ValidityError GWYFILE_INVALID_UTF8_NAME)
      ++ violation (warning flags && (strlen name =? 0))
           (WarningError GWYFILE_WARNING_EMPTY_NAME)
      ++ value_violations flags (Z.to_nat array_length) v
      ++ match v with
         | v_o o => object_violations flags o
         | v_oa oa =>
             concat (firstn (Z.to_nat array_length)
                       (map (object_violations flags) oa))
         | _ => []
         end
  end.

Definition violations (flags : Z) (o : GwyfileObject) : list GwyfileError :=
  object_violations
    (Z.land flags (Z.lor GWYFILE_CHECK_FLAG_VALIDITY GWYFILE_CHECK_FLAG_WARNING))
    o.

(** ** The violations in the words of the format description

    The definitions of this section are written from the description of the
    conformance checker, not from the code; the checker is compared with
    them.  Validity: an object name, an item name, a string or an element
    of a string array that is not valid UTF-8, a double or an element of a
    double array that is NaN or infinite.  Warning: an object name that is
    not a C-like identifier, an item name that is the empty string. *)

(** The letters [A-Za-z] and the digits [0-9]. *)
Definition spec_letters : list byte :=
  [x41; x42; x43; x44; x45; x46; x47; x48; x49; x4a; x4b; x4c; x4d; x4e;
   x4f; x50; x51; x52; x53; x54; x55; x56; x57; x58; x59; x5a;
   x61; x62; x63; x64; x65; x66; x67; x68; x69; x6a; x6b; x6c; x6d; x6e;
   x6f; x70; x71; x72; x73; x74; x75; x76; x77; x78; x79; x7a].

Definition spec_digits : list byte :=
  [x30; x31; x32; x33; x34; x35; x36; x37; x38; x39].

Definition spec_member (c : byte) (l : list byte) : bool :=
  existsb (Byte.eqb c) l.

(** A C-like identifier, [[A-Za-z][A-Za-z0-9_]*]. *)
Definition spec_identifier (s : list byte) : bool :=
  match s with
  | [] => false
  | c :: rest =>
      spec_member c spec_letters
      && forallb (fun c => spec_member c (spec_letters ++ spec_digits ++ [x5f]))
           rest
  end.

(** The continuation bytes a lead byte announces: none for the one-byte
    sequences 00 to 7F, one to five for the leads C0-DF, E0-EF, F0-F7, F8-FB
    and FC-FD of the 2- to 6-byte sequences; 80 to BF, FE and FF are
    malformed leads. *)
Definition spec_continuations (lead : Z) : option nat :=
  if lead <=? 127 then Some 0%nat
  else if lead <=? 191 then None
  else if lead <=? 223 then Some 1%nat
  else if lead <=? 239 then Some 2%nat
  else if lead <=? 247 then Some 3%nat
  else if lead <=? 251 then Some 4%nat
  else if lead <=? 253 then Some 5%nat
  else None.

(** A continuation byte, 0x80 to 0xBF. *)
Definition spec_continuation_byte (c : byte) : bool :=
  (128 <=? byte_to_Z c) && (byte_to_Z c <=? 191).

(** Valid UTF-8: the string is made of sequences, each a lead byte followed
    by as many continuation bytes as it announces; a sequence cut short by
    the end of the string is invalid.  [n] bounds the number of sequences. *)
Fixpoint spec_utf8_sequences (n : nat) (s : list byte) {struct n} : bool :=
  match s, n with
  | [], _ => true
  | _ :: _, O => false
  | lead :: rest, S n' =>
      match spec_continuations (byte_to_Z lead) with
      | None => false
      | Some k =>
          (k <=? length rest)%nat
          && forallb spec_continuation_byte (firstn k rest)
          && spec_utf8_sequences n' (skipn k rest)
      end
  end.

Definition spec_utf8 (s : list byte) : bool :=
  spec_utf8_sequences (length s) s.

(** The biased exponent of a binary64 image: the eleven bits above the 52
    bits of the fraction.  NaN and the infinities are the values whose
    biased exponent is 0x7FF. *)
Definition spec_biased_exponent (x : Z) : Z := (x / 2 ^ 52) mod 2 ^ 11.

Definition spec_nan_or_infinite (x : Z) : bool :=
  spec_biased_exponent x =? 2047.

(** The empty string. *)
Definition spec_empty (s : list byte) : bool :=
  match s with
  | [] => true
  | _ :: _ => false
  end.

(** The violations of the value of an item with [n] array elements. *)
Definition spec_value_violations (validity : bool) (n : nat)
    (v : GwyfileValue) : list GwyfileError :=
  let bad_string s :=
    violation (validity && negb (spec_utf8 s))
      (ValidityError GWYFILE_INVALID_UTF8_STRING) in
  let bad_double d :=
    violation (validity && spec_nan_or_infinite d)
      (ValidityError GWYFILE_INVALID_DOUBLE) in
  match v with
  | v_s s => bad_string s
  | v_sa sa => concat (map bad_string (firstn n sa))
  | v_d d => bad_double d
  | v_da da => concat (map bad_double (firstn n da))
  | _ => []
  end.

(** The violations of a tree in the order of the walk: an object's own
    before those of its items, an item's own before those of the objects
    it holds. *)
Fixpoint spec_object_violations (validity warning : bool) (o : GwyfileObject)
  : list GwyfileError :=
  match o with
  | Object name _ items _ =>
      violation (validity && negb (spec_utf8 name))
        (ValidityError GWYFILE_INVALID_UTF8_TYPE)
      ++ violation (warning && negb (spec_identifier name))
           (WarningError GWYFILE_WARNING_TYPE_IDENTIFIER)
      ++ concat (map (spec_item_violations validity warning) items)
  end

with spec_item_violations (validity warning : bool) (i : GwyfileItem)
  : list GwyfileError :=
  match i with
  | Item name _ array_length _ v =>
      violation (validity && negb (spec_utf8 name))
        (ValidityError GWYFILE_INVALID_UTF8_NAME)
      ++ violation (warning && spec_empty name)
           (WarningError GWYFILE_WARNING_EMPTY_NAME)
      ++ spec_value_violations validity (Z.to_nat array_length) v
      ++ match v with
         | v_o o => spec_object_violations validity warning o
         | v_oa oa =>
             concat (firstn (Z.to_nat array_length)
                       (map (spec_object_violations validity warning) oa))
         | _ => []
         end
  end.

(** The violations in the categories the flags select: VALIDITY is bit 2 of
    the flags, WARNING bit 3. *)
Definition spec_violations (flags : Z) (o : GwyfileObject)
  : list GwyfileError :=
  spec_object_violations (Z.testbit flags 2) (Z.testbit flags 3) o.

(** ** The store: items and objects with their back references

    The functions that build and change trees work on heap cells linked in
    both directions: an object points to its items, an item to the objects
    it wraps, and every [owner] field points back.  [Heap] models the cells
    by address.  A call ends in [Done] with its return value and the new
    store, in [Aborted] when an [assert] fails, in [Undefined] when it reads
    through a pointer to no cell, and in [Spent] when a walk along [owner]
    links does not end within the number of cells of the store, or the
    freeing of a subtree within three calls for each cell (the links form a
    cycle). *)

Module Heap.

Definition addr := positive.

(** A pointer: [None] is [NULL]. *)
Definition pointer := option addr.

(** The union [v] of an item. *)
Inductive value :=
| b (x : bool)
| c (x : byte)
| i (x : Z)
| q (x : Z)
| d (x : Z)
| s (x : list byte)
| o (x : addr)
| ca (x : list byte)
| ia (x : list Z)
| qa (x : list Z)
| da (x : list Z)
| sa (x : list (list byte))
| oa (x : list addr).

Record item := Item {
  i_type : Z;
  i_array_length : Z;
  i_name : list byte;
  i_name_len : Z;
  i_data_owned : bool;
  i_owner : pointer;
  i_data_size : Z;
  i_v : value
}.

Record object := Object {
  o_owner : pointer;
  o_name : list byte;
  o_name_len : Z;
  o_items : list addr;
  o_data_size : Z
}.

Record heap := Heap {
  items : gmap addr item;
  objects : gmap addr object;
  next : addr
}.

Definition empty : heap := Heap ∅ ∅ 1%positive.

Inductive outcome (A : Type) :=
| Done (a : A) (h : heap)
| Aborted
| Undefined
| Spent.
Arguments Done {A} a h.
Arguments Aborted {A}.
Arguments Undefined {A}.
Arguments Spent {A}.

Definition M (A : Type) : Type := heap -> outcome A.

Definition ret {A} (a : A) : M A := fun h => Done a h.

Definition bind {A B} (m : M A) (k : A -> M B) : M B :=
  fun h =>
    match m h with
    | Done a h' => k a h'
    | Aborted => Aborted
    | Undefined => Undefined
    | Spent => Spent
    end.

Notation "x <- m ;; k" := (bind m (fun x => k))
  (at level 100, m at next level, right associativity).
Notation "m ;; k" := (bind m (fun _ => k))
  (at level 100, right associativity).

Definition assert (x : bool) : M unit :=
  fun h => if x then Done tt h else Aborted.

Definition spent {A} : M A := fun _ => Spent.

Definition get_item (p : addr) : M item :=
  fun h => match items h !! p with Some x => Done x h | None => Undefined end.

Definition get_object (p : addr) : M object :=
  fun h => match objects h !! p with Some x => Done x h | None => Undefined end.

Definition put_item (p : addr) (x : item) : M unit :=
  fun h => Done tt (Heap (<[p := x]> (items h)) (objects h) (next h)).

Definition put_object (p : addr) (x : object) : M unit :=
  fun h => Done tt (Heap (items h) (<[p := x]> (objects h)) (next h)).

(** [calloc]/[malloc] of a cell, and [free]. *)
Definition alloc_item (x : item) : M addr :=
  fun h => Done (next h)
             (Heap (<[next h := x]> (items h)) (objects h) (Pos.succ (next h))).

Definition alloc_object (x : object) : M addr :=
  fun h => Done (next h)
             (Heap (items h) (<[next h := x]> (objects h)) (Pos.succ (next h))).

Definition free_item (p : addr) : M unit :=
  fun h => Done tt (Heap (delete p (items h)) (objects h) (next h)).

Definition free_object (p : addr) : M unit :=
  fun h => Done tt (Heap (items h) (delete p (objects h)) (next h)).

(** The budget of a walk: one more than the number of cells. *)
Definition cells : M nat :=
  fun h => Done (S (size (items h) + size (objects h))) h.

(** The budget of freeing.  [gwyfile_object_remove_last], [gwyfile_item_free]
    and [gwyfile_object_free] call one another on the way down a subtree,
    three calls for every level of items; three calls for each cell, and one
    more, are enough in a store without cycles. *)
Definition free_calls : M nat :=
  fun h => Done (S (3 * (size (items h) + size (objects h)))) h.

Definition is_null_pointer (p : pointer) : bool :=
  match p with None => true | Some _ => false end.

Definition with_owner (x : item) (p : pointer) : item :=
  Item (i_type x) (i_array_length x) (i_name x) (i_name_len x)
    (i_data_owned x) p (i_data_size x) (i_v x).

Definition with_data_size (x : item) (n : Z) : item :=
  Item (i_type x) (i_array_length x) (i_name x) (i_name_len x)
    (i_data_owned x) (i_owner x) n (i_v x).

Definition with_value (x : item) (alen n : Z) (owned : bool) (v : value)
  : item :=
  Item (i_type x) alen (i_name x) (i_name_len x) owned (i_owner x) n v.

Definition object_with_owner (x : object) (p : pointer) : object :=
  Object p (o_name x) (o_name_len x) (o_items x) (o_data_size x).

Definition object_with_data_size (x : object) (n : Z) : object :=
  Object (o_owner x) (o_name x) (o_name_len x) (o_items x) n.

Definition object_with_items (x : object) (l : list addr) : object :=
  Object (o_owner x) (o_name x) (o_name_len x) l (o_data_size x).

(** *** Accessors *)

(** [if (!item || !item->type) return 0; return item->data_size;] *)
Definition gwyfile_item_data_size (item : pointer) : M Z :=
  match item with
  | None => ret 0
  | Some p =>
      x <- get_item p ;;
      if i_type x =? 0 then ret 0 else ret (i_data_size x)
  end.

(** [if (!item || !item->type) return 0;
     return 1 + item->name_len+1 + item->data_size;] *)
Definition gwyfile_item_size (item : pointer) : M Z :=
  match item with
  | None => ret 0
  | Some p =>
      x <- get_item p ;;
      if i_type x =? 0 then ret 0
      else ret (size_t (u32 (1 + i_name_len x + 1) + i_data_size x))
  end.

(** The accessors that start with [assert(item)]. *)
Definition item_field {A} (f : item -> A) (item : pointer) : M A :=
  match item with
  | None => assert false ;; spent
  | Some p => x <- get_item p ;; ret (f x)
  end.

Definition gwyfile_item_type : pointer -> M Z := item_field i_type.
Definition gwyfile_item_name : pointer -> M (list byte) := item_field i_name.
Definition gwyfile_item_array_length : pointer -> M Z :=
  item_field i_array_length.
Definition gwyfile_item_owns_data : pointer -> M bool :=
  item_field i_data_owned.

Definition object_size_of (x : object) : Z :=
  size_t (u32 (o_name_len x + 1) + 4 + o_data_size x).

Definition gwyfile_object_size (object : pointer) : M Z :=
  match object with
  | None => assert false ;; spent
  | Some p => x <- get_object p ;; ret (object_size_of x)
  end.

Definition gwyfile_object_data_size (object : pointer) : M Z :=
  match object with
  | None => assert false ;; spent
  | Some p => x <- get_object p ;; ret (o_data_size x)
  end.

Definition gwyfile_object_nitems (object : pointer) : M Z :=
  match object with
  | None => assert false ;; spent
  | Some p => x <- get_object p ;; ret (Z.of_nat (length (o_items x)))
  end.

(** *** Size propagation *)

Definition changed_size (old size_change : Z) (increase : bool) : M Z :=
  if increase then
    assert (size_t (old + size_change) >=? old) ;;
    ret (size_t (old + size_change))
  else
    assert (size_change <=? old) ;;
    ret (size_t (old - size_change)).

Fixpoint gwyfile_object_propagate_size_change (fuel : nat) (object : addr)
    (size_change : Z) (increase : bool) : M unit :=
  match fuel with
  | O => spent
  | S fuel' =>
      x <- get_object object ;;
      n <- changed_size (o_data_size x) size_change increase ;;
      put_object object (object_with_data_size x n) ;;
      match o_owner x with
      | Some owner =>
          gwyfile_item_propagate_size_change fuel' owner size_change increase
      | None => ret tt
      end
  end

with gwyfile_item_propagate_size_change (fuel : nat) (item : addr)
    (size_change : Z) (increase : bool) : M unit :=
  match fuel with
  | O => spent
  | S fuel' =>
      x <- get_item item ;;
      assert ((i_type x =? GWYFILE_ITEM_OBJECT)
              || (i_type x =? GWYFILE_ITEM_OBJECT_ARRAY)) ;;
      n <- changed_size (i_data_size x) size_change increase ;;
      put_item item (with_data_size x n) ;;
      match i_owner x with
      | Some owner =>
          gwyfile_object_propagate_size_change fuel' owner size_change increase
      | None => ret tt
      end
  end.

Definition propagate (object : addr) (size_change : Z) (increase : bool)
  : M unit :=
  fuel <- cells ;;
  gwyfile_object_propagate_size_change fuel object size_change increase.

(** [gwyfile_item_notify_size_change] *)
Definition gwyfile_item_notify_size_change (item : addr) (oldsize : Z)
  : M unit :=
  x <- get_item item ;;
  match i_owner x with
  | None => ret tt
  | Some owner =>
      if i_data_size x >? oldsize
      then propagate owner (size_t (i_data_size x - oldsize)) true
      else propagate owner (size_t (oldsize - i_data_size x)) false
  end.

(** *** Constructors *)

Definition gwyfile_object_new_internal (name : list byte) : M addr :=
  alloc_object (Object None name (u32 (strlen name)) [] 0).

Definition gwyfile_item_new_internal (type : Z) (name : list byte)
    (alen data_size : Z) (v : value) : M addr :=
  alloc_item (Item type alen name (u32 (strlen name)) true None data_size v).

Definition gwyfile_item_new_bool (name : list byte) (value : bool) : M addr :=
  gwyfile_item_new_internal GWYFILE_ITEM_BOOL name 0 1 (b value).

Definition gwyfile_item_new_string (name value : list byte) : M addr :=
  gwyfile_item_new_internal GWYFILE_ITEM_STRING name 0
    (size_t (strlen value + 1)) (s value).

Definition gwyfile_item_new_char_array (name value : list byte)
    (array_length : Z) : M addr :=
  assert (negb (array_length =? 0)) ;;
  gwyfile_item_new_internal GWYFILE_ITEM_CHAR_ARRAY name array_length
    (size_t (4 + array_length)) (ca value).

(** [assert(value); assert(!value->owner);] then
    [gwyfile_item_new_internal_object], which sets [value->owner = item]. *)
Definition gwyfile_item_new_object (name : list byte) (value : pointer)
  : M addr :=
  match value with
  | None => assert false ;; spent
  | Some p =>
      x <- get_object p ;;
      assert (is_null_pointer (o_owner x)) ;;
      item <- gwyfile_item_new_internal GWYFILE_ITEM_OBJECT name 0
                (object_size_of x) (o p) ;;
      put_object p (object_with_owner x (Some item)) ;;
      ret item
  end.

(** The two loops of [gwyfile_item_new_internal_object_array] and of
    [gwyfile_item_set_object_array] over [value[i]]. *)
Fixpoint assert_roots (value : list addr) : M unit :=
  match value with
  | [] => ret tt
  | p :: value' =>
      x <- get_object p ;;
      assert (is_null_pointer (o_owner x)) ;;
      assert_roots value'
  end.

Fixpoint add_object_sizes (value : list addr) (data_size : Z) : M Z :=
  match value with
  | [] => ret data_size
  | p :: value' =>
      x <- get_object p ;;
      add_object_sizes value' (size_t (data_size + object_size_of x))
  end.

Fixpoint set_owners (value : list addr) (owner : pointer) : M unit :=
  match value with
  | [] => ret tt
  | p :: value' =>
      x <- get_object p ;;
      put_object p (object_with_owner x owner) ;;
      set_owners value' owner
  end.

Definition gwyfile_item_new_object_array (name : list byte)
    (value : list addr) (array_length : Z) : M addr :=
  assert (negb (array_length =? 0)) ;;
  let value' := firstn (Z.to_nat array_length) value in
  assert_roots value' ;;
  n <- add_object_sizes value' 4 ;;
  item <- gwyfile_item_new_internal GWYFILE_ITEM_OBJECT_ARRAY name
            array_length n (oa value) ;;
  set_owners value' (Some item) ;;
  ret item.

(** *** Attaching and detaching items *)

(** [gwyfile_object_append]: [object->items[object->nitems++] = item;
    item->owner = object;] and the propagation of [gwyfile_item_size(item)]. *)
Definition gwyfile_object_append (object item : addr) : M unit :=
  x <- get_object object ;;
  put_object object (object_with_items x (o_items x ++ [item])) ;;
  y <- get_item item ;;
  put_item item (with_owner y (Some object)) ;;
  n <- gwyfile_item_size (Some item) ;;
  propagate object n true.

(** The search loops of [gwyfile_object_add] and [gwyfile_object_find]: the
    index of the first item called [name], if there is one. *)
Fixpoint find_name (l : list addr) (name : list byte) (index : nat)
  : M (option nat) :=
  match l with
  | [] => ret None
  | p :: l' =>
      x <- get_item p ;;
      if gwyfile_strequal (i_name x) name then ret (Some index)
      else find_name l' name (S index)
  end.

Definition gwyfile_object_add (object item : pointer) : M bool :=
  match object, item with
  | Some object, Some item =>
      y <- get_item item ;;
      assert (is_null_pointer (i_owner y)) ;;
      x <- get_object object ;;
      found <- find_name (o_items x) (i_name y) 0 ;;
      match found with
      | Some _ => ret false
      | None => gwyfile_object_append object item ;; ret true
      end
  | _, _ => assert false ;; spent
  end.

(** [gwyfile_object_find]: the index, or [nitems]. *)
Definition gwyfile_object_find (object : addr) (name : list byte) : M nat :=
  x <- get_object object ;;
  found <- find_name (o_items x) name 0 ;;
  ret (match found with Some k => k | None => length (o_items x) end).

Definition gwyfile_object_get (object : pointer) (name : list byte)
  : M pointer :=
  match object with
  | None => assert false ;; spent
  | Some p =>
      x <- get_object p ;;
      k <- gwyfile_object_find p name ;;
      ret (o_items x !! k)
  end.

(** [memset(item, 0, sizeof(GwyfileItem)); free(item);] and the frees of the
    data are the removal of the cell.  An object cell goes with
    [gwyfile_object_free]. *)
Fixpoint gwyfile_item_free (fuel : nat) (item : pointer) : M unit :=
  match fuel with
  | O => spent
  | S fuel' =>
      match item with
      | None => ret tt
      | Some p =>
          x <- get_item p ;;
          assert (is_null_pointer (i_owner x)) ;;
          (if i_type x =? GWYFILE_ITEM_OBJECT then
             match i_v x with
             | o v =>
                 if i_data_owned x then
                   y <- get_object v ;;
                   put_object v (object_with_owner y None) ;;
                   gwyfile_object_free fuel' (Some v)
                 else ret tt
             | _ => fun _ => Undefined
             end
           else if i_type x =? GWYFILE_ITEM_OBJECT_ARRAY then
             match i_v x with
             | oa v =>
                 if i_data_owned x then
                   (fix each (l : list addr) (n : nat) : M unit :=
                      match l, n with
                      | v :: l', S n' =>
                          y <- get_object v ;;
                          put_object v (object_with_owner y None) ;;
                          gwyfile_object_free fuel' (Some v) ;;
                          each l' n'
                      | _, _ => ret tt
                      end) v (Z.to_nat (i_array_length x))
                 else ret tt
             | _ => fun _ => Undefined
             end
           else ret tt) ;;
          free_item p
      end
  end

(** [while (object->nitems) gwyfile_object_remove_last(object, true);] *)
with gwyfile_object_free (fuel : nat) (object : pointer) : M unit :=
  match fuel with
  | O => spent
  | S fuel' =>
      match object with
      | None => ret tt
      | Some p =>
          x <- get_object p ;;
          assert (is_null_pointer (o_owner x)) ;;
          (fix each (n : nat) : M unit :=
             match n with
             | O => ret tt
             | S n' =>
                 gwyfile_object_remove_last fuel' p true ;; each n'
             end) (length (o_items x)) ;;
          free_object p
      end
  end

with gwyfile_object_remove_last (fuel : nat) (object : addr) (freeitem : bool)
  : M unit :=
  match fuel with
  | O => spent
  | S fuel' =>
      x <- get_object object ;;
      assert (negb (Z.of_nat (length (o_items x)) =? 0)) ;;
      match last (o_items x) with
      | None => fun _ => Undefined
      | Some item =>
          y <- get_item item ;;
          assert (match i_owner y with
                  | Some p => Pos.eqb p object
                  | None => false
                  end) ;;
          n <- gwyfile_item_size (Some item) ;;
          propagate object n false ;;
          y <- get_item item ;;
          put_item item (with_owner y None) ;;
          (if freeitem then gwyfile_item_free fuel' (Some item) else ret tt) ;;
          x <- get_object object ;;
          put_object object (object_with_items x (removelast (o_items x)))
      end
  end.

(** [items[i] = items[nitems-1]; items[nitems-1] = item;] when
    [i < nitems-1]. *)
Definition swap_with_last (l : list addr) (k : nat) : list addr :=
  match l !! k, last l with
  | Some a, Some z =>
      if Nat.ltb (S k) (length l)
      then <[Nat.pred (length l) := a]> (<[k := z]> l)
      else l
  | _, _ => l
  end.

Definition detach (object : addr) (name : list byte) (freeitem : bool)
  : M pointer :=
  x <- get_object object ;;
  k <- gwyfile_object_find object name ;;
  if (Z.of_nat k <? Z.of_nat (length (o_items x)))%Z then
    put_object object (object_with_items x (swap_with_last (o_items x) k)) ;;
    fuel <- free_calls ;;
    gwyfile_object_remove_last fuel object freeitem ;;
    ret (o_items x !! k)
  else ret None.

Definition gwyfile_object_remove (object : pointer) (name : list byte)
  : M bool :=
  match object with
  | None => assert false ;; spent
  | Some p => r <- detach p name true ;; ret (negb (is_null_pointer r))
  end.

Definition gwyfile_object_take (object : pointer) (name : list byte)
  : M pointer :=
  match object with
  | None => assert false ;; spent
  | Some p => detach p name false
  end.

(** *** Setters *)

Definition typed_item (item : pointer) (type : Z) : M (addr * Heap.item) :=
  match item with
  | None => assert false ;; spent
  | Some p =>
      x <- get_item p ;;
      assert (i_type x =? type) ;;
      ret (p, x)
  end.

Definition gwyfile_item_set_bool (item : pointer) (value : bool) : M unit :=
  px <- typed_item item GWYFILE_ITEM_BOOL ;;
  put_item (fst px)
    (with_value (snd px) (i_array_length (snd px)) (i_data_size (snd px))
       (i_data_owned (snd px)) (b value)).

(** [gwyfile_item_set_string], [gwyfile_item_set_string_copy] (which stores a
    copy with the same bytes) and, with [owned = false],
    [gwyfile_item_set_string_const]. *)
Definition set_string (owned : bool) (item : pointer) (value : list byte)
  : M unit :=
  px <- typed_item item GWYFILE_ITEM_STRING ;;
  let oldsize := i_data_size (snd px) in
  put_item (fst px)
    (with_value (snd px) (i_array_length (snd px)) (size_t (strlen value + 1))
       owned (s value)) ;;
  gwyfile_item_notify_size_change (fst px) oldsize.

Definition gwyfile_item_set_string := set_string true.
Definition gwyfile_item_set_string_copy := set_string true.
Definition gwyfile_item_set_string_const := set_string false.

(** [gwyfile_item_set_char_array] and its copying and borrowing variants. *)
Definition set_char_array (owned : bool) (item : pointer) (value : list byte)
    (array_length : Z) : M unit :=
  px <- typed_item item GWYFILE_ITEM_CHAR_ARRAY ;;
  assert (negb (array_length =? 0)) ;;
  let oldsize := i_data_size (snd px) in
  put_item (fst px)
    (with_value (snd px) array_length (size_t (4 + array_length)) owned
       (ca value)) ;;
  gwyfile_item_notify_size_change (fst px) oldsize.

Definition gwyfile_item_set_char_array := set_char_array true.
Definition gwyfile_item_set_char_array_copy := set_char_array true.
Definition gwyfile_item_set_char_array_const := set_char_array false.

(** [gwyfile_item_set_object]:
    [oldsize = item->data_size; gwyfile_object_free(item->v.o);
     item->data_size = gwyfile_object_size(value); item->v.o = value;
     gwyfile_item_notify_size_change(item, oldsize);] *)
Definition gwyfile_item_set_object (item value : pointer) : M unit :=
  px <- typed_item item GWYFILE_ITEM_OBJECT ;;
  match value, i_v (snd px) with
  | Some v, o old =>
      y <- get_object v ;;
      assert (is_null_pointer (o_owner y)) ;;
      let oldsize := i_data_size (snd px) in
      fuel <- free_calls ;;
      gwyfile_object_free fuel (Some old) ;;
      y <- get_object v ;;
      x <- get_item (fst px) ;;
      put_item (fst px)
        (with_value x (i_array_length x) (object_size_of y) (i_data_owned x)
           (o v)) ;;
      gwyfile_item_notify_size_change (fst px) oldsize
  | None, _ => assert false ;; spent
  | _, _ => fun _ => Undefined
  end.

(** [gwyfile_item_set_object_array]: the old objects are detached and freed,
    the sizes of the new ones are added up, [item->v.oa = value]. *)
Definition gwyfile_item_set_object_array (item : pointer) (value : list addr)
    (array_length : Z) : M unit :=
  px <- typed_item item GWYFILE_ITEM_OBJECT_ARRAY ;;
  assert (negb (array_length =? 0)) ;;
  let value' := firstn (Z.to_nat array_length) value in
  assert_roots value' ;;
  let oldsize := i_data_size (snd px) in
  (if i_data_owned (snd px) then
     match i_v (snd px) with
     | oa old =>
         fuel <- free_calls ;;
         (fix each (l : list addr) : M unit :=
            match l with
            | [] => ret tt
            | v :: l' =>
                y <- get_object v ;;
                put_object v (object_with_owner y None) ;;
                gwyfile_object_free fuel (Some v) ;;
                each l'
            end) (firstn (Z.to_nat (i_array_length (snd px))) old)
     | _ => fun _ => Undefined
     end
   else ret tt) ;;
  n <- add_object_sizes value' 4 ;;
  x <- get_item (fst px) ;;
  put_item (fst px) (with_value x array_length n true (oa value)) ;;
  gwyfile_item_notify_size_change (fst px) oldsize.

(** *** The size invariant, as a test on a store

    Every object's [data_size] is the sum of [gwyfile_item_size] over its
    items; an object item's [data_size] is [gwyfile_object_size] of the
    object it wraps; an object array item's [data_size] is 4 plus the sum of
    the sizes of its objects. *)

Definition item_size_of (x : item) : Z :=
  size_t (u32 (1 + i_name_len x + 1) + i_data_size x).

Definition sizes_of {A} (m : gmap addr A) (f : A -> Z) (l : list addr)
  : option Z :=
  foldr (fun p acc =>
           match m !! p, acc with
           | Some x, Some n => Some (f x + n)
           | _, _ => None
           end) (Some 0) l.

Definition object_size_ok (h : heap) (x : object) : bool :=
  match sizes_of (items h) item_size_of (o_items x) with
  | Some n => o_data_size x =? n
  | None => false
  end.

Definition item_size_ok (h : heap) (x : item) : bool :=
  match i_v x with
  | o v =>
      match objects h !! v with
      | Some y => i_data_size x =? object_size_of y
      | None => false
      end
  | oa v =>
      match sizes_of (objects h) object_size_of
              (firstn (Z.to_nat (i_array_length x)) v) with
      | Some n => i_data_size x =? 4 + n
      | None => false
      end
  | _ => true
  end.

Definition size_invariant (h : heap) : bool :=
  forallb (fun px => object_size_ok h (snd px)) (map_to_list (objects h))
  && forallb (fun px => item_size_ok h (snd px)) (map_to_list (items h)).

(** The names of the items of an object, in the order of its array. *)
Definition names_of (h : heap) (object : addr) : list (list byte) :=
  match objects h !! object with
  | Some x =>
      omap (fun p => i_name <$> items h !! p) (o_items x)
  | None => []
  end.

End Heap.

(** ** Structural induction over trees

    An item is a leaf unless it holds an object or an array of objects. *)

Definition is_leaf (v : GwyfileValue) : bool :=
  match v with
  | v_o _ | v_oa _ => false
  | _ => true
  end.

Section TreeInduction.

Variable P : GwyfileItem -> Prop.
Variable Q : GwyfileObject -> Prop.
Hypothesis leaf_case :
  forall n l a d v, is_leaf v = true -> P (Item n l a d v).
Hypothesis object_item_case :
  forall n l a d o, Q o -> P (Item n l a d (v_o o)).
Hypothesis object_array_case :
  forall n l a d oa, Forall Q oa -> P (Item n l a d (v_oa oa)).
Hypothesis object_case :
  forall n l items d, Forall P items -> Q (Object n l items d).

Fixpoint item_tree_ind (i : GwyfileItem) : P i :=
  match i with
  | Item n l a d v =>
      match v return P (Item n l a d v) with
      | v_o o => object_item_case n l a d o (object_tree_ind o)
      | v_oa oa =>
          object_array_case n l a d oa
            ((fix all (oa : list GwyfileObject) : Forall Q oa :=
                match oa with
                | [] => @List.Forall_nil _ Q
                | o :: oa' => @List.Forall_cons _ Q o oa' (object_tree_ind o) (all oa')
                end) oa)
      | v_b x => leaf_case n l a d (v_b x) eq_refl
      | v_c x => leaf_case n l a d (v_c x) eq_refl
      | v_i x => leaf_case n l a d (v_i x) eq_refl
      | v_q x => leaf_case n l a d (v_q x) eq_refl
      | v_d x => leaf_case n l a d (v_d x) eq_refl
      | v_s x => leaf_case n l a d (v_s x) eq_refl
      | v_ca x => leaf_case n l a d (v_ca x) eq_refl
      | v_ia x => leaf_case n l a d (v_ia x) eq_refl
      | v_qa x => leaf_case n l a d (v_qa x) eq_refl
      | v_da x => leaf_case n l a d (v_da x) eq_refl
      | v_sa x => leaf_case n l a d (v_sa x) eq_refl
      end
  end

with object_tree_ind (o : GwyfileObject) : Q o :=
  match o with
  | Object n l items d =>
      object_case n l items d
        ((fix all (items : list GwyfileItem) : Forall P items :=
            match items with
            | [] => @List.Forall_nil _ P
            | i :: items' => @List.Forall_cons _ P i items' (item_tree_ind i) (all items')
            end) items)
  end.

Definition tree_ind : (forall i, P i) /\ (forall o, Q o) :=
  conj item_tree_ind object_tree_ind.

End TreeInduction.

(** ** Notions used in the statements and proofs below *)

Definition nilb {A} (l : list A) : bool :=
  match l with [] => true | _ => false end.

(** A check that finds the violations [V]: with an error list it appends
    them, without one it only answers. *)
Definition finds (check : errlist -> bool * errlist) (V : list GwyfileError)
  : Prop :=
  (forall l, check (Some l) = (nilb V, Some (l ++ V)))
  /\ check None = (nilb V, None).

(** The rest [k] of a function body that was entered with the error list
    [l0], respectively with no error list, and will still find [V]. *)
Definition rest_finds (k : Z -> errlist -> bool * errlist)
    (V : list GwyfileError) : Prop :=
  (forall l0 l,
      k (Z.of_nat (length l0)) (Some (l0 ++ l))
      = (nilb (l ++ V), Some (l0 ++ l ++ V)))
  /\ (forall oldn, k oldn None = (nilb V, None)).


(** The part of [gwyfile_check_item_internal] before the descent into
    objects, with [tail] for what follows. *)
Definition item_checks (flags : Z) (name : list byte) (n : nat)
    (v : GwyfileValue) (tail : Z -> errlist -> bool * errlist)
  : Z -> errlist -> bool * errlist :=
  fun oldn el =>
    guarded (when_flag flags GWYFILE_CHECK_FLAG_VALIDITY
               (gwyfile_check_valid_utf8 name GWYFILE_INVALID_UTF8_NAME) el)
      (fun el =>
    guarded (when_flag flags GWYFILE_CHECK_FLAG_WARNING
               (gwyfile_check_nonempty_name name) el)
      (fun el =>
    (if has_flag flags GWYFILE_CHECK_FLAG_VALIDITY then
       match v with
       | v_s s =>
           guarded (gwyfile_check_valid_utf8 s GWYFILE_INVALID_UTF8_STRING el)
       | v_sa sa =>
           check_each
             (fun s => gwyfile_check_valid_utf8 s GWYFILE_INVALID_UTF8_STRING)
             (firstn n sa) el
       | v_d d => guarded (gwyfile_check_double d el)
       | v_da da => check_each gwyfile_check_double (firstn n da) el
       | _ => fun k => k el
       end
     else fun k => k el) (tail oldn))).

(** The checks of [gwyfile_check_object_internal] on the object's name, with
    [tail] for the loop over the items. *)
Definition object_checks (flags : Z) (name : list byte)
    (tail : Z -> errlist -> bool * errlist)
  : Z -> errlist -> bool * errlist :=
  fun oldn el =>
    guarded (when_flag flags GWYFILE_CHECK_FLAG_VALIDITY
               (gwyfile_check_valid_utf8 name GWYFILE_INVALID_UTF8_TYPE) el)
      (fun el =>
    guarded (when_flag flags GWYFILE_CHECK_FLAG_WARNING
               (gwyfile_check_valid_identifier name) el) (tail oldn)).

(** An object ["T"] with one bool item whose name is the invalid two-byte
    sequence C3 28. *)
Definition bad_name_tree : GwyfileObject :=
  match gwyfile_object_append (gwyfile_object_new_internal [x54])
          (gwyfile_item_new_internal_bool [xc3; x28] true) with
  | Ok o => o
  | _ => gwyfile_object_new_internal [x54]
  end.

(** The bound of the size check in [gwyfile_object_fwrite]:
    [(size_t)0xffffffffu - sizeof(uint32_t) - name_len]. *)
Definition object_size_limit (o : GwyfileObject) : Z :=
  size_t (4294967295 - 4 - object_name_len o).

(** An object with the empty name and one char array item ["a"] of
    4294967288 bytes: its payload is 0xFFFFFFFF bytes long. *)
Definition big_array : list byte := repeat x00 (Z.to_nat 4294967288).

Definition big_object : GwyfileObject :=
  match gwyfile_object_append (gwyfile_object_new_internal [])
          (gwyfile_item_new_internal_char_array [x61] big_array 4294967288)
  with
  | Ok o => o
  | _ => gwyfile_object_new_internal []
  end.

(** The store after a run from the empty store, and the value returned. *)
Definition store_after {A} (m : Heap.M A) : Heap.heap :=
  match m Heap.empty with
  | Heap.Done _ h => h
  | _ => Heap.empty
  end.

(** An object ["O"] (address 1) holding a string item ["a"] (address 2),
    and a second, unattached string item ["a"] (address 3). *)
Definition store_with_rival : Heap.heap :=
  store_after
    (Heap.bind (Heap.gwyfile_object_new_internal [x4f]) (fun O =>
     Heap.bind (Heap.gwyfile_item_new_string [x61] [x68; x69]) (fun I =>
     Heap.bind (Heap.gwyfile_object_add (Some O) (Some I)) (fun _ =>
     Heap.gwyfile_item_new_string [x61] [x79; x6f])))).

(** The address holds an item cell. *)
Definition allocated (h : Heap.heap) (p : Heap.addr) : Prop :=
  is_Some (Heap.items h !! p).

(** Runs of the tree-building interface from the empty store. *)
Module Scenarios.
Import Heap.

Definition holds (P : heap -> bool) : M bool := fun h => Done (P h) h.

(** An object ["O"] receives an object array item ["a"] wrapping an empty
    object ["A"]; the array is replaced by one wrapping an empty object
    ["B"]; a bool item ["x"] is added to ["B"].  Returned: the addresses of
    ["B"], ["O"] and the item, and the size invariant before the
    replacement, after it, and after the addition. *)
Definition replace_then_grow : M (addr * addr * addr * (bool * bool * bool)) :=
  A <- gwyfile_object_new_internal [x41] ;;
  B <- gwyfile_object_new_internal [x42] ;;
  O <- gwyfile_object_new_internal [x4f] ;;
  I <- gwyfile_item_new_object_array [x61] [A] 1 ;;
  _ <- gwyfile_object_add (Some O) (Some I) ;;
  ok1 <- holds size_invariant ;;
  gwyfile_item_set_object_array (Some I) [B] 1 ;;
  ok2 <- holds size_invariant ;;
  x <- gwyfile_item_new_bool [x78] true ;;
  _ <- gwyfile_object_add (Some B) (Some x) ;;
  ok3 <- holds size_invariant ;;
  ret (B, O, I, (ok1, ok2, ok3)).

(** An object item ["a"] wrapping ["A"] is given the object ["B"]. *)
Definition replace_object : M unit :=
  A <- gwyfile_object_new_internal [x41] ;;
  B <- gwyfile_object_new_internal [x42] ;;
  I <- gwyfile_item_new_object [x61] (Some A) ;;
  gwyfile_item_set_object (Some I) (Some B).

(** The scenario of the format description: an object with a string item
    ["hi"], whose value is replaced by ["longer"]; returned are the object's
    [data_size] before and after, and the size invariant at the end. *)
Definition grow_string : M (Z * Z * bool) :=
  O <- gwyfile_object_new_internal [x4f] ;;
  I <- gwyfile_item_new_string [x49; x64] [x68; x69] ;;
  _ <- gwyfile_object_add (Some O) (Some I) ;;
  d0 <- gwyfile_object_data_size (Some O) ;;
  gwyfile_item_set_string_copy (Some I) [x6c; x6f; x6e; x67; x65; x72] ;;
  d1 <- gwyfile_object_data_size (Some O) ;;
  ok <- holds size_invariant ;;
  ret (d0, d1, ok).

(** An object ["O"] holds an object item ["a"] under which objects nest
    three more levels deep, down to a bool item ["x"]; the item ["a"] is
    removed.  Returned: the address of ["O"] and what
    [gwyfile_object_remove] returned. *)
Definition remove_nested : M (addr * bool) :=
  D <- gwyfile_object_new_internal [x44] ;;
  x <- gwyfile_item_new_bool [x78] true ;;
  _ <- gwyfile_object_add (Some D) (Some x) ;;
  I3 <- gwyfile_item_new_object [x63] (Some D) ;;
  C <- gwyfile_object_new_internal [x43] ;;
  _ <- gwyfile_object_add (Some C) (Some I3) ;;
  I2 <- gwyfile_item_new_object [x62] (Some C) ;;
  B <- gwyfile_object_new_internal [x42] ;;
  _ <- gwyfile_object_add (Some B) (Some I2) ;;
  I1 <- gwyfile_item_new_object [x61] (Some B) ;;
  O <- gwyfile_object_new_internal [x4f] ;;
  _ <- gwyfile_object_add (Some O) (Some I1) ;;
  removed <- gwyfile_object_remove (Some O) [x61] ;;
  ret (O, removed).

End Scenarios.

(** Files, byte by byte.  Each is the magic header and an object ["T"]. *)

(** One bool item ["b"] whose value byte is 02. *)
Definition file_bool_two : list byte :=
  [x47; x57; x59; x50; x54; x00; x04; x00; x00; x00;
   x62; x00; x62; x02].

(** Two bool items, ["b"] first and ["a"] second. *)
Definition file_b_then_a : list byte :=
  [x47; x57; x59; x50; x54; x00; x08; x00; x00; x00;
   x62; x00; x62; x01; x61; x00; x62; x00].

(** Two bool items, both called ["x"]. *)
Definition file_x_twice : list byte :=
  [x47; x57; x59; x50; x54; x00; x08; x00; x00; x00;
   x78; x00; x62; x01; x78; x00; x62; x00].

(** One char array item ["a"] of two bytes, ["12"]. *)
Definition file_char_array : list byte :=
  [x47; x57; x59; x50; x54; x00; x09; x00; x00; x00;
   x61; x00; x43; x02; x00; x00; x00; x31; x32].

(** A chain of objects ["T"]: [chain n] has [n] objects below the outer
    one, each the only item, ["o"], of the one above it. *)
Fixpoint chain (n : nat) : GwyfileObject :=
  match n with
  | O => gwyfile_object_new_internal [x54]
  | S n' =>
      match gwyfile_object_append (gwyfile_object_new_internal [x54])
              (gwyfile_item_new_internal_object [x6f] (chain n')) with
      | Ok o => o
      | _ => gwyfile_object_new_internal [x54]
      end
  end.

(** The bytes of a tree: what the writer emits when no size check fails. *)
Fixpoint encode_object (o : GwyfileObject) : list byte :=
  match o with
  | Object name _ items data_size =>
      name ++ [x00] ++ le_encode 4 data_size
      ++ concat (map encode_item items)
  end

with encode_item (i : GwyfileItem) : list byte :=
  match i with
  | Item name _ alen _ v =>
      name ++ [x00] ++ [byte_of_Z (value_type v)]
      ++ match v with
         | v_b b => [if b then x01 else x00]
         | v_c c => [c]
         | v_i i => le_encode 4 i
         | v_q q => le_encode 8 q
         | v_d d => le_encode 8 d
         | v_s s => s ++ [x00]
         | v_o o => encode_object o
         | v_ca ca => le_encode 4 alen ++ ca
         | v_ia ia => le_encode 4 alen ++ concat (map (le_encode 4) ia)
         | v_qa qa => le_encode 4 alen ++ concat (map (le_encode 8) qa)
         | v_da da => le_encode 4 alen ++ concat (map (le_encode 8) da)
         | v_sa sa => le_encode 4 alen ++ concat (map (fun s => s ++ [x00]) sa)
         | v_oa oa => le_encode 4 alen ++ concat (map encode_object oa)
         end
  end.

(** A recursion budget that suffices to read the bytes of a tree. *)
Fixpoint object_need (o : GwyfileObject) : nat :=
  match o with
  | Object _ _ items _ =>
      S ((fix need (items : list GwyfileItem) : nat :=
            match items with
            | [] => 1%nat
            | i :: items' => S (Nat.max (item_need i) (need items'))
            end) items)
  end

with item_need (i : GwyfileItem) : nat :=
  match i with
  | Item _ _ _ _ v =>
      match v with
      | v_o o => S (object_need o)
      | v_oa oa =>
          S ((fix need (oa : list GwyfileObject) : nat :=
                match oa with
                | [] => 1%nat
                | o :: oa' => S (Nat.max (object_need o) (need oa'))
                end) oa)
      | _ => 1%nat
      end
  end.

Fixpoint items_need (items : list GwyfileItem) : nat :=
  match items with
  | [] => 1%nat
  | i :: items' => S (Nat.max (item_need i) (items_need items'))
  end.

Fixpoint objects_need (oa : list GwyfileObject) : nat :=
  match oa with
  | [] => 1%nat
  | o :: oa' => S (Nat.max (object_need o) (objects_need oa'))
  end.

(** The three ways reading the bytes of a well-formed tree can end: the
    tree fits the depth limit and its names are distinct, and it is read;
    it is too deep; it has a duplicate name. *)
Definition reads_as {A} (r : result (A * list byte)) (expected : A)
    (rest : list byte) (fits distinct : Prop) : Prop :=
  (fits /\ distinct /\ r = Ok (expected, rest))
  \/ (~ fits /\ r = Fail (DataError GWYFILE_ERROR_TOO_DEEP_NESTING))
  \/ (~ distinct /\ r = Fail (DataError GWYFILE_ERROR_DUPLICATE_NAME)).

(** The order [gwyfile_compare_items] sorts by. *)
Definition item_le (a b : GwyfileItem) : Prop := gwyfile_compare_items a b <= 0.

Definition is_array_value (v : GwyfileValue) : bool :=
  match v with
  | v_ca _ | v_ia _ | v_qa _ | v_da _ | v_sa _ | v_oa _ => true
  | _ => false
  end.

(** Reading the bytes of an item, respectively of an object, followed by
    any bytes [rest], with enough budget and within [max_size], ends in one
    of the three ways of [reads_as]. *)
Definition item_reads (junk : nat -> byte) (i : GwyfileItem) : Prop :=
  forall fuel rest max_size d,
    (item_need i <= fuel)%nat -> item_size i <= max_size ->
    max_size < 2 ^ 64 -> 0 <= d <= GWYFILE_MAX_DEPTH ->
    reads_as
      (gwyfile_item_fread_internal junk fuel (encode_item i ++ rest)
         max_size d)
      (item_sorted_copy i) rest
      (d + item_nesting i <= GWYFILE_MAX_DEPTH) (item_names_distinct i).

Definition object_reads (junk : nat -> byte) (o : GwyfileObject) : Prop :=
  forall fuel rest max_size d,
    (object_need o <= fuel)%nat -> gwyfile_object_size o <= max_size ->
    max_size < 2 ^ 64 -> 0 <= d ->
    reads_as
      (gwyfile_object_fread_internal junk fuel (encode_object o ++ rest)
         max_size d)
      (sorted_copy o) rest
      (d + object_nesting o <= GWYFILE_MAX_DEPTH) (names_distinct o).

(** The tree of [file_x_twice]: an object ["T"] with two bool items ["x"]. *)
Definition tree_x_twice : GwyfileObject :=
  Object [x54] 1
    [gwyfile_item_new_internal_bool [x78] true;
     gwyfile_item_new_internal_bool [x78] false] 8.

(** [below n o]: the object [o] under [n] objects ["T"], each holding the
    next as its only item, ["o"]. *)
Fixpoint below (n : nat) (o : GwyfileObject) : GwyfileObject :=
  match n with
  | O => o
  | S n' =>
      match gwyfile_object_append (gwyfile_object_new_internal [x54])
              (gwyfile_item_new_internal_object [x6f] (below n' o)) with
      | Ok r => r
      | _ => gwyfile_object_new_internal [x54]
      end
  end.

(** Two items ["x"] in one object, 200 objects down: the object that holds
    them is the 201st. *)
Definition deep_x_twice : GwyfileObject := below 200 tree_x_twice.

(** An object ["T"] with two object items: first ["a"], holding the object
    with the two items ["x"], then ["o"], holding a chain of 201 objects. *)
Definition x_twice_then_chain : GwyfileObject :=
  match
    (let* r := gwyfile_object_append (gwyfile_object_new_internal [x54])
                 (gwyfile_item_new_internal_object [x61] tree_x_twice) in
     gwyfile_object_append r
       (gwyfile_item_new_internal_object [x6f] (chain 200)))
  with
  | Ok r => r
  | _ => gwyfile_object_new_internal [x54]
  end.

(** An object ["T"] with a bool item ["a"] and an object item ["o"] holding
    an object ["U"] with a string item ["s"], ["hi"]. *)
Definition sample_tree : GwyfileObject :=
  Object [x54] 1
    [gwyfile_item_new_internal_bool [x61] true;
     gwyfile_item_new_internal_object [x6f]
       (Object [x55] 1 [gwyfile_item_new_internal_string [x73] [x68; x69]] 6)]
    19.

(** How many of the items are called [name]. *)
Definition occurrences (name : list byte) (items : list GwyfileItem) : nat :=
  length (filter (fun i => gwyfile_strequal (item_name i) name = true) items).

(** The tree of [file_b_then_a]: an object ["T"] with the bool items ["b"]
    and ["a"], in this order. *)
Definition tree_b_then_a : GwyfileObject :=
  Object [x54] 1
    [gwyfile_item_new_internal_bool [x62] true;
     gwyfile_item_new_internal_bool [x61] false] 8.

(** The objects an item wraps. *)
Definition wrapped (y : Heap.item) : list Heap.addr :=
  match Heap.i_v y with
  | Heap.o v => [v]
  | Heap.oa v => firstn (Z.to_nat (Heap.i_array_length y)) v
  | _ => []
  end.

(** ** What a read leaves behind

    [consumed stream rest lo hi]: [rest] is what is left of [stream] after
    between [lo] and [hi] bytes were taken from its front. *)

Definition consumed (stream rest : list byte) (lo hi : Z) : Prop :=
  exists c, stream = c ++ rest /\ lo <= Z.of_nat (length c) <= hi.

(** The call returned: the budget of the embedding was enough. *)
Definition returns {A} (r : result A) : bool :=
  match r with OutOfFuel => false | _ => true end.

(** The call returned a value or [NULL] with an error: no [assert] failed. *)
Definition completes {A} (r : result A) : bool :=
  match r with Ok _ | Fail _ => true | _ => false end.

(** The buffer sizes [gwyfile_fread_string] goes through: 0, then 16, 32,
    ... up to 2^31, or the bound [max_size] when that is smaller. *)
Definition buffer_size (size max_size : Z) : Prop :=
  size <= 2147483648
  /\ (size = max_size \/ size = 0
      \/ exists k : nat, (k <= 27)%nat /\ size = 16 * 2 ^ Z.of_nat k).

(** The names of the tree are distinct and sorted in every object, and the
    tree fits the depth limit when it starts at depth [d]. *)
Definition good_item (d : Z) (i : GwyfileItem) : Prop :=
  item_names_distinct i /\ item_names_sorted i
  /\ d + item_nesting i <= GWYFILE_MAX_DEPTH.

Definition good_object (d : Z) (o : GwyfileObject) : Prop :=
  names_distinct o /\ names_sorted o
  /\ d + object_nesting o <= GWYFILE_MAX_DEPTH.

(** A well-formed object but for the size check of the writer. *)
Definition wf_parts (o : GwyfileObject) : Prop :=
  cstring_ok (object_name o)
  /\ object_name_len o = strlen (object_name o)
  /\ object_data_size o = sumZ (map item_size (object_items o))
  /\ 0 <= object_data_size o < 2 ^ 32
  /\ Forall wf_item (object_items o).

(** What the four functions of the reader guarantee about their outcome, on
    any stream: a value comes with the bytes it was read from, its size
    within [max_size], and the tree in good order; no [assert] fails; the
    budget runs out only when it is below the length of the stream. *)
Definition object_outcome (fuel : nat) (stream : list byte) (max_size d : Z)
    (r : result (GwyfileObject * list byte)) : Prop :=
  match r with
  | Ok (o, rest) =>
      consumed stream rest 5 (gwyfile_object_size o)
      /\ gwyfile_object_size o <= max_size
      /\ good_object d o /\ wf_parts o
  | Fail _ => True
  | Abort => False
  | OutOfFuel => (fuel < length stream + 2)%nat
  end.

Definition item_outcome (fuel : nat) (stream : list byte) (max_size d : Z)
    (r : result (GwyfileItem * list byte)) : Prop :=
  match r with
  | Ok (i, rest) =>
      consumed stream rest 2 (item_size i)
      /\ item_size i <= max_size
      /\ good_item d i /\ (max_size < 2 ^ 32 -> wf_item i)
  | Fail _ => True
  | Abort => False
  | OutOfFuel => (fuel < length stream + 1)%nat
  end.

Definition items_outcome (fuel : nat) (stream : list byte) (data_size d : Z)
    (object : GwyfileObject) (r : result (GwyfileObject * list byte)) : Prop :=
  match r with
  | Ok (o, rest) =>
      exists more,
        o = Object (object_name object) (object_name_len object)
              (object_items object ++ more) data_size
        /\ object_data_size object + sumZ (map item_size more) = data_size
        /\ consumed stream rest 0 (data_size - object_data_size object)
        /\ Forall (good_item (d + 1)) more /\ Forall wf_item more
  | Fail _ => True
  | Abort => False
  | OutOfFuel => (fuel < length stream + 2)%nat
  end.

Definition objects_outcome (fuel : nat) (stream : list byte) (max_size d : Z)
    (n : nat) (r : result (list GwyfileObject * list byte)) : Prop :=
  match r with
  | Ok (oa, rest) =>
      length oa = n
      /\ consumed stream rest (5 * Z.of_nat n)
           (sumZ (map gwyfile_object_size oa))
      /\ sumZ (map gwyfile_object_size oa) <= max_size
      /\ Forall (good_object d) oa /\ Forall wf_parts oa
  | Fail _ => True
  | Abort => False
  | OutOfFuel => (fuel < length stream + 3)%nat
  end.

(** ** Paths in messages

    [gwyfile_escaped_strlen], [gwyfile_escaped_strappend] and
    [gwyfile_format_path] build the path of an object or item that the error
    messages show.  A C string is the bytes before its nul; the loops below
    stop at a nul byte as the source does. *)

Definition GWYFILE_PATH_ABBREVIATION_LIMIT : Z := 64.

(** [c == '/' || c == ' ' || c == '\\'] and [c > 0x20 && c < 0x7f] *)
Definition is_escaped_char (c : byte) : bool :=
  let z := byte_to_Z c in (z =? 47) || (z =? 32) || (z =? 92).

Definition is_plain_char (c : byte) : bool :=
  let z := byte_to_Z c in (32 <? z) && (z <? 127).

(** The [for] loop of [gwyfile_escaped_strlen]: the length so far, and
    whether the loop stopped before the nul. *)
Fixpoint escaped_strlen_loop (s : list byte) (len : Z) : Z * bool :=
  match s with
  | [] => (len, false)
  | c :: s' =>
      if byte_eqb c x00 then (len, false)
      else if len <=? GWYFILE_PATH_ABBREVIATION_LIMIT then
        if is_escaped_char c then escaped_strlen_loop s' (size_t (len + 2))
        else if is_plain_char c then escaped_strlen_loop s' (size_t (len + 1))
        else escaped_strlen_loop s' (size_t (len + 4))
      else (len, true)
  end.

Definition gwyfile_escaped_strlen (s : list byte) : Z :=
  let '(len, more) := escaped_strlen_loop s 0 in
  if more then size_t (len + 3) else len.

(** ["0123456789abcdef"[k]] *)
Definition hexadecimal (k : Z) : byte :=
  nth (Z.to_nat k)
    [x30; x31; x32; x33; x34; x35; x36; x37; x38; x39;
     x61; x62; x63; x64; x65; x66] x00.

(** The [for] loop of [gwyfile_escaped_strappend]: the bytes stored at
    [out[0]], [out[1]], ... *)
Fixpoint escaped_strappend_loop (s : list byte) (len : Z) : list byte * bool :=
  match s with
  | [] => ([], false)
  | c :: s' =>
      if byte_eqb c x00 then ([], false)
      else if len <=? GWYFILE_PATH_ABBREVIATION_LIMIT then
        if is_escaped_char c then
          let '(out, more) := escaped_strappend_loop s' (size_t (len + 2)) in
          (x5c :: c :: out, more)
        else if is_plain_char c then
          let '(out, more) := escaped_strappend_loop s' (size_t (len + 1)) in
          (c :: out, more)
        else
          let '(out, more) := escaped_strappend_loop s' (size_t (len + 4)) in
          (x5c :: x78 :: hexadecimal (byte_to_Z c / 16)
               :: hexadecimal (byte_to_Z c mod 16) :: out, more)
      else ([], true)
  end.

Definition gwyfile_escaped_strappend (s : list byte) : list byte :=
  let '(out, more) := escaped_strappend_loop s 0 in
  if more then out ++ [x2e; x2e; x2e] else out.

(** The first loop of [gwyfile_format_path] over the names on the way from
    the leaf to the root: [if (i++) len++; len += gwyfile_escaped_strlen(s);] *)
Fixpoint path_length (names : list (list byte)) (i len : Z) : Z :=
  match names with
  | [] => len
  | s :: names' =>
      let len := if i =? 0 then len else size_t (len + 1) in
      path_length names' (u32 (i + 1)) (size_t (len + gwyfile_escaped_strlen s))
  end.

(** Storing bytes at [path + pos]; outside the allocated buffer the
    behaviour is undefined ([None]). *)
Definition store_bytes (path : list byte) (pos : Z) (bs : list byte)
  : option (list byte) :=
  if (0 <=? pos) && (pos + Z.of_nat (length bs) <=? Z.of_nat (length path))
  then Some (firstn (Z.to_nat pos) path ++ bs
             ++ skipn (Z.to_nat pos + length bs) path)
  else None.

(** The second loop: [if (i++) { pos--; path[pos] = '/'; }
    pos -= gwyfile_escaped_strlen(s); gwyfile_escaped_strappend(path + pos, s);] *)
Fixpoint fill_path (names : list (list byte)) (i pos : Z) (path : list byte)
  : option (Z * list byte) :=
  match names with
  | [] => Some (pos, path)
  | s :: names' =>
      match
        (if i =? 0 then Some (pos, path)
         else
           let pos := size_t (pos - 1) in
           match store_bytes path pos [x2f] with
           | Some path => Some (pos, path)
           | None => None
           end)
      with
      | None => None
      | Some (pos, path) =>
          let pos := size_t (pos - gwyfile_escaped_strlen s) in
          match store_bytes path pos (gwyfile_escaped_strappend s) with
          | Some path => fill_path names' (u32 (i + 1)) pos path
          | None => None
          end
      end
  end.

(** The string a [char*] points to. *)
Fixpoint c_string (l : list byte) : list byte :=
  match l with
  | [] => []
  | c :: l' => if byte_eqb c x00 then [] else c :: c_string l'
  end.

Definition the_toplevel_object : list byte :=
  [x74; x68; x65; x20; x74; x6f; x70; x6c; x65; x76; x65; x6c; x20;
   x6f; x62; x6a; x65; x63; x74].

(** The path the source means to build: the escaped names from the root
    down, separated by ['/']. *)
Fixpoint joined_path (names : list (list byte)) : list byte :=
  match names with
  | [] => []
  | [s] => gwyfile_escaped_strappend s
  | s :: names' => joined_path names' ++ [x2f] ++ gwyfile_escaped_strappend s
  end.

(** The bytes the names take when escaped. *)
Definition path_total (names : list (list byte)) : Z :=
  sumZ (map gwyfile_escaped_strlen names).

Module Paths.
Import Heap.

Section FormatPath.

Variable junk : nat -> byte.

(** The [while (object || item)] walk along the [owner] links. *)
Fixpoint owner_names (fuel : nat) (object item : pointer)
  : M (list (list byte)) :=
  match fuel with
  | O => spent
  | S fuel' =>
      match object, item with
      | Some obj, _ =>
          x <- get_object obj ;;
          names <- owner_names fuel' None (o_owner x) ;;
          ret (o_name x :: names)
      | None, Some itm =>
          y <- get_item itm ;;
          names <- owner_names fuel' (i_owner y) None ;;
          ret (i_name y :: names)
      | None, None => ret []
      end
  end.

Definition gwyfile_format_path (leaf_object leaf_item : pointer)
  : M (list byte) :=
  assert (is_null_pointer leaf_object || is_null_pointer leaf_item) ;;
  fuel <- cells ;;
  names <- owner_names fuel leaf_object leaf_item ;;
  let len := path_length names 0 0 in
  if len =? 0 then ret the_toplevel_object
  else
    let path := map junk (seq 0 (Z.to_nat len)) ++ [x00] in
    match fill_path names 0 len path with
    | None => fun _ => Undefined
    | Some (pos, path) => assert (pos =? 0) ;; ret (c_string path)
    end.

End FormatPath.

End Paths.

(** ** More of the store interface: typed lookups and releasing an object *)

Module Typed.
Import Heap.

(** [assert(object); return object->name;] *)
Definition gwyfile_object_name (object : pointer) : M (list byte) :=
  match object with
  | None => assert false ;; spent
  | Some obj => x <- get_object obj ;; ret (o_name x)
  end.

(** The loop of [gwyfile_object_find_with_type]:
    [items[i]->type == type && gwyfile_strequal(items[i]->name, name)]. *)
Fixpoint find_name_type (l : list addr) (name : list byte) (type : Z)
    (index : nat) : M (option nat) :=
  match l with
  | [] => ret None
  | itm :: l' =>
      x <- get_item itm ;;
      if (i_type x =? type) && gwyfile_strequal (i_name x) name
      then ret (Some index)
      else find_name_type l' name type (S index)
  end.

Definition gwyfile_object_find_with_type (object : addr) (name : list byte)
    (type : Z) : M nat :=
  x <- get_object object ;;
  found <- find_name_type (o_items x) name type 0 ;;
  ret (match found with Some k => k | None => length (o_items x) end).

Definition gwyfile_object_get_with_type (object : pointer) (name : list byte)
    (type : Z) : M pointer :=
  match object with
  | None => assert false ;; spent
  | Some obj =>
      x <- get_object obj ;;
      k <- gwyfile_object_find_with_type obj name type ;;
      if (Z.of_nat k <? Z.of_nat (length (o_items x)))%Z
      then ret (o_items x !! k)
      else ret None
  end.

Definition gwyfile_object_take_with_type (object : pointer)
    (name : list byte) (type : Z) : M pointer :=
  match object with
  | None => assert false ;; spent
  | Some obj =>
      x <- get_object obj ;;
      k <- gwyfile_object_find_with_type obj name type ;;
      if (Z.of_nat k <? Z.of_nat (length (o_items x)))%Z then
        put_object obj (object_with_items x (swap_with_last (o_items x) k)) ;;
        fuel <- free_calls ;;
        gwyfile_object_remove_last fuel obj false ;;
        ret (o_items x !! k)
      else ret None
  end.

(** [assert(item); assert(item->type == GWYFILE_ITEM_OBJECT);
     return item->v.o;] *)
Definition gwyfile_item_get_object (item : pointer) : M pointer :=
  px <- typed_item item GWYFILE_ITEM_OBJECT ;;
  match i_v (snd px) with
  | o v => ret (Some v)
  | _ => fun _ => Undefined
  end.

(** [gwyfile_item_release_object]: [object->owner = NULL;
    item->data_owned = false; gwyfile_item_free(item); return object;] *)
Definition gwyfile_item_release_object (item : pointer) : M pointer :=
  px <- typed_item item GWYFILE_ITEM_OBJECT ;;
  assert (is_null_pointer (i_owner (snd px))) ;;
  match i_v (snd px) with
  | o v =>
      y <- get_object v ;;
      put_object v (object_with_owner y None) ;;
      put_item (fst px)
        (with_value (snd px) (i_array_length (snd px)) (i_data_size (snd px))
           false (i_v (snd px))) ;;
      fuel <- free_calls ;;
      gwyfile_item_free fuel (Some (fst px)) ;;
      ret (Some v)
  | _ => fun _ => Undefined
  end.

End Typed.

(** * Properties *)

(** ** Bytes and little-endian images *)

Lemma byte_to_Z_range b : 0 <= byte_to_Z b < 256.
Proof.
  unfold byte_to_Z. pose proof (Byte.to_N_bounded b). lia.
Qed.

Lemma byte_of_to_Z b : byte_of_Z (byte_to_Z b) = b.
Proof.
  unfold byte_of_Z, byte_to_Z.
  pose proof (Byte.to_N_bounded b).
  rewrite Z.mod_small by lia.
  rewrite N2Z.id, Byte.of_to_N. reflexivity.
Qed.

Lemma byte_to_of_Z z : byte_to_Z (byte_of_Z z) = z mod 256.
Proof.
  unfold byte_of_Z, byte_to_Z.
  pose proof (Z.mod_pos_bound z 256 ltac:(lia)) as Hr.
  destruct (Byte.of_N (Z.to_N (z mod 256))) as [b|] eqn:E.
  - apply Byte.to_of_N in E. rewrite E. lia.
  - exfalso. pose proof (Byte.to_of_N_option_map (Z.to_N (z mod 256))) as H.
    rewrite E in H. simpl in H.
    destruct (N.leb_spec (Z.to_N (z mod 256)) 255); [discriminate | lia].
Qed.

Lemma byte_to_Z_inj a b : byte_to_Z a = byte_to_Z b -> a = b.
Proof.
  intros H. rewrite <- (byte_of_to_Z a), <- (byte_of_to_Z b), H. reflexivity.
Qed.

Lemma byte_eqb_spec a b : reflect (a = b) (byte_eqb a b).
Proof.
  unfold byte_eqb. destruct (Byte.eqb a b) eqn:E; constructor.
  - now apply Byte.byte_dec_bl.
  - now apply Byte.eqb_false.
Qed.

Lemma byte_of_Z_mod z : byte_of_Z (z mod 256) = byte_of_Z z.
Proof. unfold byte_of_Z. rewrite Z.mod_mod by lia. reflexivity. Qed.

Lemma length_le_encode n v : length (le_encode n v) = n.
Proof. revert v. induction n; intros; simpl; auto. Qed.

Lemma le_decode_range bs : 0 <= le_decode bs < 256 ^ Z.of_nat (length bs).
Proof.
  induction bs as [|b bs IH].
  - simpl. lia.
  - cbn [le_decode length]. rewrite Nat2Z.inj_succ, Z.pow_succ_r by lia.
    pose proof (byte_to_Z_range b). lia.
Qed.

Lemma le_decode_encode n v : le_decode (le_encode n v) = v mod 256 ^ Z.of_nat n.
Proof.
  revert v. induction n as [|n IH]; intros v.
  - simpl. now rewrite Z.mod_1_r.
  - cbn [le_encode le_decode]. rewrite IH, byte_to_of_Z.
    rewrite Nat2Z.inj_succ, Z.pow_succ_r by lia.
    rewrite Z.rem_mul_r by lia. lia.
Qed.

Lemma le_encode_decode bs : le_encode (length bs) (le_decode bs) = bs.
Proof.
  induction bs as [|b bs IH]; [reflexivity|].
  cbn [length le_encode le_decode].
  pose proof (byte_to_Z_range b).
  f_equal.
  - rewrite <- byte_of_Z_mod.
    replace ((byte_to_Z b + 256 * le_decode bs) mod 256) with (byte_to_Z b).
    + apply byte_of_to_Z.
    + apply Z.mod_unique with (le_decode bs); lia.
  - replace ((byte_to_Z b + 256 * le_decode bs) / 256) with (le_decode bs); auto.
    apply Z.div_unique with (byte_to_Z b); lia.
Qed.

Lemma le_encode_mod n v :
  le_encode n (v mod 256 ^ Z.of_nat n) = le_encode n v.
Proof.
  rewrite <- (le_decode_encode n v).
  rewrite <- (length_le_encode n v) at 1.
  apply le_encode_decode.
Qed.

Lemma le_encode_signed n bits x :
  bits = 8 * Z.of_nat n ->
  le_encode n (signed bits x) = le_encode n x.
Proof.
  intros ->. unfold signed.
  destruct (x <? 2 ^ (8 * Z.of_nat n - 1)); [reflexivity|].
  rewrite <- (le_encode_mod n (x - _)), <- (le_encode_mod n x).
  f_equal.
  replace (2 ^ (8 * Z.of_nat n)) with (256 ^ Z.of_nat n).
  - rewrite <- Zminus_mod_idemp_r, Z.mod_same, Z.sub_0_r; auto.
    apply Z.pow_nonzero; lia.
  - replace 256 with (2 ^ 8) by reflexivity. now rewrite <- Z.pow_mul_r by lia.
Qed.

Lemma signed_mod bits v :
  0 < bits -> - 2 ^ (bits - 1) <= v < 2 ^ (bits - 1) ->
  signed bits (v mod 2 ^ bits) = v.
Proof.
  intros Hb Hv. unfold signed.
  assert (E : 2 ^ bits = 2 * 2 ^ (bits - 1)).
  { rewrite <- Z.pow_succ_r by lia. f_equal. lia. }
  destruct (Z_lt_le_dec v 0).
  - replace (v mod 2 ^ bits) with (v + 2 ^ bits).
    + destruct (Z.ltb_spec (v + 2 ^ bits) (2 ^ (bits - 1))); lia.
    + apply Z.mod_unique with (-1); lia.
  - rewrite Z.mod_small by lia.
    destruct (Z.ltb_spec v (2 ^ (bits - 1))); lia.
Qed.

(** ** The sign of [strcmp] is a total order on strings *)

Lemma strcmp_refl a : strcmp a a = 0.
Proof. induction a; simpl; auto. now rewrite Z.eqb_refl. Qed.

Lemma strcmp_eq a b : strcmp a b = 0 -> a = b.
Proof.
  revert b. induction a as [|x a IH]; intros [|y b]; simpl; try discriminate; auto.
  destruct (Z.eqb_spec (byte_to_Z x) (byte_to_Z y)) as [E|E].
  - intros H. f_equal; auto using byte_to_Z_inj.
  - lia.
Qed.

Lemma gwyfile_strequal_spec a b : reflect (a = b) (gwyfile_strequal a b).
Proof.
  unfold gwyfile_strequal. destruct (Z.eqb_spec (strcmp a b) 0); constructor.
  - now apply strcmp_eq.
  - intros ->. now rewrite strcmp_refl in *.
Qed.

(** Exchanging the arguments exchanges the sign. *)
Lemma strcmp_antisym a b :
  (strcmp b a < 0 <-> 0 < strcmp a b) /\ (0 < strcmp b a <-> strcmp a b < 0).
Proof.
  assert (E : strcmp b a = - strcmp a b); [|lia].
  revert b. induction a as [|x a IH]; intros [|y b]; simpl; auto.
  rewrite (Z.eqb_sym (byte_to_Z y)).
  destruct (Z.eqb_spec (byte_to_Z x) (byte_to_Z y)); auto. lia.
Qed.

Lemma strcmp_trans a b c :
  strcmp a b <= 0 -> strcmp b c <= 0 -> strcmp a c <= 0.
Proof.
  revert b c. induction a as [|x a IH]; intros [|y b] [|z c]; simpl; try lia.
  pose proof (byte_to_Z_range x). pose proof (byte_to_Z_range y).
  pose proof (byte_to_Z_range z).
  destruct (Z.eqb_spec (byte_to_Z x) (byte_to_Z y));
    destruct (Z.eqb_spec (byte_to_Z y) (byte_to_Z z));
    destruct (Z.eqb_spec (byte_to_Z x) (byte_to_Z z)); try lia.
  apply IH.
Qed.

(** ** The checker reports exactly the violations *)

Lemma nilb_app {A} (l1 l2 : list A) : nilb (l1 ++ l2) = nilb l1 && nilb l2.
Proof. destruct l1; reflexivity. Qed.

Lemma rest_finds_result : rest_finds check_result [].
Proof.
  split; intros; unfold check_result; simpl; [|reflexivity].
  rewrite !app_nil_r. f_equal.
  rewrite length_app. destruct l; simpl.
  - rewrite Nat.add_0_r. apply Z.eqb_refl.
  - apply Z.eqb_neq. lia.
Qed.

Lemma rest_finds_guarded check k V1 V2 :
  finds check V1 -> rest_finds k V2 ->
  rest_finds (fun oldn el => guarded (check el) (k oldn)) (V1 ++ V2).
Proof.
  intros [Hs Hn] [Ks Kn]. split.
  - intros l0 l. rewrite Hs. unfold guarded. simpl.
    rewrite andb_false_r. rewrite <- app_assoc, Ks.
    now rewrite !app_assoc.
  - intros oldn. rewrite Hn. unfold guarded. simpl.
    rewrite andb_true_r, nilb_app. destruct (nilb V1); simpl; auto.
Qed.

Lemma finds_of_rest k V :
  rest_finds k V -> finds (fun el => k (errlist_n el) el) V.
Proof.
  intros [Ks Kn]. split; [|apply Kn].
  intros l. simpl. specialize (Ks l []). now rewrite app_nil_r in Ks.
Qed.

Lemma finds_ext f g V : (forall el, f el = g el) -> finds g V -> finds f V.
Proof. intros E [H1 H2]. split; intros; rewrite E; auto. Qed.

Lemma rest_finds_ext f g V :
  (forall n el, f n el = g n el) -> rest_finds g V -> rest_finds f V.
Proof. intros E [H1 H2]. split; intros; rewrite E; auto. Qed.

Lemma finds_nothing : finds (fun el => (true, el)) [].
Proof. split; intros; simpl; now rewrite ?app_nil_r. Qed.

Lemma finds_report (ok : bool) e :
  finds (fun el => if ok then (true, el) else report e el)
    (violation (negb ok) e).
Proof.
  destruct ok; simpl; [apply finds_nothing|].
  split; intros; reflexivity.
Qed.

Lemma finds_when_flag flags flag check (cond : bool) e :
  (forall el, check el = if cond then (true, el) else report e el) ->
  finds (when_flag flags flag check)
    (violation (has_flag flags flag && negb cond) e).
Proof.
  intros E. unfold when_flag.
  destruct (has_flag flags flag); simpl.
  - eapply finds_ext; [apply E|]. apply finds_report.
  - apply finds_nothing.
Qed.

Lemma rest_finds_each {A} (check : A -> errlist -> bool * errlist) viol l k V :
  (forall x, finds (check x) (viol x)) -> rest_finds k V ->
  rest_finds (fun oldn el => check_each check l el (k oldn))
    (concat (map viol l) ++ V).
Proof.
  intros Hc Hk. induction l as [|x l IH]; simpl.
  - exact Hk.
  - rewrite <- app_assoc.
    apply (rest_finds_guarded (check x)
             (fun oldn el => check_each check l el (k oldn))); auto.
Qed.

Lemma value_violations_leaf flags n v :
  validity flags = false -> value_violations flags n v = [].
Proof.
  intros F. unfold value_violations. rewrite F. simpl.
  destruct v; try reflexivity.
  - induction (firstn n da); simpl; auto.
  - induction (firstn n sa); simpl; auto.
Qed.

Lemma finds_value_checks flags n v k V :
  rest_finds k V ->
  rest_finds
    (fun oldn el =>
       (if has_flag flags GWYFILE_CHECK_FLAG_VALIDITY then
          match v with
          | v_s s =>
              guarded (gwyfile_check_valid_utf8 s GWYFILE_INVALID_UTF8_STRING el)
          | v_sa sa =>
              check_each
                (fun s => gwyfile_check_valid_utf8 s GWYFILE_INVALID_UTF8_STRING)
                (firstn n sa) el
          | v_d d => guarded (gwyfile_check_double d el)
          | v_da da => check_each gwyfile_check_double (firstn n da) el
          | _ => fun k => k el
          end
        else fun k => k el) (k oldn))
    (value_violations flags n v ++ V).
Proof.
  intros Hk.
  destruct (has_flag flags GWYFILE_CHECK_FLAG_VALIDITY) eqn:F.
  - unfold value_violations, validity. rewrite F.
    destruct v; try exact Hk.
    + apply (rest_finds_guarded
               (fun el => gwyfile_check_double d el) k); auto.
      apply finds_report.
    + apply (rest_finds_guarded
               (fun el => gwyfile_check_valid_utf8 s
                            GWYFILE_INVALID_UTF8_STRING el) k); auto.
      apply finds_report.
    + apply (rest_finds_each gwyfile_check_double); auto.
      intros x. apply finds_report.
    + apply (rest_finds_each
               (fun s => gwyfile_check_valid_utf8 s GWYFILE_INVALID_UTF8_STRING));
        auto.
      intros x. apply finds_report.
  - rewrite value_violations_leaf by exact F. exact Hk.
Qed.

Lemma finds_name_checks flags n k V :
  rest_finds k V ->
  rest_finds
    (fun oldn el =>
       guarded (when_flag flags GWYFILE_CHECK_FLAG_VALIDITY
                  (gwyfile_check_valid_utf8 n GWYFILE_INVALID_UTF8_NAME) el)
         (fun el =>
            guarded (when_flag flags GWYFILE_CHECK_FLAG_WARNING
                       (gwyfile_check_nonempty_name n) el) (k oldn)))
    (violation (validity flags && negb (gwyfile_is_valid_utf8 n))
       (ValidityError GWYFILE_INVALID_UTF8_NAME)
     ++ violation (warning flags && (strlen n =? 0))
          (WarningError GWYFILE_WARNING_EMPTY_NAME) ++ V).
Proof.
  intros Hk.
  apply (rest_finds_guarded
           (when_flag flags GWYFILE_CHECK_FLAG_VALIDITY
              (gwyfile_check_valid_utf8 n GWYFILE_INVALID_UTF8_NAME))
           (fun oldn el =>
              guarded (when_flag flags GWYFILE_CHECK_FLAG_WARNING
                         (gwyfile_check_nonempty_name n) el) (k oldn))).
  { apply (finds_when_flag _ _ _ (gwyfile_is_valid_utf8 n)). reflexivity. }
  apply (rest_finds_guarded
           (when_flag flags GWYFILE_CHECK_FLAG_WARNING
              (gwyfile_check_nonempty_name n)) k); auto.
  rewrite <- (negb_involutive (strlen n =? 0)).
  apply (finds_when_flag _ _ _ (negb (strlen n =? 0))). reflexivity.
Qed.

Lemma finds_type_checks flags n k V :
  rest_finds k V ->
  rest_finds
    (fun oldn el =>
       guarded (when_flag flags GWYFILE_CHECK_FLAG_VALIDITY
                  (gwyfile_check_valid_utf8 n GWYFILE_INVALID_UTF8_TYPE) el)
         (fun el =>
            guarded (when_flag flags GWYFILE_CHECK_FLAG_WARNING
                       (gwyfile_check_valid_identifier n) el) (k oldn)))
    (violation (validity flags && negb (gwyfile_is_valid_utf8 n))
       (ValidityError GWYFILE_INVALID_UTF8_TYPE)
     ++ violation (warning flags && negb (gwyfile_is_valid_identifier n))
          (WarningError GWYFILE_WARNING_TYPE_IDENTIFIER) ++ V).
Proof.
  intros Hk.
  apply (rest_finds_guarded
           (when_flag flags GWYFILE_CHECK_FLAG_VALIDITY
              (gwyfile_check_valid_utf8 n GWYFILE_INVALID_UTF8_TYPE))
           (fun oldn el =>
              guarded (when_flag flags GWYFILE_CHECK_FLAG_WARNING
                         (gwyfile_check_valid_identifier n) el) (k oldn))).
  { apply (finds_when_flag _ _ _ (gwyfile_is_valid_utf8 n)). reflexivity. }
  apply (rest_finds_guarded
           (when_flag flags GWYFILE_CHECK_FLAG_WARNING
              (gwyfile_check_valid_identifier n)) k); auto.
  apply (finds_when_flag _ _ _ (gwyfile_is_valid_identifier n)). reflexivity.
Qed.

(** The loop over the items of an object and the loop over the objects of
    an object array. *)
Lemma finds_items_loop (check : GwyfileItem -> errlist -> bool * errlist)
    viol items :
  Forall (fun i => finds (check i) (viol i)) items ->
  rest_finds
    (fun oldn =>
       (fix each (items : list GwyfileItem) (el : errlist) : bool * errlist :=
          match items with
          | [] => check_result oldn el
          | item :: items' =>
              guarded (check item el) (fun el => each items' el)
          end) items)
    (concat (map viol items)).
Proof.
  induction 1 as [|i items Hi _ IH]; simpl.
  - apply rest_finds_result.
  - apply (rest_finds_guarded (check i) _ (viol i)); auto.
Qed.

Lemma finds_objects_loop (check : GwyfileObject -> errlist -> bool * errlist)
    viol oa n :
  Forall (fun o => finds (check o) (viol o)) oa ->
  rest_finds
    (fun oldn =>
       (fix each (oa : list GwyfileObject) (n : nat) (el : errlist)
          : bool * errlist :=
          match oa, n with
          | o :: oa', S n' =>
              guarded (check o el) (fun el => each oa' n' el)
          | _, _ => check_result oldn el
          end) oa n)
    (concat (firstn n (map viol oa))).
Proof.
  intros H. revert n. induction H as [|o oa Ho _ IH]; intros n.
  - destruct n; apply rest_finds_result.
  - destruct n as [|n]; simpl.
    + apply rest_finds_result.
    + apply (rest_finds_guarded (check o) _ (viol o)); auto.
Qed.


Lemma finds_item_checks flags n a v tail V :
  rest_finds tail V ->
  rest_finds (item_checks flags n a v tail)
    (violation (validity flags && negb (gwyfile_is_valid_utf8 n))
       (ValidityError GWYFILE_INVALID_UTF8_NAME)
     ++ violation (warning flags && (strlen n =? 0))
          (WarningError GWYFILE_WARNING_EMPTY_NAME)
     ++ value_violations flags a v ++ V).
Proof.
  intros Ht.
  apply (finds_name_checks flags n
           (fun oldn el =>
              (if has_flag flags GWYFILE_CHECK_FLAG_VALIDITY then
                 match v with
                 | v_s s =>
                     guarded (gwyfile_check_valid_utf8 s
                                GWYFILE_INVALID_UTF8_STRING el)
                 | v_sa sa =>
                     check_each
                       (fun s => gwyfile_check_valid_utf8 s
                                   GWYFILE_INVALID_UTF8_STRING)
                       (firstn a sa) el
                 | v_d d => guarded (gwyfile_check_double d el)
                 | v_da da => check_each gwyfile_check_double (firstn a da) el
                 | _ => fun k => k el
                 end
               else fun k => k el) (tail oldn))).
  apply finds_value_checks. exact Ht.
Qed.

Lemma check_internal_finds flags :
  (forall i, finds (gwyfile_check_item_internal i flags)
               (item_violations flags i))
  /\ (forall o, finds (gwyfile_check_object_internal o flags)
                  (object_violations flags o)).
Proof.
  apply tree_ind.
  - intros n l a d v Hleaf.
    apply (finds_ext _
             (fun el => item_checks flags n (Z.to_nat a) v check_result
                          (errlist_n el) el)).
    { intros el. destruct v; try discriminate; reflexivity. }
    apply finds_of_rest.
    replace (item_violations flags (Item n l a d v))
      with (violation (validity flags && negb (gwyfile_is_valid_utf8 n))
              (ValidityError GWYFILE_INVALID_UTF8_NAME)
            ++ violation (warning flags && (strlen n =? 0))
                 (WarningError GWYFILE_WARNING_EMPTY_NAME)
            ++ value_violations flags (Z.to_nat a) v ++ []).
    + apply finds_item_checks, rest_finds_result.
    + destruct v; try discriminate; reflexivity.
  - intros n l a d o IH.
    apply (finds_ext _
             (fun el => item_checks flags n (Z.to_nat a) (v_o o)
                          (fun oldn el =>
                             guarded (gwyfile_check_object_internal o flags el)
                               (check_result oldn))
                          (errlist_n el) el)).
    { intros el. reflexivity. }
    apply finds_of_rest.
    change (item_violations flags (Item n l a d (v_o o)))
      with (violation (validity flags && negb (gwyfile_is_valid_utf8 n))
              (ValidityError GWYFILE_INVALID_UTF8_NAME)
            ++ violation (warning flags && (strlen n =? 0))
                 (WarningError GWYFILE_WARNING_EMPTY_NAME)
            ++ value_violations flags (Z.to_nat a) (v_o o)
            ++ object_violations flags o).
    apply finds_item_checks.
    rewrite <- (app_nil_r (object_violations flags o)).
    apply (rest_finds_guarded (gwyfile_check_object_internal o flags)
             check_result); auto using rest_finds_result.
  - intros n l a d oa IH.
    apply (finds_ext _
             (fun el => item_checks flags n (Z.to_nat a) (v_oa oa)
                          (fun oldn =>
                             (fix each (oa : list GwyfileObject) (n : nat)
                                (el : errlist) : bool * errlist :=
                                match oa, n with
                                | o :: oa', S n' =>
                                    guarded
                                      (gwyfile_check_object_internal o flags el)
                                      (fun el => each oa' n' el)
                                | _, _ => check_result oldn el
                                end) oa (Z.to_nat a))
                          (errlist_n el) el)).
    { intros el. reflexivity. }
    apply finds_of_rest.
    change (item_violations flags (Item n l a d (v_oa oa)))
      with (violation (validity flags && negb (gwyfile_is_valid_utf8 n))
              (ValidityError GWYFILE_INVALID_UTF8_NAME)
            ++ violation (warning flags && (strlen n =? 0))
                 (WarningError GWYFILE_WARNING_EMPTY_NAME)
            ++ value_violations flags (Z.to_nat a) (v_oa oa)
            ++ concat (firstn (Z.to_nat a)
                         (map (object_violations flags) oa))).
    apply finds_item_checks.
    apply (finds_objects_loop
             (fun o => gwyfile_check_object_internal o flags)
             (object_violations flags)). exact IH.
  - intros n l items d IH.
    apply (finds_ext _
             (fun el =>
                object_checks flags n
                  (fun oldn =>
                     (fix each (items : list GwyfileItem)
                        (el : errlist) : bool * errlist :=
                        match items with
                        | [] => check_result oldn el
                        | item :: items' =>
                            guarded
                              (gwyfile_check_item_internal item flags el)
                              (fun el => each items' el)
                        end) items)
                  (errlist_n el) el)).
    { intros el. reflexivity. }
    apply finds_of_rest.
    cbn [object_violations].
    apply (finds_type_checks flags n).
    apply (finds_items_loop
             (fun i => gwyfile_check_item_internal i flags)
             (item_violations flags)). exact IH.
Qed.

Lemma no_flags_no_violations :
  (forall i, item_violations 0 i = []) /\ (forall o, object_violations 0 o = []).
Proof.
  apply tree_ind.
  - intros n l a d v Hv. cbn [item_violations].
    rewrite value_violations_leaf by reflexivity.
    destruct v; try discriminate; reflexivity.
  - intros n l a d o IH. cbn [item_violations].
    rewrite value_violations_leaf by reflexivity. rewrite IH. reflexivity.
  - intros n l a d oa IH. cbn [item_violations].
    rewrite value_violations_leaf by reflexivity.
    change (concat (firstn (Z.to_nat a) (map (object_violations 0) oa)) = []).
    generalize (Z.to_nat a). induction IH as [|o oa Ho _ IHl]; intros k.
    + now destruct k.
    + destruct k; simpl; auto. now rewrite Ho, IHl.
  - intros n l items d IH. cbn [object_violations].
    change (concat (map (item_violations 0) items) = []).
    induction IH as [|i items Hi _ IHl]; simpl; auto.
    now rewrite Hi.
Qed.

Lemma gwyfile_check_object_finds o flags :
  finds (gwyfile_check_object o flags) (violations flags o).
Proof.
  unfold gwyfile_check_object, violations.
  set (f := Z.land flags _).
  destruct (Z.eqb_spec f 0) as [E|E].
  - rewrite E, (proj2 no_flags_no_violations). apply finds_nothing.
  - apply (proj2 (check_internal_finds f)).
Qed.

(** ** The tests of the checker against the format description *)

Lemma is_alpha_spec c : is_alpha c = spec_member c spec_letters.
Proof. destruct c; reflexivity. Qed.

Lemma is_ident_char_spec c :
  is_ident_char c = spec_member c (spec_letters ++ spec_digits ++ [x5f]).
Proof. destruct c; reflexivity. Qed.

Lemma gwyfile_is_valid_identifier_spec s :
  gwyfile_is_valid_identifier s = spec_identifier s.
Proof.
  destruct s as [|c rest]; [reflexivity|].
  cbn [gwyfile_is_valid_identifier spec_identifier].
  rewrite is_alpha_spec. f_equal.
  induction rest as [|c' rest IH]; [reflexivity|].
  cbn [forallb]. now rewrite is_ident_char_spec, IH.
Qed.

Lemma utf8_lead c s :
  is_valid_utf8_loop (c :: s) 0
  = match spec_continuations (byte_to_Z c) with
    | Some k => is_valid_utf8_loop s (Z.of_nat k)
    | None => false
    end.
Proof. destruct c; reflexivity. Qed.

Lemma utf8_continuation_test c :
  (Z.land (byte_to_Z c) 192 =? 128) = spec_continuation_byte c.
Proof. destruct c; reflexivity. Qed.

Lemma utf8_continuation k c s :
  is_valid_utf8_loop (c :: s) (Z.of_nat (S k))
  = spec_continuation_byte c && is_valid_utf8_loop s (Z.of_nat k).
Proof.
  cbn [is_valid_utf8_loop].
  destruct (Z.eqb_spec (Z.of_nat (S k)) 0) as [E|_]; [lia|].
  rewrite utf8_continuation_test.
  replace (Z.of_nat (S k) - 1) with (Z.of_nat k) by lia.
  now destruct (spec_continuation_byte c).
Qed.

Lemma utf8_continuations k s :
  is_valid_utf8_loop s (Z.of_nat k)
  = (k <=? length s)%nat && forallb spec_continuation_byte (firstn k s)
    && is_valid_utf8_loop (skipn k s) 0.
Proof.
  revert s. induction k as [|k IH]; intros s; [reflexivity|].
  destruct s as [|c s].
  - cbn [is_valid_utf8_loop]. destruct (Z.eqb_spec (Z.of_nat (S k)) 0); [lia|].
    reflexivity.
  - rewrite utf8_continuation, IH.
    cbn [length firstn skipn forallb Nat.leb].
    now rewrite !andb_assoc, (andb_comm (spec_continuation_byte c)).
Qed.

Lemma utf8_sequences_spec n s :
  (length s <= n)%nat -> is_valid_utf8_loop s 0 = spec_utf8_sequences n s.
Proof.
  revert s. induction n as [|n IH]; intros [|c s] Hn;
    try reflexivity; cbn [length] in Hn; [lia|].
  rewrite utf8_lead. cbn [spec_utf8_sequences].
  destruct (spec_continuations (byte_to_Z c)) as [k|]; [|reflexivity].
  rewrite utf8_continuations. f_equal. apply IH.
  rewrite length_skipn. lia.
Qed.

Lemma gwyfile_is_valid_utf8_spec s : gwyfile_is_valid_utf8 s = spec_utf8 s.
Proof. now apply utf8_sequences_spec. Qed.

Lemma gwyfile_double_isnormal_spec x :
  gwyfile_double_isnormal x = negb (spec_nan_or_infinite x).
Proof.
  unfold gwyfile_double_isnormal, spec_nan_or_infinite, spec_biased_exponent.
  rewrite Z.shiftr_div_pow2 by lia.
  change 2047 with (Z.ones 11) at 1. now rewrite Z.land_ones by lia.
Qed.

Lemma has_flag_bit flags k :
  0 <= k -> has_flag flags (Z.shiftl 1 k) = Z.testbit flags k.
Proof.
  intros Hk. unfold has_flag.
  assert (E : Z.land flags (Z.shiftl 1 k)
              = Z.shiftl (Z.b2z (Z.testbit flags k)) k).
  { apply Z.bits_inj'. intros i Hi.
    rewrite Z.land_spec, !Z.shiftl_spec by lia.
    destruct (Z.eq_dec i k) as [->|Ne].
    - rewrite Z.sub_diag. change (Z.testbit 1 0) with true.
      rewrite andb_true_r. now destruct (Z.testbit flags k).
    - destruct (Z.ltb_spec i k).
      + rewrite (Z.testbit_neg_r 1 (i - k)), (Z.testbit_neg_r _ (i - k))
          by lia.
        apply andb_false_r.
      + rewrite (Z.bits_above_log2 1 (i - k)) by (cbn; lia).
        rewrite andb_false_r. symmetry.
        destruct (Z.testbit flags k); [|apply Z.bits_0].
        apply Z.bits_above_log2; cbn; lia. }
  rewrite E. destruct (Z.testbit flags k); cbn [Z.b2z negb].
  - rewrite Z.shiftl_1_l. apply negb_true_iff, Z.eqb_neq.
    pose proof (Z.pow_pos_nonneg 2 k ltac:(lia) Hk). lia.
  - now rewrite Z.shiftl_0_l.
Qed.

Lemma masked_flag flags k :
  (k = 2 \/ k = 3) ->
  Z.testbit
    (Z.land flags (Z.lor GWYFILE_CHECK_FLAG_VALIDITY GWYFILE_CHECK_FLAG_WARNING))
    k
  = Z.testbit flags k.
Proof.
  intros Hk. rewrite Z.land_spec.
  destruct Hk as [-> | ->]; apply andb_true_r.
Qed.

Lemma value_violations_spec flags n v :
  value_violations flags n v
  = spec_value_violations (validity flags) n v.
Proof.
  unfold value_violations, spec_value_violations.
  destruct v; try reflexivity.
  - now rewrite gwyfile_double_isnormal_spec, negb_involutive.
  - now rewrite gwyfile_is_valid_utf8_spec.
  - f_equal. apply map_ext. intros d.
    now rewrite gwyfile_double_isnormal_spec, negb_involutive.
  - f_equal. apply map_ext. intros s.
    now rewrite gwyfile_is_valid_utf8_spec.
Qed.

Lemma tree_violations_spec flags :
  (forall i, item_violations flags i
             = spec_item_violations (validity flags) (warning flags) i)
  /\ (forall o, object_violations flags o
                = spec_object_violations (validity flags) (warning flags) o).
Proof.
  assert (Hempty : forall n, (strlen n =? 0) = spec_empty n).
  { intros [|c n]; reflexivity. }
  apply tree_ind.
  - intros n l a d v Hv.
    cbn [item_violations spec_item_violations].
    rewrite gwyfile_is_valid_utf8_spec, Hempty, value_violations_spec.
    destruct v; try discriminate; reflexivity.
  - intros n l a d o IH.
    cbn [item_violations spec_item_violations].
    now rewrite gwyfile_is_valid_utf8_spec, Hempty, value_violations_spec, IH.
  - intros n l a d oa IH.
    cbn [item_violations spec_item_violations].
    rewrite gwyfile_is_valid_utf8_spec, Hempty, value_violations_spec.
    do 3 f_equal.
    change (concat (firstn (Z.to_nat a) (map (object_violations flags) oa))
            = concat (firstn (Z.to_nat a)
                        (map (spec_object_violations (validity flags)
                                (warning flags)) oa))).
    generalize (Z.to_nat a). induction IH as [|o oa Ho _ IHl]; intros k.
    + now destruct k.
    + destruct k; [reflexivity|]. cbn [map firstn concat].
      now rewrite Ho, IHl.
  - intros n l items d IH.
    cbn [object_violations spec_object_violations].
    rewrite gwyfile_is_valid_utf8_spec, gwyfile_is_valid_identifier_spec.
    do 2 f_equal.
    change (concat (map (item_violations flags) items)
            = concat (map (spec_item_violations (validity flags)
                             (warning flags)) items)).
    induction IH as [|i items Hi _ IHl]; [reflexivity|].
    cbn [map concat]. now rewrite Hi, IHl.
Qed.

Lemma violations_spec flags o : violations flags o = spec_violations flags o.
Proof.
  unfold violations, spec_violations.
  rewrite (proj2 (tree_violations_spec _) o).
  unfold validity, warning, GWYFILE_CHECK_FLAG_VALIDITY,
    GWYFILE_CHECK_FLAG_WARNING.
  rewrite !has_flag_bit by lia.
  fold GWYFILE_CHECK_FLAG_VALIDITY GWYFILE_CHECK_FLAG_WARNING.
  now rewrite !masked_flag by auto.
Qed.

(** C8.  [gwyfile_check_object] answers [true] exactly when the tree has no
    violation in the categories selected by the flags, a violation being
    what the format description says: with the VALIDITY flag an object
    name, item name, string or string array element that is not made of
    well-formed 1- to 6-byte UTF-8 sequences, and a double or double array
    element whose biased exponent is 0x7FF (NaN or infinite); with the
    WARNING flag an object name that is not of the form
    [[A-Za-z][A-Za-z0-9_]*] and an empty item name.  The answer is the same
    with a null error list and with an error list, to which all the
    violations are appended in the order of the walk.  For the tree whose
    single item is named by the bytes C3 28, the check with the VALIDITY flag
    answers [false] and appends exactly one error, INVALID_UTF8_NAME, and the
    check without that flag (no flag, or WARNING alone) answers [true]. *)
Theorem gwyfile_check_object_result (o : GwyfileObject) (flags : Z)
    (l : list GwyfileError) :
  gwyfile_check_object o flags None = (nilb (spec_violations flags o), None)
  /\ gwyfile_check_object o flags (Some l)
     = (nilb (spec_violations flags o), Some (l ++ spec_violations flags o))
  /\ fst (gwyfile_check_object o flags None)
     = fst (gwyfile_check_object o flags (Some l))
  /\ (fst (gwyfile_check_object o flags None) = true
      <-> spec_violations flags o = [])
  /\ gwyfile_check_object bad_name_tree GWYFILE_CHECK_FLAG_VALIDITY (Some [])
     = (false, Some [ValidityError GWYFILE_INVALID_UTF8_NAME])
  /\ gwyfile_check_object bad_name_tree GWYFILE_CHECK_FLAG_VALIDITY None
     = (false, None)
  /\ gwyfile_check_object bad_name_tree GWYFILE_CHECK_FLAG_WARNING (Some l)
     = (true, Some l)
  /\ gwyfile_check_object bad_name_tree 0 (Some l) = (true, Some l).
Proof.
  destruct (gwyfile_check_object_finds o flags) as [Hs Hn].
  rewrite Hn, Hs, violations_spec. simpl.
  repeat split; try reflexivity.
  - destruct (spec_violations flags o); [reflexivity | discriminate].
  - intros ->. reflexivity.
  - destruct (gwyfile_check_object_finds bad_name_tree
                GWYFILE_CHECK_FLAG_WARNING) as [Hw _].
    rewrite Hw. vm_compute violations. now rewrite app_nil_r.
Qed.

(** ** The size check of the writer *)

Lemma big_object_eq :
  big_object
  = Object [] 0 [Item [x61] 1 4294967288 4294967292 (v_ca big_array)] 4294967295.
Proof. cbv -[big_array]. reflexivity. Qed.

Lemma length_big_array : Z.of_nat (length big_array) = 4294967288.
Proof. unfold big_array. rewrite repeat_length. apply Z2Nat.id. lia. Qed.

(** C7, as stated, fails: an object with a consistent payload of exactly
    0xFFFFFFFF bytes, which fits the 32-bit length prefix, is refused by the
    size check. *)
Lemma object_size_check_refuses_fitting_payload :
  object_data_size big_object = 4294967295
  /\ object_data_size big_object = sumZ (map item_size (object_items big_object))
  /\ Forall (fun i => item_array_length i = Z.of_nat (length big_array)
                      /\ item_data_size i = 4 + item_array_length i)
       (object_items big_object)
  /\ gwyfile_object_fwrite big_object
     = (Fail (DataError GWYFILE_ERROR_OBJECT_SIZE), []).
Proof.
  rewrite big_object_eq.
  split; [reflexivity|]. split; [reflexivity|]. split.
  - constructor; [|constructor]. 
    cbn [item_array_length item_data_size]. rewrite length_big_array. split; reflexivity.
  - reflexivity.
Qed.

Lemma wseq_snd_app a b : exists rest, snd (wseq a b) = snd a ++ rest.
Proof.
  destruct a as [[| | |] x], b as [r y]; simpl; eauto using app_nil_r.
  all: exists []; now rewrite app_nil_r.
Qed.

(** C7, amended.  [gwyfile_object_fwrite] fails with OBJECT_SIZE in the DATA
    domain at its own size check, having written nothing, exactly when
    [data_size] exceeds [0xFFFFFFFF - 4 - name_len] (in [size_t] arithmetic);
    otherwise the check passes and the object's name with its nul and the
    four bytes of [data_size] are written before the items. *)
Theorem gwyfile_object_fwrite_size_check (o : GwyfileObject) :
  (gwyfile_object_fwrite o = (Fail (DataError GWYFILE_ERROR_OBJECT_SIZE), [])
   <-> object_data_size o > object_size_limit o)
  /\ (object_data_size o > object_size_limit o
      \/ object_data_size o <= object_size_limit o
         /\ exists r rest,
             gwyfile_object_fwrite o
             = (r, firstn (Z.to_nat (u32 (object_name_len o + 1)))
                     (object_name o ++ [x00])
                   ++ le_encode 4 (object_data_size o) ++ rest)).
Proof.
  destruct o as [name name_len items data_size].
  unfold object_size_limit. cbn [object_data_size object_name_len object_name].
  cbn [gwyfile_object_fwrite].
  destruct (Z.gtb_spec data_size (size_t (4294967295 - 4 - name_len))) as [G|G].
  - split; [split; auto; lia | left; lia].
  - match goal with
    | |- context [wseq ?a (wseq ?b ?c)] =>
        destruct (wseq_snd_app b c) as [rest Hrest];
        destruct (wseq b c) as [r w] eqn:E
    end.
    simpl in Hrest. subst w.
    split.
    + split; [|lia]. unfold wseq, fwrite_name, fwrite. intros H.
      inversion H as [[H1 H2]].
      apply app_eq_nil in H2 as [_ H2]. discriminate H2.
    + right. split; [lia|]. exists r, rest. reflexivity.
Qed.

(** ** Adding an item under a name that is taken *)

Module HeapFacts.
Import Heap.

Lemma find_name_spec l name k h :
  Forall (allocated h) l ->
  exists r, find_name l name k h = Done r h
    /\ (r = None <->
        forall p x, In p l -> items h !! p = Some x -> i_name x <> name).
Proof.
  intros H. revert k. induction H as [|p l [x Hx] _ IH]; intros k.
  - exists None. split; [reflexivity|]. split; auto; try (intros _ ? ? []).
  - cbn [find_name]. unfold bind at 1, get_item. rewrite Hx.
    destruct (gwyfile_strequal_spec (i_name x) name) as [E|E].
    + exists (Some k). split; [reflexivity|]. split; [discriminate|].
      intros Hn. exfalso. apply (Hn p x); [now left | assumption | assumption].
    + destruct (IH (S k)) as [r [Hr Hiff]]. exists r. split; [exact Hr|].
      rewrite Hiff. split.
      * intros Hn q y [<-|Hq] Hy; [congruence | eauto].
      * intros Hn q y Hq Hy. apply (Hn q y); [now right | assumption].
Qed.

Lemma add_rejects_taken_name h object item x y :
  objects h !! object = Some x ->
  items h !! item = Some y ->
  i_owner y = None ->
  Forall (allocated h) (o_items x) ->
  (exists p z, In p (o_items x) /\ items h !! p = Some z
               /\ i_name z = i_name y) ->
  gwyfile_object_add (Some object) (Some item) h = Done false h.
Proof.
  intros Hx Hy Ho Hall (p & z & Hp & Hz & Hn).
  unfold gwyfile_object_add, bind, get_item, get_object, assert.
  rewrite Hy, Ho. simpl. rewrite Hx.
  destruct (find_name_spec (o_items x) (i_name y) 0 h Hall) as [r [Hr Hiff]].
  rewrite Hr. destruct r; [reflexivity|].
  exfalso. apply (proj1 Hiff eq_refl p z); assumption.
Qed.

(** C9.  [gwyfile_object_add] with a root item whose name is the name of an
    item already in the object returns [false] and leaves the store as it
    was: the object's item list, item count and [data_size] are unchanged,
    the item of that name stays, and the rejected item is still allocated
    and still has no owner. *)
Theorem add_taken_name_changes_nothing h object item x y :
  objects h !! object = Some x ->
  items h !! item = Some y ->
  i_owner y = None ->
  Forall (allocated h) (o_items x) ->
  (exists p z, In p (o_items x) /\ items h !! p = Some z
               /\ i_name z = i_name y) ->
  exists h',
    gwyfile_object_add (Some object) (Some item) h = Done false h'
    /\ h' = h
    /\ objects h' !! object = Some x
    /\ items h' !! item = Some y
    /\ i_owner y = None.
Proof.
  intros Hx Hy Ho Hall Hex. exists h.
  rewrite (add_rejects_taken_name h object item x y) by assumption.
  auto.
Qed.

Lemma add_taken_name_changes_nothing_witness :
  exists h',
    gwyfile_object_add (Some 1%positive) (Some 3%positive) store_with_rival
    = Done false h'
    /\ h' = store_with_rival.
Proof.
  destruct (add_taken_name_changes_nothing store_with_rival 1%positive
              3%positive
              (Object None [x4f] 1 [2%positive] 6)
              (Item GWYFILE_ITEM_STRING 0 [x61] 1 true None 3 (s [x79; x6f])))
    as (h' & H1 & H2 & _).
  - vm_compute. reflexivity.
  - vm_compute. reflexivity.
  - reflexivity.
  - constructor; [|constructor]. vm_compute. eauto.
  - exists 2%positive.
    exists (Item GWYFILE_ITEM_STRING 0 [x61] 1 true (Some 1%positive) 3
              (s [x68; x69])).
    split; [now left|]. split; vm_compute; reflexivity.
  - exists h'. split; assumption.
Defined.

(** ** The two size accessors accept a null pointer *)

(** C10.  [gwyfile_item_size] and [gwyfile_item_data_size] return 0 for a
    null pointer and for an item whose type tag is zero, where the other item
    accessors fail their [assert]; for an item with a non-zero type tag whose
    [name_len] is the length of its name, [gwyfile_item_size] is the name
    length plus one for the nul, one for the type byte, and [data_size]
    (the sums staying below 2^32, respectively 2^64). *)
Theorem item_size_accessors h p x :
  (gwyfile_item_size None h = Done 0 h
   /\ gwyfile_item_data_size None h = Done 0 h)
  /\ (gwyfile_item_type None h = Aborted
      /\ gwyfile_item_name None h = Aborted
      /\ gwyfile_item_array_length None h = Aborted
      /\ gwyfile_item_owns_data None h = Aborted)
  /\ (items h !! p = Some x -> i_type x = 0 ->
      gwyfile_item_size (Some p) h = Done 0 h
      /\ gwyfile_item_data_size (Some p) h = Done 0 h)
  /\ (items h !! p = Some x -> i_type x <> 0 ->
      i_name_len x = strlen (i_name x) ->
      strlen (i_name x) + 2 < 2 ^ 32 ->
      0 <= i_data_size x ->
      strlen (i_name x) + 2 + i_data_size x < 2 ^ 64 ->
      gwyfile_item_size (Some p) h
      = Done (strlen (i_name x) + 1 + 1 + i_data_size x) h
      /\ gwyfile_item_data_size (Some p) h = Done (i_data_size x) h).
Proof.
  split; [split; reflexivity|].
  split; [repeat split; reflexivity|].
  split.
  - intros Hx Ht. unfold gwyfile_item_size, gwyfile_item_data_size, bind, get_item.
    rewrite Hx, Ht. split; reflexivity.
  - intros Hx Ht Hl Hn Hd Hs.
    unfold gwyfile_item_size, gwyfile_item_data_size, bind, get_item.
    rewrite Hx. destruct (Z.eqb_spec (i_type x) 0); [contradiction|].
    split; [|reflexivity].
    unfold ret. f_equal. rewrite Hl. unfold size_t, u32, strlen in *.
    rewrite (Z.mod_small (1 + _ + 1)) by lia.
    rewrite Z.mod_small by lia. lia.
Qed.

Lemma item_size_accessors_witness :
  gwyfile_item_size (Some 3%positive) store_with_rival
  = Done 6 store_with_rival.
Proof.
  apply (proj2 (proj2 (proj2
           (item_size_accessors store_with_rival 3%positive
              (Item GWYFILE_ITEM_STRING 0 [x61] 1 true None 3
                 (s [x79; x6f])))))).
  - vm_compute. reflexivity.
  - discriminate.
  - reflexivity.
  - vm_compute. reflexivity.
  - vm_compute. discriminate.
  - vm_compute. reflexivity.
Defined.

(** ** Replacing wrapped objects loses the back references *)

(** C3 fails on the code.  [gwyfile_item_set_object_array] stores the new
    objects without setting their [owner] (which
    [gwyfile_item_new_internal_object_array] does), so a later
    [gwyfile_object_add] to one of them changes that object's [data_size]
    and nothing above it: the size invariant holds before and after the
    setter and is broken by the addition, the item's [data_size] (10) is no
    longer 4 plus the size of the object it wraps (14), and the outer
    object's [data_size] (13) still counts the old size.
    [gwyfile_item_set_object] calls [gwyfile_object_free] on the wrapped
    object while its [owner] is still set and fails the [assert] there. *)
Theorem size_accounting_lost_after_replacing_objects :
  (exists h,
      Scenarios.replace_then_grow empty
      = Done (2%positive, 3%positive, 4%positive, (true, true, false)) h
      /\ (exists y, objects h !! 2%positive = Some y
                    /\ o_owner y = None /\ object_size_of y = 10)
      /\ (exists x, items h !! 4%positive = Some x
                    /\ i_v x = oa [2%positive] /\ i_data_size x = 10)
      /\ (exists z, objects h !! 3%positive = Some z
                    /\ o_items z = [4%positive] /\ o_data_size z = 13))
  /\ Scenarios.replace_object empty = Aborted.
Proof.
  split; [|vm_compute; reflexivity].
  eexists. split; [vm_compute; reflexivity|].
  split; [|split]; eexists; (split; [vm_compute; reflexivity|]);
    split; reflexivity.
Qed.

End HeapFacts.

(** ** What the reader does to three small files *)

(** C1 fails on the code.  The reader is meant to return an object only
    when writing it gives the bytes of the file again, and to fail
    otherwise.  The file with a bool byte 02 is read all the same, and
    writing the object that was read gives the byte 01 in its place. *)
Lemma bool_byte_is_not_reproduced :
  exists o,
    (forall junk, gwyfile_fread junk file_bool_two SIZE_MAX = Ok (o, []))
    /\ fst (gwyfile_fwrite o) = Ok tt
    /\ snd (gwyfile_fwrite o) <> file_bool_two.
Proof.
  eexists. split; [intros junk; vm_compute; reflexivity|].
  split; [reflexivity|]. vm_compute. discriminate.
Qed.

(** C2 fails on the code.  The items ["b"], ["a"] of the file are handed out
    in the order ["a"], ["b"]: the [qsort] of the duplicate check stays in
    the object. *)
Theorem wire_order_is_lost :
  exists o,
    (forall junk, gwyfile_fread junk file_b_then_a SIZE_MAX = Ok (o, []))
    /\ gwyfile_object_item_names o = [[x61]; [x62]]
    /\ map item_name (gwyfile_object_foreach o) = [[x61]; [x62]]
    /\ snd (gwyfile_fwrite o) <> file_b_then_a.
Proof.
  eexists. split; [intros junk; vm_compute; reflexivity|].
  repeat split; try reflexivity. vm_compute. discriminate.
Qed.

(** C5 fails on the code.  The file with a two-byte char array is read when
    it is whole, and also when its last byte is missing: the array then
    holds the byte that was read and one byte of whatever the allocation
    held.  With both bytes missing the read fails with CONFINEMENT. *)
Theorem truncated_char_array_is_read (junk : nat -> byte) :
  gwyfile_fread junk file_char_array SIZE_MAX
  = Ok (Object [x54] 1 [Item [x61] 1 2 6 (v_ca [x31; x32])] 9, [])
  /\ gwyfile_fread junk (removelast file_char_array) SIZE_MAX
     = Ok (Object [x54] 1 [Item [x61] 1 2 6 (v_ca [x31; junk 1%nat])] 9, [])
  /\ gwyfile_fread junk (removelast (removelast file_char_array)) SIZE_MAX
     = Fail (DataError GWYFILE_ERROR_CONFINEMENT).
Proof. repeat split; vm_compute; reflexivity. Qed.

(** ** Sorting and the duplicate check *)

Lemma item_le_trans a b c : item_le a b -> item_le b c -> item_le a c.
Proof. unfold item_le, gwyfile_compare_items. apply strcmp_trans. Qed.

Lemma item_le_total a b : item_le a b \/ item_le b a.
Proof.
  unfold item_le, gwyfile_compare_items.
  pose proof (strcmp_antisym (item_name a) (item_name b)). lia.
Qed.

Lemma item_le_antisym a b : item_le a b -> item_le b a -> item_name a = item_name b.
Proof.
  unfold item_le, gwyfile_compare_items. intros H1 H2.
  pose proof (strcmp_antisym (item_name a) (item_name b)).
  apply strcmp_eq. lia.
Qed.

Lemma insert_item_perm x l : Permutation (insert_item x l) (x :: l).
Proof.
  induction l as [|y l IH]; simpl; auto.
  destruct (gwyfile_compare_items x y <=? 0); auto.
  rewrite IH. apply perm_swap.
Qed.

Lemma qsort_perm l : Permutation (qsort l) l.
Proof.
  induction l as [|x l IH]; simpl; auto.
  rewrite insert_item_perm. now constructor.
Qed.

Lemma insert_item_sorted x l :
  Sorted item_le l -> Sorted item_le (insert_item x l).
Proof.
  induction 1 as [|y l Hl IH Hy]; simpl.
  - repeat constructor.
  - destruct (Z.leb_spec (gwyfile_compare_items x y) 0) as [L|L].
    + repeat constructor; auto.
    + constructor; auto.
      assert (Hyx : item_le y x).
      { destruct (item_le_total x y) as [H|H]; auto. unfold item_le in H. lia. }
      destruct l as [|z l]; simpl in *.
      * repeat constructor; auto.
      * destruct (gwyfile_compare_items x z <=? 0); constructor; auto.
        now inversion Hy.
Qed.

Lemma qsort_sorted l : Sorted item_le (qsort l).
Proof.
  induction l; simpl; [constructor | now apply insert_item_sorted].
Qed.

Lemma qsort_sorted_id l : items_sorted l -> qsort l = l.
Proof.
  unfold items_sorted. fold item_le.
  induction 1 as [|x l Hl IH Hx]; simpl; auto.
  rewrite IH. destruct Hx as [|y l Hxy]; simpl; auto.
  unfold item_le in Hxy. destruct (Z.leb_spec (gwyfile_compare_items x y) 0); auto.
  lia.
Qed.

Lemma sorted_strongly l : Sorted item_le l -> StronglySorted item_le l.
Proof.
  apply Sorted_StronglySorted. intros a b c. apply item_le_trans.
Qed.

Lemma adjacent_duplicate_none l :
  Sorted item_le l ->
  adjacent_duplicate l = None <-> NoDup (map item_name l).
Proof.
  intros Hs. apply sorted_strongly in Hs.
  induction Hs as [|x l Hl IH Hx].
  - split; [constructor | reflexivity].
  - destruct l as [|y l]; [split; [repeat constructor; intros []%elem_of_nil | reflexivity]|].
    cbn [adjacent_duplicate map].
    destruct (gwyfile_strequal_spec (item_name x) (item_name y)) as [E|E].
    + split; [discriminate|]. intros H. apply NoDup_cons in H as [H _].
      exfalso. apply H. rewrite E. left.
    + rewrite IH. split.
      * intros Hn. constructor; auto.
        intros Hin. apply elem_of_cons in Hin as [Hin|Hin]; [contradiction|].
        apply list_elem_of_fmap in Hin as (z & Hz1 & Hz2).
        apply E. apply item_le_antisym.
        { inversion Hx; assumption. }
        inversion Hl as [|? ? ? Hy]; subst.
        unfold item_le, gwyfile_compare_items. rewrite Hz1.
        rewrite Forall_forall in Hy. apply Hy. assumption.
      * intros H. now apply NoDup_cons in H as [_ H].
Qed.

Lemma find_duplicate_none o :
  fst (gwyfile_object_find_duplicate_item o) = None
  <-> NoDup (map item_name (object_items o)).
Proof.
  unfold gwyfile_object_find_duplicate_item.
  destruct (Z.ltb_spec (Z.of_nat (length (object_items o))) 2) as [L|L]; cbn [fst].
  - split; auto. intros _.
    destruct (object_items o) as [|x [|y l]]; simpl in *; try lia.
    + constructor.
    + repeat constructor. intros []%elem_of_nil.
  - rewrite (adjacent_duplicate_none _ (qsort_sorted _)).
    now rewrite (qsort_perm (object_items o)).
Qed.

Lemma find_duplicate_sorted_id o :
  items_sorted (object_items o) ->
  snd (gwyfile_object_find_duplicate_item o) = o.
Proof.
  intros H. unfold gwyfile_object_find_duplicate_item.
  destruct (_ <? 2); cbn [snd]; auto.
  rewrite qsort_sorted_id by assumption. now destruct o.
Qed.

(** The sorted order of items with distinct names is unique: it does not
    depend on the sorting algorithm. *)
Lemma sorted_order_unique l1 l2 :
  Sorted item_le l1 -> Sorted item_le l2 -> Permutation l1 l2 ->
  NoDup (map item_name l1) -> l1 = l2.
Proof.
  intros H1 H2. apply sorted_strongly in H1. apply sorted_strongly in H2.
  revert l2 H2. induction H1 as [|x l1 Hl1 IH Hx]; intros l2 H2 HP Hn.
  - now apply Permutation_nil in HP.
  - destruct H2 as [|y l2 Hl2 Hy].
    + symmetry in HP. now apply Permutation_nil in HP.
    + assert (Exy : x = y).
      { assert (Hin1 : In y (x :: l1)).
        { apply (Permutation_in _ (Permutation_sym HP)). now left. }
        assert (Hin2 : In x (y :: l2)).
        { apply (Permutation_in _ HP). now left. }
        destruct Hin1 as [|Hin1]; auto. destruct Hin2 as [|Hin2]; auto.
        rewrite List.Forall_forall in Hx, Hy.
        assert (En : item_name x = item_name y)
          by (apply item_le_antisym; auto).
        exfalso. cbn [map] in Hn. apply NoDup_cons in Hn as [Hn _].
        apply Hn. rewrite En. apply list_elem_of_fmap. exists y.
        split; auto. now apply list_elem_of_In. }
      subst y. f_equal. apply IH; auto.
      * now apply Permutation_cons_inv in HP.
      * cbn [map] in Hn. now apply NoDup_cons in Hn as [_ Hn].
Qed.

(** ** Reading primitives on the bytes they expect *)

Lemma fread_exact size n bs rest :
  0 < size -> length bs = Z.to_nat (size * n) -> 0 <= n ->
  fread size n (bs ++ rest) = (n, bs, rest).
Proof.
  intros Hs Hl Hn. unfold fread. rewrite <- Hl.
  rewrite take_app_length, drop_app_length.
  repeat f_equal. rewrite Hl, Z2Nat.id by nia.
  rewrite Z.mul_comm. apply Z.div_mul. lia.
Qed.

Lemma gwyfile_fread_le_exact size n bs rest :
  0 < size -> length bs = Z.to_nat (size * n) -> 0 <= n ->
  gwyfile_fread_le size n (bs ++ rest) = (true, bs, rest).
Proof.
  intros. unfold gwyfile_fread_le. rewrite fread_exact by assumption.
  now rewrite Z.eqb_refl.
Qed.

Lemma gwyfile_fread_le_encoded (k : nat) v rest :
  (0 < k)%nat ->
  gwyfile_fread_le (Z.of_nat k) 1 (le_encode k v ++ rest)
  = (true, le_encode k v, rest).
Proof.
  intros. apply gwyfile_fread_le_exact; try lia.
  rewrite length_le_encode. lia.
Qed.

Lemma gwyfile_check_size_ok max_size size :
  0 <= size <= max_size -> max_size < 2 ^ 64 ->
  gwyfile_check_size max_size size = Ok (max_size - size).
Proof.
  intros. unfold gwyfile_check_size.
  destruct (Z.ltb_spec max_size size); [lia|].
  unfold size_t. now rewrite Z.mod_small by lia.
Qed.

Lemma u32_small x : 0 <= x < 2 ^ 32 -> u32 x = x.
Proof. apply Z.mod_small. Qed.

Lemma size_t_small x : 0 <= x < 2 ^ 64 -> size_t x = x.
Proof. apply Z.mod_small. Qed.

Lemma grown_size size max_size :
  0 <= size < 2147483648 -> size < max_size ->
  size + 1 <= u32 (gwyfile_min (gwyfile_max (u32 (2 * size)) 16) max_size)
  < 2 ^ 32.
Proof.
  intros Hs Hm. rewrite (u32_small (2 * size)) by lia.
  unfold gwyfile_min, gwyfile_max.
  destruct (Z.ltb_spec (2 * size) 16);
    match goal with |- context [?a >? ?b] => destruct (Z.gtb_spec a b) end;
    rewrite u32_small; lia.
Qed.

Ltac same_up_to_lia :=
  repeat (f_equal; try reflexivity; try lia).

Lemma fread_string_loop_ok s rest max_size len size :
  Forall (fun b => b <> x00) s ->
  0 <= len <= size -> size < 2 ^ 32 ->
  len + strlen s + 1 <= max_size -> len + strlen s + 1 <= 2147483648 ->
  fread_string_loop (s ++ x00 :: rest) max_size len size
  = Ok (s, len + strlen s + 1, rest).
Proof.
  unfold strlen. intros Hs. revert len size.
  induction Hs as [|c s Hc Hs IH]; intros len size Hl Hz Hm Hb;
    cbn [app fread_string_loop length] in *.
  - rewrite (u32_small (len + 1)) by lia.
    destruct (Z.eqb_spec len size) as [->|N].
    + destruct (Z.eqb_spec size max_size); [lia|].
      destruct (Z.geb_spec size 2147483648); [lia|].
      cbn [bind]. simpl. same_up_to_lia.
    + cbn [bind]. simpl. same_up_to_lia.
  - rewrite (u32_small (len + 1)) by lia.
    destruct (byte_eqb_spec c x00) as [->|_]; [contradiction|].
    destruct (Z.eqb_spec len size) as [->|N].
    + destruct (Z.eqb_spec size max_size); [lia|].
      destruct (Z.geb_spec size 2147483648); [lia|].
      cbn [bind].
      pose proof (grown_size size max_size ltac:(lia) ltac:(lia)) as Hs'.
      rewrite IH by lia. cbn [bind]. same_up_to_lia.
    + cbn [bind]. rewrite IH by lia. cbn [bind]. same_up_to_lia.
Qed.

Lemma gwyfile_fread_string_ok s rest max_size :
  cstring_ok s -> strlen s + 1 <= max_size -> max_size < 2 ^ 64 ->
  gwyfile_fread_string (s ++ x00 :: rest) max_size
  = Ok (s, max_size - (strlen s + 1), rest).
Proof.
  intros [Hs Hb] Hm Hx. unfold gwyfile_fread_string.
  assert (0 <= strlen s) by (unfold strlen; lia).
  destruct (Z.eqb_spec max_size 0); [lia|].
  rewrite fread_string_loop_ok by (auto; lia). cbn [bind].
  unfold size_t. rewrite Z.mod_small by lia. reflexivity.
Qed.

Lemma sumZ_cons x l : sumZ (x :: l) = x + sumZ l.
Proof. reflexivity. Qed.

Lemma fread_string_array_ok sa rest max_size :
  Forall cstring_ok sa ->
  sumZ (map (fun s => strlen s + 1) sa) <= max_size -> max_size < 2 ^ 64 ->
  fread_string_array (length sa)
    (concat (map (fun s => s ++ [x00]) sa) ++ rest) max_size
  = Ok (sa, max_size - sumZ (map (fun s => strlen s + 1) sa), rest).
Proof.
  intros H. revert max_size.
  induction H as [|s sa Hs _ IH]; intros max_size Hm Hx;
    cbn [length fread_string_array map concat] in *;
    rewrite ?sumZ_cons in *.
  - unfold sumZ. simpl. now rewrite Z.sub_0_r.
  - assert (0 <= strlen s) by (unfold strlen; lia).
    assert (0 <= sumZ (map (fun s => strlen s + 1) sa)).
    { clear. induction sa; simpl; unfold strlen in *; lia. }
    rewrite <- !app_assoc. cbn [app].
    rewrite gwyfile_fread_string_ok by (auto; lia). cbn [bind].
    rewrite IH by lia. cbn [bind]. same_up_to_lia.
Qed.

Lemma chunks_concat_encoded (k : nat) (l : list Z) :
  chunks (length l) k (concat (map (le_encode k) l)) = map (le_encode k) l.
Proof.
  induction l as [|x l IH]; [reflexivity|].
  cbn [length chunks map concat].
  rewrite take_app_length', drop_app_length' by (symmetry; apply length_le_encode || apply length_le_encode).
  now rewrite IH.
Qed.

Lemma length_concat_encoded (k : nat) (l : list Z) :
  length (concat (map (le_encode k) l)) = (k * length l)%nat.
Proof.
  induction l as [|x l IH]; simpl; [lia|].
  rewrite length_app, length_le_encode, IH. lia.
Qed.

Lemma signed_decode_encode (k : nat) bits x :
  bits = 8 * Z.of_nat k -> (0 < k)%nat -> in_range bits x ->
  signed bits (le_decode (le_encode k x)) = x.
Proof.
  intros -> Hk Hx. rewrite le_decode_encode.
  replace (256 ^ Z.of_nat k) with (2 ^ (8 * Z.of_nat k)).
  - apply signed_mod; [lia | exact Hx].
  - replace 256 with (2 ^ 8) by reflexivity. now rewrite <- Z.pow_mul_r by lia.
Qed.

Lemma decode_array_encoded (k : nat) bits l :
  bits = 8 * Z.of_nat k -> (0 < k)%nat -> Forall (in_range bits) l ->
  decode_array bits k (Z.of_nat (length l)) (concat (map (le_encode k) l)) = l.
Proof.
  intros Hb Hk H. unfold decode_array.
  rewrite Nat2Z.id, chunks_concat_encoded, map_map.
  induction H as [|x l Hx _ IH]; cbn [map]; [reflexivity|].
  now rewrite signed_decode_encode, IH.
Qed.

Lemma decode_double_array_encoded l :
  Forall (fun d => 0 <= d < 2 ^ 64) l ->
  decode_double_array (Z.of_nat (length l)) (concat (map (le_encode 8) l)) = l.
Proof.
  intros H. unfold decode_double_array.
  rewrite Nat2Z.id, chunks_concat_encoded, map_map.
  induction H as [|x l Hx _ IH]; cbn [map]; [reflexivity|].
  rewrite IH. f_equal.
  rewrite le_decode_encode. apply Z.mod_small. exact Hx.
Qed.

(** ** Reading the bytes of a well-formed tree *)

Lemma type_byte_read v : char_to_int (byte_of_Z (value_type v)) = value_type v.
Proof. destruct v; reflexivity. Qed.

Lemma type_valid v : gwyfile_item_type_is_valid (value_type v) = true.
Proof. destruct v; reflexivity. Qed.

Lemma type_is_array v :
  gwyfile_item_type_is_array (value_type v) = is_array_value v.
Proof. destruct v; reflexivity. Qed.

Lemma strlen_nonneg s : 0 <= strlen s.
Proof. unfold strlen. lia. Qed.

Lemma fread_one_byte b rest : fread 1 1 (b :: rest) = (1, [b], rest).
Proof. reflexivity. Qed.

Lemma all_items_Forall (P : GwyfileItem -> Prop) items :
  (fix all (items : list GwyfileItem) : Prop :=
     match items with
     | [] => True
     | i :: items' => P i /\ all items'
     end) items <-> Forall P items.
Proof.
  induction items as [|i items IH]; [split; auto|].
  rewrite Forall_cons, <- IH. reflexivity.
Qed.

Lemma all_objects_Forall (P : GwyfileObject -> Prop) oa :
  (fix all (oa : list GwyfileObject) : Prop :=
     match oa with
     | [] => True
     | o :: oa' => P o /\ all oa'
     end) oa <-> Forall P oa.
Proof.
  induction oa as [|o oa IH]; [split; auto|].
  rewrite Forall_cons, <- IH. reflexivity.
Qed.

Lemma wf_object_inv n nl items dsz :
  wf_object (Object n nl items dsz) <->
  cstring_ok n /\ nl = strlen n /\ dsz = sumZ (map item_size items)
  /\ dsz <= 4294967295 - 4 - nl /\ Forall wf_item items.
Proof. cbn [wf_object]. now rewrite all_items_Forall. Qed.

Lemma item_size_nonneg i : 0 <= item_size i < 2 ^ 64.
Proof. unfold item_size, size_t. apply Z.mod_pos_bound. lia. Qed.

Lemma object_size_nonneg o : 0 <= gwyfile_object_size o < 2 ^ 64.
Proof. unfold gwyfile_object_size, size_t. apply Z.mod_pos_bound. lia. Qed.

Lemma sumZ_nonneg {A} (f : A -> Z) l :
  (forall x, 0 <= f x) -> 0 <= sumZ (map f l).
Proof.
  intros H. induction l as [|x l IH]; [unfold sumZ; simpl; lia|].
  cbn [map]. rewrite sumZ_cons. specialize (H x). lia.
Qed.

Lemma wf_object_size n nl items dsz :
  wf_object (Object n nl items dsz) ->
  gwyfile_object_size (Object n nl items dsz) = strlen n + 5 + dsz
  /\ 0 <= dsz /\ strlen n + 5 + dsz <= 2 ^ 32.
Proof.
  intros (Hn & -> & Hd & Hb & _)%wf_object_inv.
  pose proof (strlen_nonneg n).
  assert (0 <= dsz).
  { rewrite Hd. apply sumZ_nonneg. intros x. apply item_size_nonneg. }
  unfold gwyfile_object_size. cbn [object_name_len object_data_size].
  rewrite u32_small by lia. rewrite size_t_small by lia. lia.
Qed.

Lemma wf_item_size n nl a dsz v :
  wf_item (Item n nl a dsz v) ->
  item_size (Item n nl a dsz v) = strlen n + 2 + dsz /\ 1 <= dsz
  /\ cstring_ok n /\ nl = strlen n /\ strlen n + 2 + dsz < 2 ^ 32.
Proof.
  cbn [wf_item]. intros (Hn & -> & Hb & Hv).
  pose proof (strlen_nonneg n).
  assert (1 <= dsz).
  { destruct v; try lia.
    - destruct Hv as (_ & -> & _). pose proof (strlen_nonneg s). lia.
    - destruct Hv as (_ & -> & Ho). destruct o as [on onl oi od].
      apply wf_object_size in Ho as (-> & ? & ?).
      pose proof (strlen_nonneg on). lia.
    - destruct Hv as (_ & _ & -> & _).
      pose proof (sumZ_nonneg (fun s => strlen s + 1) sa) as Hs.
      assert (forall x : list byte, 0 <= strlen x + 1)
        by (intros x; pose proof (strlen_nonneg x); lia).
      specialize (Hs ltac:(assumption)). lia.
    - destruct Hv as (_ & _ & -> & _).
      pose proof (sumZ_nonneg gwyfile_object_size oa
                    (fun o => proj1 (object_size_nonneg o))). lia. }
  unfold item_size. cbn [item_name_len item_data_size].
  rewrite u32_small by lia. rewrite size_t_small by lia.
  split; [lia|]. auto.
Qed.

(** Decide the comparisons of a known type tag with the constants. *)
Ltac decide_type_tests :=
  repeat match goal with
    | |- context [Z.eqb (Zpos ?p) ?c] =>
        let r := eval vm_compute in (Z.eqb (Zpos p) c) in
        change (Z.eqb (Zpos p) c) with r
    end;
  cbv beta iota.

Lemma fold_left_string_sizes sa acc :
  0 <= acc -> acc + sumZ (map (fun s => strlen s + 1) sa) < 2 ^ 64 ->
  fold_left (fun acc s => size_t (acc + (strlen s + 1))) sa acc
  = acc + sumZ (map (fun s => strlen s + 1) sa).
Proof.
  revert acc. induction sa as [|s sa IH]; intros acc Ha Hb; cbn [fold_left map] in *.
  - unfold sumZ. simpl. lia.
  - rewrite sumZ_cons in *. pose proof (strlen_nonneg s).
    assert (0 <= sumZ (map (fun s => strlen s + 1) sa)).
    { apply sumZ_nonneg. intros x. pose proof (strlen_nonneg x). lia. }
    rewrite size_t_small by lia. rewrite IH by lia. lia.
Qed.

Lemma fold_left_object_sizes oa acc :
  0 <= acc -> acc + sumZ (map gwyfile_object_size oa) < 2 ^ 64 ->
  fold_left (fun acc o => size_t (acc + gwyfile_object_size o)) oa acc
  = acc + sumZ (map gwyfile_object_size oa).
Proof.
  revert acc. induction oa as [|o oa IH]; intros acc Ha Hb; cbn [fold_left map] in *.
  - unfold sumZ. simpl. lia.
  - rewrite sumZ_cons in *. pose proof (object_size_nonneg o).
    assert (0 <= sumZ (map gwyfile_object_size oa)).
    { apply sumZ_nonneg. intros x. apply object_size_nonneg. }
    rewrite size_t_small by lia. rewrite IH by lia. lia.
Qed.

Lemma length_le_string_sizes (sa : list (list byte)) :
  Z.of_nat (length sa) <= sumZ (map (fun s => strlen s + 1) sa).
Proof.
  induction sa as [|s sa IH]; [unfold sumZ; simpl; lia|].
  cbn [length map]. rewrite sumZ_cons. pose proof (strlen_nonneg s). lia.
Qed.

Lemma le_decode_length a :
  0 <= a < 2 ^ 32 -> le_decode (le_encode 4 a) = a.
Proof.
  intros. rewrite le_decode_encode. apply Z.mod_small.
  change (256 ^ Z.of_nat 4) with (2 ^ 32). assumption.
Qed.

Lemma partial_buffer_full junk ca :
  partial_buffer junk ca (Z.of_nat (length ca)) = ca.
Proof.
  unfold partial_buffer. rewrite Nat2Z.id, Nat.sub_diag. apply app_nil_r.
Qed.

Lemma leaf_item_reads junk fuel n nl a dsz v rest max_size d :
  wf_item (Item n nl a dsz v) -> is_leaf v = true ->
  item_size (Item n nl a dsz v) <= max_size -> max_size < 2 ^ 64 ->
  gwyfile_item_fread_internal junk (S fuel)
    (encode_item (Item n nl a dsz v) ++ rest) max_size d
  = Ok (Item n nl a dsz v, rest).
Proof.
  intros Hwf Hleaf Hsz Hmax.
  destruct (wf_item_size _ _ _ _ _ Hwf) as (Es & Hd & Hn & -> & Hb).
  rewrite Es in Hsz. pose proof (strlen_nonneg n) as Hn0.
  cbn [wf_item] in Hwf. destruct Hwf as (_ & _ & _ & Hv).
  cbn [encode_item gwyfile_item_fread_internal].
  rewrite <- !app_assoc. cbn [app].
  rewrite gwyfile_fread_string_ok by (auto; lia). cbn [bind].
  rewrite gwyfile_check_size_ok by lia. cbn [bind].
  rewrite fread_one_byte. cbn [negb Z.eqb Pos.eqb hd].
  rewrite type_byte_read, type_valid, type_is_array.
  destruct v; try discriminate Hleaf; cbn [value_type is_array_value];
    cbn [negb bind].
  - (* bool *)
    destruct Hv as (-> & ->).
    unfold GWYFILE_ITEM_BOOL. decide_type_tests.
    rewrite gwyfile_check_size_ok by lia. cbn [bind app].
    rewrite fread_one_byte. cbn [Z.eqb Pos.eqb hd].
    unfold gwyfile_item_new_internal_bool, gwyfile_item_new_internal, set_sizes.
    rewrite u32_small by lia. now destruct b.
  - (* char *)
    destruct Hv as (-> & ->).
    unfold GWYFILE_ITEM_CHAR. decide_type_tests.
    rewrite gwyfile_check_size_ok by lia. cbn [bind app].
    rewrite fread_one_byte. cbn [Z.eqb Pos.eqb hd].
    unfold gwyfile_item_new_internal_char, gwyfile_item_new_internal, set_sizes.
    now rewrite u32_small by lia.
  - (* int32 *)
    destruct Hv as (-> & -> & Hi).
    unfold GWYFILE_ITEM_INT32. decide_type_tests.
    rewrite gwyfile_check_size_ok by lia. cbn [bind].
    rewrite (gwyfile_fread_le_encoded 4) by lia.
    unfold gwyfile_item_new_internal_int32, gwyfile_item_new_internal, set_sizes.
    rewrite u32_small by lia.
    now rewrite (signed_decode_encode 4 32) by (auto; lia).
  - (* int64 *)
    destruct Hv as (-> & -> & Hi).
    unfold GWYFILE_ITEM_INT64. decide_type_tests.
    rewrite gwyfile_check_size_ok by lia. cbn [bind].
    rewrite (gwyfile_fread_le_encoded 8) by lia.
    unfold gwyfile_item_new_internal_int64, gwyfile_item_new_internal, set_sizes.
    rewrite u32_small by lia.
    now rewrite (signed_decode_encode 8 64) by (auto; lia).
  - (* double *)
    destruct Hv as (-> & -> & Hi).
    unfold GWYFILE_ITEM_DOUBLE. decide_type_tests.
    rewrite gwyfile_check_size_ok by lia. cbn [bind].
    rewrite (gwyfile_fread_le_encoded 8) by lia.
    unfold gwyfile_item_new_internal_double, gwyfile_item_new_internal, set_sizes.
    rewrite u32_small by lia.
    rewrite le_decode_encode, Z.mod_small; [reflexivity|].
    change (256 ^ Z.of_nat 8) with (2 ^ 64). exact Hi.
  - (* string *)
    destruct Hv as (-> & -> & Hs). pose proof (strlen_nonneg s).
    unfold GWYFILE_ITEM_STRING. decide_type_tests.
    rewrite <- app_assoc. cbn [app].
    rewrite gwyfile_fread_string_ok by (auto; lia). cbn [bind].
    unfold gwyfile_item_new_internal_string, gwyfile_item_new_internal, set_sizes.
    rewrite u32_small by lia. now rewrite size_t_small by lia.
  - (* char array *)
    destruct Hv as (-> & Ha & ->).
    unfold GWYFILE_ITEM_CHAR_ARRAY.
    rewrite gwyfile_check_size_ok by lia. cbn [bind].
    rewrite <- app_assoc.
    rewrite (gwyfile_fread_le_encoded 4) by lia. cbn [negb].
    rewrite le_decode_length by lia.
    destruct (Z.eqb_spec (Z.of_nat (length ca)) 0); [lia|]. cbn [bind].
    decide_type_tests.
    rewrite gwyfile_check_size_ok by lia. cbn [bind].
    rewrite fread_exact by lia.
    destruct (Z.eqb_spec (Z.of_nat (length ca)) 0); [lia|]. cbn [negb].
    unfold gwyfile_item_new_internal_char_array, gwyfile_item_new_internal,
      set_sizes.
    rewrite partial_buffer_full.
    rewrite u32_small by lia. now rewrite size_t_small by lia.
  - (* int32 array *)
    destruct Hv as (-> & Ha & -> & Hi).
    unfold GWYFILE_ITEM_INT32_ARRAY.
    rewrite gwyfile_check_size_ok by lia. cbn [bind].
    rewrite <- app_assoc.
    rewrite (gwyfile_fread_le_encoded 4) by lia. cbn [negb].
    rewrite le_decode_length by lia.
    destruct (Z.eqb_spec (Z.of_nat (length ia)) 0); [lia|]. cbn [bind].
    decide_type_tests.
    match goal with |- context [?x >? ?y] =>
      destruct (Z.gtb_spec x y) as [G|G] end.
    { exfalso. revert G. apply Z.le_ngt. apply Z.div_le_lower_bound; lia. }
    rewrite gwyfile_fread_le_exact
      by (rewrite ?length_concat_encoded; lia).
    unfold gwyfile_item_new_internal_int32_array, gwyfile_item_new_internal,
      set_sizes.
    rewrite (decode_array_encoded 4 32) by (auto; lia).
    rewrite u32_small by lia. now rewrite size_t_small by lia.
  - (* int64 array *)
    destruct Hv as (-> & Ha & -> & Hi).
    unfold GWYFILE_ITEM_INT64_ARRAY.
    rewrite gwyfile_check_size_ok by lia. cbn [bind].
    rewrite <- app_assoc.
    rewrite (gwyfile_fread_le_encoded 4) by lia. cbn [negb].
    rewrite le_decode_length by lia.
    destruct (Z.eqb_spec (Z.of_nat (length qa)) 0); [lia|]. cbn [bind].
    decide_type_tests.
    match goal with |- context [?x >? ?y] =>
      destruct (Z.gtb_spec x y) as [G|G] end.
    { exfalso. revert G. apply Z.le_ngt. apply Z.div_le_lower_bound; lia. }
    rewrite gwyfile_fread_le_exact
      by (rewrite ?length_concat_encoded; lia).
    unfold gwyfile_item_new_internal_int64_array, gwyfile_item_new_internal,
      set_sizes.
    rewrite (decode_array_encoded 8 64) by (auto; lia).
    rewrite u32_small by lia. now rewrite size_t_small by lia.
  - (* double array *)
    destruct Hv as (-> & Ha & -> & Hi).
    unfold GWYFILE_ITEM_DOUBLE_ARRAY.
    rewrite gwyfile_check_size_ok by lia. cbn [bind].
    rewrite <- app_assoc.
    rewrite (gwyfile_fread_le_encoded 4) by lia. cbn [negb].
    rewrite le_decode_length by lia.
    destruct (Z.eqb_spec (Z.of_nat (length da)) 0); [lia|]. cbn [bind].
    decide_type_tests.
    match goal with |- context [?x >? ?y] =>
      destruct (Z.gtb_spec x y) as [G|G] end.
    { exfalso. revert G. apply Z.le_ngt. apply Z.div_le_lower_bound; lia. }
    rewrite gwyfile_fread_le_exact
      by (rewrite ?length_concat_encoded; lia).
    unfold gwyfile_item_new_internal_double_array, gwyfile_item_new_internal,
      set_sizes.
    rewrite decode_double_array_encoded by auto.
    rewrite u32_small by lia. now rewrite size_t_small by lia.
  - (* string array *)
    destruct Hv as (-> & Ha & -> & Hi).
    pose proof (length_le_string_sizes sa).
    unfold GWYFILE_ITEM_STRING_ARRAY.
    rewrite gwyfile_check_size_ok by lia. cbn [bind].
    rewrite <- app_assoc.
    rewrite (gwyfile_fread_le_encoded 4) by lia. cbn [negb].
    rewrite le_decode_length by lia.
    destruct (Z.eqb_spec (Z.of_nat (length sa)) 0); [lia|]. cbn [bind].
    decide_type_tests.
    match goal with |- context [?x >? ?y] =>
      destruct (Z.gtb_spec x y) as [G|G] end.
    { lia. }
    rewrite Nat2Z.id.
    rewrite fread_string_array_ok by (auto; lia). cbn [bind].
    unfold gwyfile_item_new_internal_string_array, gwyfile_item_new_internal,
      set_sizes.
    rewrite Nat2Z.id, firstn_all.
    rewrite (fold_left_string_sizes sa 4) by lia.
    now rewrite u32_small by lia.
Qed.

Lemma item_sorted_copy_size i : item_size (item_sorted_copy i) = item_size i.
Proof. now destruct i. Qed.

Lemma item_sorted_copy_name i : item_name (item_sorted_copy i) = item_name i.
Proof. now destruct i. Qed.

Lemma sorted_copy_fields o :
  object_name (sorted_copy o) = object_name o
  /\ object_name_len (sorted_copy o) = object_name_len o
  /\ object_data_size (sorted_copy o) = object_data_size o.
Proof.
  destruct o as [n nl items d]. cbn [sorted_copy].
  unfold gwyfile_object_find_duplicate_item.
  cbn [object_items object_name object_name_len object_data_size].
  destruct (_ <? 2); cbn; auto.
Qed.

Lemma sorted_copy_size o :
  gwyfile_object_size (sorted_copy o) = gwyfile_object_size o.
Proof.
  unfold gwyfile_object_size.
  destruct (sorted_copy_fields o) as (_ & -> & ->). reflexivity.
Qed.

Lemma item_nesting_nonneg_all :
  (forall i, 0 <= item_nesting i) /\ (forall o, 1 <= object_nesting o).
Proof.
  apply tree_ind.
  - intros n l a d v Hv. destruct v; try discriminate; cbn; lia.
  - intros n l a d o H. cbn. lia.
  - intros n l a d oa H. cbn [item_nesting].
    induction H as [|o oa Ho _ IH]; [lia|]. lia.
  - intros n l items d H. cbn [object_nesting].
    induction H as [|i items Hi _ IH]; [lia|]. lia.
Qed.

Lemma fits_items d n nl items dsz :
  d + object_nesting (Object n nl items dsz) <= GWYFILE_MAX_DEPTH
  <-> d < GWYFILE_MAX_DEPTH
      /\ Forall (fun i => d + 1 + item_nesting i <= GWYFILE_MAX_DEPTH) items.
Proof.
  cbn [object_nesting].
  induction items as [|i items IH].
  - split; [intros; split; [lia | constructor] | intros [? _]; lia].
  - rewrite Forall_cons.
    pose proof (proj1 item_nesting_nonneg_all i).
    split.
    + intros H1. assert (H2 := proj1 IH ltac:(lia)). split; [lia|].
      split; [lia | tauto].
    + intros (H1 & H2 & H3). assert (H4 := proj2 IH (conj H1 H3)). lia.
Qed.

Lemma fits_objects d n nl a dsz oa :
  d <= GWYFILE_MAX_DEPTH ->
  d + item_nesting (Item n nl a dsz (v_oa oa)) <= GWYFILE_MAX_DEPTH
  <-> Forall (fun o => d + object_nesting o <= GWYFILE_MAX_DEPTH) oa.
Proof.
  intros Hd. cbn [item_nesting].
  induction oa as [|o oa IH].
  - split; [constructor | lia].
  - rewrite Forall_cons.
    pose proof (proj2 item_nesting_nonneg_all o).
    split.
    + intros H1. assert (H2 := proj1 IH ltac:(lia)). split; [lia | assumption].
    + intros (H1 & H2). assert (H4 := proj2 IH H2). lia.
Qed.

Lemma names_distinct_inv n nl items dsz :
  names_distinct (Object n nl items dsz)
  <-> NoDup (map item_name items) /\ Forall item_names_distinct items.
Proof. cbn [names_distinct]. now rewrite all_items_Forall. Qed.

Lemma names_distinct_objects n nl a dsz oa :
  item_names_distinct (Item n nl a dsz (v_oa oa)) <-> Forall names_distinct oa.
Proof. cbn [item_names_distinct]. now rewrite all_objects_Forall. Qed.

Lemma object_append_ok n nl done acc i :
  0 <= acc -> acc + item_size i < 2 ^ 64 ->
  gwyfile_object_append (Object n nl done acc) i
  = Ok (Object n nl (done ++ [i]) (acc + item_size i)).
Proof.
  intros Ha Hb. unfold gwyfile_object_append.
  cbn [object_data_size object_name object_name_len object_items].
  pose proof (item_size_nonneg i).
  rewrite size_t_small by lia.
  destruct (Z.geb_spec (acc + item_size i) acc); [|lia].
  reflexivity.
Qed.

Lemma items_loop_reads junk n nl dsz d rest todo :
  Forall (item_reads junk) todo ->
  0 <= d < GWYFILE_MAX_DEPTH -> dsz < 2 ^ 32 ->
  forall fuel done acc,
    (items_need todo <= fuel)%nat -> 0 <= acc ->
    acc + sumZ (map item_size todo) = dsz ->
    Forall (fun i => 0 < item_size i) todo ->
    reads_as
      (object_fread_items junk fuel (concat (map encode_item todo) ++ rest)
         dsz d (Object n nl done acc))
      (Object n nl (done ++ map item_sorted_copy todo) dsz) rest
      (Forall (fun i => d + 1 + item_nesting i <= GWYFILE_MAX_DEPTH) todo)
      (Forall item_names_distinct todo).
Proof.
  intros Hreads Hd Hdsz.
  induction Hreads as [|i todo Hi _ IH]; intros fuel done acc Hf Ha Hs Hp.
  - cbn [map concat app sumZ foldr fold_right] in *.
    destruct fuel as [|fuel]; [cbn in Hf; lia|].
    cbn [object_fread_items object_data_size].
    destruct (Z.ltb_spec acc dsz); [unfold sumZ in Hs; simpl in Hs; lia|].
    left. repeat split; try constructor.
    rewrite app_nil_r. unfold sumZ in Hs. simpl in Hs.
    now replace dsz with acc by lia.
  - cbn [map concat] in *. rewrite sumZ_cons in Hs.
    apply Forall_cons in Hp as [Hp1 Hp2].
    assert (0 <= sumZ (map item_size todo))
      by (apply sumZ_nonneg; intros; apply item_size_nonneg).
    destruct fuel as [|fuel]; [cbn in Hf; lia|].
    cbn [items_need] in Hf.
    cbn [object_fread_items object_data_size].
    destruct (Z.ltb_spec acc dsz); [|lia].
    rewrite (u32_small (dsz - acc)) by lia.
    rewrite (u32_small (d + 1)) by (unfold GWYFILE_MAX_DEPTH in *; lia).
    rewrite <- app_assoc.
    destruct (Hi fuel (concat (map encode_item todo) ++ rest) (dsz - acc)
                (d + 1)) as [(F & D & E) | [(F & E) | (D & E)]];
      try lia.
    + rewrite E. cbn [bind].
      rewrite object_append_ok
        by (rewrite ?item_sorted_copy_size; lia).
      cbn [bind]. rewrite item_sorted_copy_size.
      destruct (IH fuel (done ++ [item_sorted_copy i]) (acc + item_size i))
        as [(F' & D' & E') | [(F' & E') | (D' & E')]]; try lia; auto.
      * left. rewrite E'. rewrite <- app_assoc. cbn [app].
        split; [constructor; [lia | auto]|].
        split; [constructor; auto | reflexivity].
      * right. left. split; auto. intros HF. apply F'.
        now apply Forall_cons in HF as [_ HF].
      * right. right. split; auto. intros HF. apply D'.
        now apply Forall_cons in HF as [_ HF].
    + right. left. rewrite E. split; auto. intros HF. apply F.
      apply Forall_cons in HF as [HF _]. lia.
    + right. right. rewrite E. split; auto. intros HF. apply D.
      now apply Forall_cons in HF as [HF _].
Qed.

Lemma object_need_items n nl items dsz :
  object_need (Object n nl items dsz) = S (items_need items).
Proof.
  reflexivity.
Qed.

Lemma item_need_objects n nl a dsz oa :
  item_need (Item n nl a dsz (v_oa oa)) = S (objects_need oa).
Proof.
  reflexivity.
Qed.

Lemma wf_item_size_pos i : wf_item i -> 0 < item_size i.
Proof.
  destruct i as [n nl a dsz v]. intros H.
  destruct (wf_item_size _ _ _ _ _ H) as (-> & ? & _).
  pose proof (strlen_nonneg n). lia.
Qed.

Lemma map_item_name_sorted_copy items :
  map item_name (map item_sorted_copy items) = map item_name items.
Proof.
  rewrite map_map. apply map_ext. intros i. apply item_sorted_copy_name.
Qed.

Lemma reads_as_iff {A} (r : result (A * list byte)) e rest f f' g g' :
  (f <-> f') -> (g <-> g') -> reads_as r e rest f' g' -> reads_as r e rest f g.
Proof. unfold reads_as. tauto. Qed.

Lemma object_case_reads junk n nl items dsz :
  wf_object (Object n nl items dsz) -> Forall (item_reads junk) items ->
  object_reads junk (Object n nl items dsz).
Proof.
  intros Hwf Hitems fuel rest max_size d Hf Hsz Hmax Hd.
  destruct (wf_object_size _ _ _ _ Hwf) as (Es & Hd0 & Hb).
  apply wf_object_inv in Hwf as (Hn & -> & Hsum & Hlim & Hwfi).
  rewrite Es in Hsz. pose proof (strlen_nonneg n).
  rewrite object_need_items in Hf.
  destruct fuel as [|fuel]; [lia|].
  cbn [gwyfile_object_fread_internal].
  destruct (Z.geb_spec d GWYFILE_MAX_DEPTH) as [G|G].
  - right; left. split; [|reflexivity].
    pose proof (proj2 item_nesting_nonneg_all (Object n (strlen n) items dsz)).
    lia.
  - cbn [encode_object]. rewrite <- !app_assoc. cbn [app].
    rewrite gwyfile_fread_string_ok by (auto; lia). cbn [bind].
    rewrite gwyfile_check_size_ok by lia. cbn [bind].
    rewrite (gwyfile_fread_le_encoded 4) by lia. cbn [negb].
    rewrite le_decode_length by lia.
    destruct (Z.ltb_spec (max_size - (strlen n + 1) - 4) dsz); [lia|].
    unfold gwyfile_object_new_internal. rewrite u32_small by lia.
    assert (Hpos : Forall (fun i => 0 < item_size i) items).
    { eapply Forall_impl; [exact Hwfi|]. apply wf_item_size_pos. }
    destruct (items_loop_reads junk n (strlen n) dsz d rest items Hitems
                ltac:(lia) ltac:(lia) fuel [] 0 ltac:(lia) ltac:(lia)
                ltac:(lia) Hpos)
      as [(F & D & E) | [(F & E) | (D & E)]]; rewrite E; cbn [app bind].
    + cbn [object_data_size]. rewrite Z.eqb_refl. cbn [assert bind].
      pose proof (find_duplicate_none
                    (Object n (strlen n) (map item_sorted_copy items) dsz))
        as Hdup.
      cbn [object_items] in Hdup. rewrite map_item_name_sorted_copy in Hdup.
      cbn [sorted_copy].
      destruct (gwyfile_object_find_duplicate_item
                  (Object n (strlen n) (map item_sorted_copy items) dsz))
        as [[dup|] o'].
      * right; right. split; [|reflexivity].
        intros [Hnd _]%names_distinct_inv. apply Hdup in Hnd. discriminate.
      * left. split; [apply fits_items; split; [lia | exact F]|].
        split; [|reflexivity].
        apply names_distinct_inv. split; [now apply Hdup | exact D].
    + right; left. split; [|reflexivity]. rewrite fits_items. tauto.
    + right; right. split; [|reflexivity]. rewrite names_distinct_inv. tauto.
Qed.

Lemma object_item_case_reads junk n nl a dsz o :
  wf_item (Item n nl a dsz (v_o o)) -> object_reads junk o ->
  item_reads junk (Item n nl a dsz (v_o o)).
Proof.
  intros Hwf Ho fuel rest max_size d Hf Hsz Hmax Hd.
  destruct (wf_item_size _ _ _ _ _ Hwf) as (Es & Hd1 & Hn & -> & Hb).
  rewrite Es in Hsz. pose proof (strlen_nonneg n) as Hn0.
  cbn [wf_item] in Hwf. destruct Hwf as (_ & _ & _ & -> & -> & Hwo).
  cbn [item_need] in Hf.
  destruct fuel as [|fuel]; [lia|].
  cbn [encode_item gwyfile_item_fread_internal].
  rewrite <- !app_assoc. cbn [app].
  rewrite gwyfile_fread_string_ok by (auto; lia). cbn [bind].
  rewrite gwyfile_check_size_ok by lia. cbn [bind].
  rewrite fread_one_byte. cbn [negb Z.eqb Pos.eqb hd].
  rewrite type_byte_read, type_valid, type_is_array.
  cbn [value_type is_array_value]. cbn [negb bind].
  unfold GWYFILE_ITEM_OBJECT. decide_type_tests.
  cbn [item_nesting item_names_distinct item_sorted_copy].
  destruct (Ho fuel rest (max_size - (strlen n + 1) - 1) d)
    as [(F & D & E) | [(F & E) | (D & E)]]; try lia; rewrite E; cbn [bind].
  - left. split; [exact F|]. split; [exact D|].
    unfold gwyfile_item_new_internal_object, gwyfile_item_new_internal,
      set_sizes.
    rewrite u32_small by lia. now rewrite sorted_copy_size.
  - right; left. now split.
  - right; right. now split.
Qed.

Lemma wf_objects_size oa :
  Forall wf_object oa -> 5 * Z.of_nat (length oa) <= sumZ (map gwyfile_object_size oa).
Proof.
  induction 1 as [|o oa Ho _ IH]; [unfold sumZ; simpl; lia|].
  cbn [map length]. rewrite sumZ_cons.
  destruct o as [n nl items dsz].
  destruct (wf_object_size _ _ _ _ Ho) as (-> & ? & ?).
  pose proof (strlen_nonneg n). lia.
Qed.

Lemma objects_loop_reads junk d rest oa :
  Forall (object_reads junk) oa -> 0 <= d ->
  forall fuel max_size,
    (objects_need oa <= fuel)%nat ->
    sumZ (map gwyfile_object_size oa) <= max_size -> max_size < 2 ^ 64 ->
    reads_as
      (item_fread_object_array junk fuel
         (concat (map encode_object oa) ++ rest) max_size d (length oa))
      (map sorted_copy oa) rest
      (Forall (fun o => d + object_nesting o <= GWYFILE_MAX_DEPTH) oa)
      (Forall names_distinct oa).
Proof.
  intros Hreads Hd.
  induction Hreads as [|o oa Ho _ IH]; intros fuel max_size Hf Hs Hm.
  - destruct fuel as [|fuel]; [cbn in Hf; lia|].
    left. repeat split; constructor.
  - cbn [map concat length] in *. rewrite sumZ_cons in Hs.
    assert (0 <= sumZ (map gwyfile_object_size oa))
      by (apply sumZ_nonneg; intros; apply object_size_nonneg).
    pose proof (object_size_nonneg o).
    destruct fuel as [|fuel]; [cbn in Hf; lia|].
    cbn [objects_need] in Hf.
    cbn [item_fread_object_array]. rewrite <- app_assoc.
    destruct (Ho fuel (concat (map encode_object oa) ++ rest) max_size d)
      as [(F & D & E) | [(F & E) | (D & E)]]; try lia; rewrite E; cbn [bind].
    + rewrite sorted_copy_size.
      destruct (Z.leb_spec (gwyfile_object_size o) max_size); [|lia].
      cbn [assert bind].
      rewrite size_t_small by lia.
      destruct (IH fuel (max_size - gwyfile_object_size o))
        as [(F' & D' & E') | [(F' & E') | (D' & E')]]; try lia; rewrite E';
        cbn [bind].
      * left. split; [constructor; auto|].
        split; [constructor; auto | reflexivity].
      * right; left. split; [|reflexivity]. intros HF. apply F'.
        now apply Forall_cons in HF as [_ HF].
      * right; right. split; [|reflexivity]. intros HF. apply D'.
        now apply Forall_cons in HF as [_ HF].
    + right; left. split; [|reflexivity]. intros HF. apply F.
      now apply Forall_cons in HF as [HF _].
    + right; right. split; [|reflexivity]. intros HF. apply D.
      now apply Forall_cons in HF as [HF _].
Qed.

Lemma object_array_case_reads junk n nl a dsz oa :
  wf_item (Item n nl a dsz (v_oa oa)) -> Forall (object_reads junk) oa ->
  item_reads junk (Item n nl a dsz (v_oa oa)).
Proof.
  intros Hwf Ho fuel rest max_size d Hf Hsz Hmax Hd.
  destruct (wf_item_size _ _ _ _ _ Hwf) as (Es & Hd1 & Hn & -> & Hb).
  rewrite Es in Hsz. pose proof (strlen_nonneg n) as Hn0.
  cbn [wf_item] in Hwf. destruct Hwf as (_ & _ & _ & -> & Ha & -> & Hwo).
  apply all_objects_Forall in Hwo.
  pose proof (wf_objects_size oa Hwo) as H5.
  rewrite item_need_objects in Hf.
  destruct fuel as [|fuel]; [lia|].
  cbn [encode_item gwyfile_item_fread_internal].
  rewrite <- !app_assoc. cbn [app].
  rewrite gwyfile_fread_string_ok by (auto; lia). cbn [bind].
  rewrite gwyfile_check_size_ok by lia. cbn [bind].
  rewrite fread_one_byte. cbn [negb Z.eqb Pos.eqb hd].
  rewrite type_byte_read, type_valid, type_is_array.
  cbn [value_type is_array_value]. cbn [negb bind].
  unfold GWYFILE_ITEM_OBJECT_ARRAY.
  rewrite gwyfile_check_size_ok by lia. cbn [bind].
  rewrite (gwyfile_fread_le_encoded 4) by lia. cbn [negb].
  rewrite le_decode_length by lia.
  destruct (Z.eqb_spec (Z.of_nat (length oa)) 0); [lia|]. cbn [bind].
  decide_type_tests.
  destruct (Z.gtb_spec (Z.of_nat (length oa))
              ((max_size - (strlen n + 1) - 1 - 4) / 5)) as [G|G].
  { exfalso. 
    assert (Z.of_nat (length oa) <= (max_size - (strlen n + 1) - 1 - 4) / 5)
      by (apply Z.div_le_lower_bound; lia).
    lia. }
  rewrite Nat2Z.id.
  eapply reads_as_iff;
    [apply fits_objects; lia | apply names_distinct_objects |].
  cbn [item_sorted_copy].
  destruct (objects_loop_reads junk d rest oa Ho ltac:(lia) fuel
              (max_size - (strlen n + 1) - 1 - 4))
    as [(F & D & E) | [(F & E) | (D & E)]]; try lia; rewrite E; cbn [bind].
  - left. split; [exact F|]. split; [exact D|].
    unfold gwyfile_item_new_internal_object_array, gwyfile_item_new_internal,
      set_sizes.
    rewrite u32_small by lia. rewrite Nat2Z.id.
    rewrite firstn_all2 by (rewrite length_map; lia).
    assert (Em : map gwyfile_object_size (map sorted_copy oa)
                 = map gwyfile_object_size oa).
    { rewrite map_map. apply map_ext. intros o. apply sorted_copy_size. }
    rewrite (fold_left_object_sizes (map sorted_copy oa) 4)
      by (rewrite ?Em; lia).
    rewrite Em. reflexivity.
  - right; left. now split.
  - right; right. now split.
Qed.

Lemma encoded_tree_reads junk :
  (forall i, wf_item i -> item_reads junk i)
  /\ (forall o, wf_object o -> object_reads junk o).
Proof.
  apply tree_ind.
  - intros n l a d v Hleaf Hwf fuel rest max_size dep Hf Hsz Hmax Hd.
    destruct fuel as [|fuel]; [destruct v; cbn in Hf; lia|].
    left. split; [destruct v; try discriminate; cbn; lia|].
    split; [destruct v; try discriminate; exact I|].
    rewrite leaf_item_reads by assumption.
    destruct v; try discriminate; reflexivity.
  - intros n l a d o IH Hwf. apply object_item_case_reads; [exact Hwf|].
    apply IH. cbn [wf_item] in Hwf. tauto.
  - intros n l a d oa IH Hwf. apply object_array_case_reads; [exact Hwf|].
    cbn [wf_item] in Hwf. destruct Hwf as (_ & _ & _ & _ & _ & _ & Hwo).
    apply all_objects_Forall in Hwo.
    rewrite List.Forall_forall in *. auto.
  - intros n l items d IH Hwf. apply object_case_reads; [exact Hwf|].
    apply wf_object_inv in Hwf as (_ & _ & _ & _ & Hwi).
    rewrite List.Forall_forall in *. auto.
Qed.

(** ** The budget of the public readers suffices for an encoded tree *)

Lemma need_bounds :
  (forall i, (item_need i <= length (encode_item i) + 1)%nat)
  /\ (forall o, (object_need o <= length (encode_object o) + 2
                 /\ 5 <= length (encode_object o))%nat).
Proof.
  apply tree_ind.
  - intros n l a d v Hv. destruct v; try discriminate; cbn [item_need]; lia.
  - intros n l a d o [H1 H2]. cbn [item_need encode_item].
    rewrite !length_app. cbn [length]. lia.
  - intros n l a d oa H. rewrite item_need_objects. cbn [encode_item].
    rewrite !length_app, length_le_encode. cbn [length].
    enough (objects_need oa <= length (concat (map encode_object oa)) + 3)%nat
      by lia.
    induction H as [|o oa [H1 H2] _ IH]; cbn [objects_need map concat length];
      [lia|].
    rewrite length_app. lia.
  - intros n l items d H. rewrite object_need_items. cbn [encode_object].
    rewrite !length_app, length_le_encode. cbn [length].
    enough (items_need items <= length (concat (map encode_item items)) + 2
            /\ forall i, In i items -> 2 <= length (encode_item i))%nat
      by lia.
    split.
    + induction H as [|i items Hi _ IH]; cbn [items_need map concat length];
        [lia|].
      rewrite length_app.
      assert (2 <= length (encode_item i))%nat.
      { destruct i as [n' l' a' d' v']. cbn [encode_item].
        rewrite !length_app. cbn [length]. lia. }
      lia.
    + intros [n' l' a' d' v'] _. cbn [encode_item].
      rewrite !length_app. cbn [length]. lia.
Qed.

Lemma fread_fuel_suffices o rest :
  (object_need o <= fread_fuel (encode_object o ++ rest))%nat.
Proof.
  unfold fread_fuel. rewrite length_app.
  pose proof (proj1 (proj2 need_bounds o)). lia.
Qed.

(** ** The writer emits the encoding of a well-formed tree *)

Lemma fwrite_name_ok n : 
  cstring_ok n -> fwrite_name n (strlen n) = (Ok tt, n ++ [x00]).
Proof.
  intros [_ Hb]. unfold fwrite_name, fwrite. pose proof (strlen_nonneg n).
  rewrite u32_small by lia. f_equal.
  apply firstn_all2. rewrite length_app. cbn [length]. unfold strlen in *. lia.
Qed.

Lemma wseq_ok x b : wseq (Ok tt, x) b = (fst b, x ++ snd b).
Proof. now destruct b. Qed.

Lemma tree_fwrite_encodes :
  (forall i, wf_item i -> gwyfile_item_fwrite i = (Ok tt, encode_item i))
  /\ (forall o, wf_object o -> gwyfile_object_fwrite o = (Ok tt, encode_object o)).
Proof.
  apply tree_ind.
  - intros n l a d v Hleaf (Hn & -> & Hb & Hv).
    cbn [gwyfile_item_fwrite encode_item].
    rewrite fwrite_name_ok by assumption. rewrite wseq_ok. unfold fwrite at 1.
    rewrite wseq_ok.
    destruct v; try discriminate Hleaf; unfold fwrite, encode_array;
      cbn [fst snd]; rewrite ?wseq_ok; cbn [fst snd];
      rewrite <- ?app_assoc; try reflexivity.
    all: destruct Hv as (-> & _); rewrite Nat2Z.id, firstn_all;
      reflexivity.
  - intros n l a d o IH (Hn & -> & Hb & _ & _ & Hwo).
    cbn [gwyfile_item_fwrite encode_item].
    rewrite fwrite_name_ok by assumption. rewrite wseq_ok. unfold fwrite at 1.
    rewrite wseq_ok, (IH Hwo). cbn [fst snd].
    now rewrite <- !app_assoc.
  - intros n l a d oa IH (Hn & -> & Hb & -> & _ & _ & Hwo).
    apply all_objects_Forall in Hwo.
    cbn [gwyfile_item_fwrite encode_item].
    rewrite fwrite_name_ok by assumption. rewrite wseq_ok. unfold fwrite at 1.
    rewrite wseq_ok. unfold fwrite. rewrite wseq_ok. cbn [fst snd].
    rewrite Nat2Z.id.
    enough (E : forall k, k = length oa ->
               (fix loop (oa : list GwyfileObject) (n : nat) {struct oa}
                  : written unit :=
                  match oa, n with
                  | o :: oa', S n' =>
                      wseq (gwyfile_object_fwrite o) (loop oa' n')
                  | _, _ => (Ok tt, [])
                  end) oa k
               = (Ok tt, concat (map encode_object oa))).
    { rewrite (E _ eq_refl). cbn [fst snd]. now rewrite <- !app_assoc. }
    induction IH as [|o oa Ho _ IHoa]; intros k ->; [reflexivity|].
    apply Forall_cons in Hwo as [Hw1 Hw2].
    cbn [length map concat]. rewrite (Ho Hw1), wseq_ok.
    now rewrite (IHoa Hw2 _ eq_refl).
  - intros n l items d IH Hwf.
    destruct (wf_object_size _ _ _ _ Hwf) as (_ & Hd0 & Hb).
    apply wf_object_inv in Hwf as (Hn & -> & Hsum & Hlim & Hwfi).
    pose proof (strlen_nonneg n).
    cbn [gwyfile_object_fwrite encode_object].
    rewrite size_t_small by lia.
    destruct (Z.gtb_spec d (4294967295 - 4 - strlen n)); [lia|].
    rewrite fwrite_name_ok by assumption. rewrite wseq_ok. unfold fwrite.
    rewrite wseq_ok. cbn [fst snd].
    enough (E : (fix loop (items : list GwyfileItem) : written unit :=
                   match items with
                   | [] => (Ok tt, [])
                   | item :: items' =>
                       wseq (gwyfile_item_fwrite item) (loop items')
                   end) items
                = (Ok tt, concat (map encode_item items))).
    { rewrite E. cbn [fst snd]. now rewrite <- !app_assoc. }
    clear Hsum. induction IH as [|i items Hi _ IHi]; [reflexivity|].
    apply Forall_cons in Hwfi as [Hw1 Hw2].
    cbn [map concat]. rewrite (Hi Hw1), wseq_ok.
    now rewrite (IHi Hw2).
Qed.

Lemma gwyfile_fwrite_encodes o :
  wf_object o ->
  gwyfile_fwrite o = (Ok tt, GWYFILE_MAGIC_HEADER2 ++ encode_object o).
Proof.
  intros H. unfold gwyfile_fwrite, fwrite.
  now rewrite wseq_ok, (proj2 tree_fwrite_encodes o H).
Qed.

(** ** Reading a written file *)

Lemma gwyfile_fread_magic junk stream max_size :
  4 <= max_size < 2 ^ 64 ->
  gwyfile_fread junk (GWYFILE_MAGIC_HEADER2 ++ stream) max_size
  = gwyfile_object_fread junk stream (max_size - 4).
Proof.
  intros H. unfold gwyfile_fread, GWYFILE_MAGIC_LEN.
  rewrite gwyfile_check_size_ok by lia. cbn [bind].
  rewrite fread_exact by (reflexivity || lia).
  reflexivity.
Qed.

Lemma gwyfile_fread_encoded junk o rest max_size :
  wf_object o -> 4 + gwyfile_object_size o <= max_size -> max_size < 2 ^ 64 ->
  reads_as (gwyfile_fread junk (GWYFILE_MAGIC_HEADER2 ++ encode_object o ++ rest)
              max_size)
    (sorted_copy o) rest
    (object_nesting o <= GWYFILE_MAX_DEPTH) (names_distinct o).
Proof.
  intros Hwf Hs Hm. pose proof (object_size_nonneg o).
  rewrite gwyfile_fread_magic by lia.
  unfold gwyfile_object_fread.
  apply (proj2 (encoded_tree_reads junk) o Hwf); try lia.
  apply fread_fuel_suffices.
Qed.

Lemma sorted_copy_id :
  (forall i, item_names_sorted i -> item_sorted_copy i = i)
  /\ (forall o, names_sorted o -> sorted_copy o = o).
Proof.
  apply tree_ind.
  - intros n l a d v Hv _. destruct v; try discriminate; reflexivity.
  - intros n l a d o IH H. cbn [item_names_sorted] in H.
    cbn [item_sorted_copy]. now rewrite IH.
  - intros n l a d oa IH H. cbn [item_names_sorted] in H.
    apply all_objects_Forall in H.
    cbn [item_sorted_copy]. do 2 f_equal.
    induction IH as [|o oa Ho _ IHoa]; [reflexivity|].
    apply Forall_cons in H as [H1 H2]. cbn [map].
    now rewrite Ho, IHoa.
  - intros n l items d IH [Hs H]. apply all_items_Forall in H.
    cbn [sorted_copy].
    assert (E : map item_sorted_copy items = items).
    { clear Hs. induction IH as [|i items Hi _ IHi]; [reflexivity|].
      apply Forall_cons in H as [H1 H2]. cbn [map]. now rewrite Hi, IHi. }
    rewrite E. now apply find_duplicate_sorted_id.
Qed.

(** ** The claims on reading what was written *)

Ltac by_evaluation :=
  vm_compute;
  repeat first [ reflexivity
               | (let H := fresh in intro H; discriminate H)
               | apply not_elem_of_nil
               | (apply not_elem_of_cons; split)
               | split | constructor ].

(** C6, with the conditions it needs.  For a well-formed tree written to a
    file, [gwyfile_fread] never fails with TOO_DEEP_NESTING when the objects
    nest at most [GWYFILE_MAX_DEPTH] = 200 levels deep; and when the item
    names are distinct in every object, it fails with TOO_DEEP_NESTING (an
    error of the DATA domain) exactly when they nest deeper, from 201
    levels on. *)
Theorem too_deep_nesting_beyond_max_depth junk o rest max_size :
  wf_object o ->
  4 + gwyfile_object_size o <= max_size -> max_size < 2 ^ 64 ->
  let r := gwyfile_fread junk (GWYFILE_MAGIC_HEADER2 ++ encode_object o ++ rest)
             max_size in
  (object_nesting o <= GWYFILE_MAX_DEPTH ->
   r <> Fail (DataError GWYFILE_ERROR_TOO_DEEP_NESTING))
  /\ (names_distinct o ->
      (r = Fail (DataError GWYFILE_ERROR_TOO_DEEP_NESTING)
       <-> GWYFILE_MAX_DEPTH + 1 <= object_nesting o))
  /\ error_domain (DataError GWYFILE_ERROR_TOO_DEEP_NESTING)
     = GWYFILE_ERROR_DOMAIN_DATA.
Proof.
  intros Hwf Hs Hm r.
  destruct (gwyfile_fread_encoded junk o rest max_size Hwf Hs Hm)
    as [(F & D & E) | [(F & E) | (D & E)]]; fold r in E; rewrite E.
  - split; [discriminate|]. split; [|reflexivity].
    intros _. split; [discriminate | lia].
  - split; [tauto|]. split; [|reflexivity].
    intros _. split; [lia | reflexivity].
  - split; [discriminate|]. split; [|reflexivity]. tauto.
Qed.

Lemma too_deep_nesting_beyond_max_depth_witness :
  gwyfile_fread (fun _ => x00)
    (GWYFILE_MAGIC_HEADER2 ++ encode_object (chain 200) ++ []) SIZE_MAX
  = Fail (DataError GWYFILE_ERROR_TOO_DEEP_NESTING).
Proof.
  destruct (too_deep_nesting_beyond_max_depth (fun _ => x00) (chain 200) []
              SIZE_MAX)
    as (_ & H & _).
  - by_evaluation.
  - by_evaluation.
  - reflexivity.
  - apply H.
    + by_evaluation.
    + by_evaluation.
Defined.

(** C6 as stated, for every tree nested deeper than 200 levels, fails.  In
    the tree [x_twice_then_chain] the objects nest 202 deep, but the object
    with the two items ["x"] comes first in the file: the reader has
    finished it, and found the duplicate, before it enters the chain. *)
Lemma duplicate_name_precedes_deep_nesting :
  wf_object x_twice_then_chain
  /\ GWYFILE_MAX_DEPTH + 1 <= object_nesting x_twice_then_chain
  /\ fst (gwyfile_fwrite x_twice_then_chain) = Ok tt
  /\ forall junk,
       gwyfile_fread junk (snd (gwyfile_fwrite x_twice_then_chain)) SIZE_MAX
       = Fail (DataError GWYFILE_ERROR_DUPLICATE_NAME).
Proof.
  split; [by_evaluation|]. split; [vm_compute; intros H; discriminate H|].
  split; [vm_compute; reflexivity|]. intros junk. vm_compute. reflexivity.
Qed.

(** Reading back what was written.  A well-formed tree within the depth
    limit whose item names are distinct and in [strcmp] order in every
    object is written without error, the bytes written are read back as
    that tree, whatever follows them being left in the stream, and so
    writing the tree that was read reproduces the bytes read. *)
Theorem written_tree_is_read_back junk o rest max_size :
  wf_object o -> names_distinct o -> names_sorted o ->
  object_nesting o <= GWYFILE_MAX_DEPTH ->
  4 + gwyfile_object_size o <= max_size -> max_size < 2 ^ 64 ->
  let bytes := snd (gwyfile_fwrite o) in
  fst (gwyfile_fwrite o) = Ok tt
  /\ gwyfile_fread junk (bytes ++ rest) max_size = Ok (o, rest)
  /\ forall o', gwyfile_fread junk bytes max_size = Ok (o', []) ->
               gwyfile_fwrite o' = (Ok tt, bytes).
Proof.
  intros Hwf Hd Hsort Hfit Hs Hm bytes. subst bytes.
  rewrite (gwyfile_fwrite_encodes o Hwf). cbn [fst snd].
  assert (R : forall rest,
             gwyfile_fread junk
               ((GWYFILE_MAGIC_HEADER2 ++ encode_object o) ++ rest) max_size
             = Ok (o, rest)).
  { intros rest'. rewrite <- app_assoc.
    destruct (gwyfile_fread_encoded junk o rest' max_size Hwf Hs Hm)
      as [(F & D & E) | [(F & E) | (D & E)]]; try tauto.
    now rewrite E, (proj2 sorted_copy_id o Hsort). }
  split; [reflexivity|]. split; [apply R|].
  intros o' Ho'. rewrite <- (app_nil_r (_ ++ _)), R in Ho'.
  injection Ho' as <-. now apply gwyfile_fwrite_encodes.
Qed.

Lemma written_tree_is_read_back_witness :
  fst (gwyfile_fwrite sample_tree) = Ok tt
  /\ gwyfile_fread (fun _ => x00) (snd (gwyfile_fwrite sample_tree) ++ [x2a])
       SIZE_MAX
     = Ok (sample_tree, [x2a]).
Proof.
  destruct (written_tree_is_read_back (fun _ => x00) sample_tree [x2a]
              SIZE_MAX)
    as (H1 & H2 & _).
  - by_evaluation.
  - by_evaluation.
  - by_evaluation.
  - vm_compute. intros H; discriminate H.
  - vm_compute. intros H; discriminate H.
  - reflexivity.
  - split; [exact H1 | exact H2].
Defined.

(** ** The duplicate check *)

Lemma occurrences_cons name x l :
  occurrences name (x :: l)
  = ((if gwyfile_strequal (item_name x) name then 1 else 0) + occurrences name l)%nat.
Proof.
  unfold occurrences. rewrite filter_cons.
  destruct (gwyfile_strequal (item_name x) name) eqn:E.
  - rewrite decide_True by reflexivity. reflexivity.
  - rewrite decide_False by discriminate. reflexivity.
Qed.

Lemma occurrences_perm name l1 l2 :
  Permutation l1 l2 -> occurrences name l1 = occurrences name l2.
Proof.
  induction 1 as [|x l1 l2 _ IH|x y l|l1 l2 l3 _ IH1 _ IH2];
    rewrite ?occurrences_cons; lia.
Qed.

Lemma occurrences_pos name l :
  (0 < occurrences name l)%nat -> exists z, In z l /\ item_name z = name.
Proof.
  induction l as [|x l IH]; [cbn; lia|].
  rewrite occurrences_cons.
  destruct (gwyfile_strequal_spec (item_name x) name) as [E|E].
  - intros _. exists x. split; [now left | assumption].
  - intros H. destruct (IH H) as (z & Hz & En). exists z. split; [now right | assumption].
Qed.

Lemma occurrences_in name l z :
  In z l -> item_name z = name -> (0 < occurrences name l)%nat.
Proof.
  induction l as [|x l IH]; [intros []|].
  rewrite occurrences_cons. intros [->|Hin] En.
  - subst name. destruct (gwyfile_strequal_spec (item_name z) (item_name z)); [lia | congruence].
  - specialize (IH Hin En). lia.
Qed.

Lemma adjacent_duplicate_some l name :
  Sorted item_le l -> adjacent_duplicate l = Some name ->
  (2 <= occurrences name l)%nat
  /\ forall name', (2 <= occurrences name' l)%nat -> strcmp name name' <= 0.
Proof.
  intros Hs. apply sorted_strongly in Hs.
  induction Hs as [|x l Hl IH Hx]; [discriminate|].
  destruct l as [|y l]; [discriminate|].
  cbn [adjacent_duplicate].
  rewrite List.Forall_forall in Hx.
  destruct (gwyfile_strequal_spec (item_name x) (item_name y)) as [E|E].
  - intros [= <-]. split.
    + rewrite !occurrences_cons.
      destruct (gwyfile_strequal_spec (item_name x) (item_name x)); [|congruence].
      destruct (gwyfile_strequal_spec (item_name y) (item_name x)); [|congruence].
      lia.
    + intros name' H.
      destruct (occurrences_pos name' (x :: y :: l) ltac:(lia)) as (z & Hz & <-).
      destruct Hz as [<-|Hz]; [now rewrite strcmp_refl|].
      apply (Hx z Hz).
  - intros H. destruct (IH H) as [H2 Hleast]. split.
    + rewrite occurrences_cons. lia.
    + intros name' H'. rewrite occurrences_cons in H'.
      destruct (gwyfile_strequal_spec (item_name x) name') as [En|En];
        [|apply Hleast; lia].
      exfalso. subst name'.
      destruct (occurrences_pos (item_name x) (y :: l) ltac:(lia))
        as (z & Hz & Ez).
      apply E. apply item_le_antisym; [apply Hx; now left|].
      destruct Hz as [<-|Hz].
      * unfold item_le, gwyfile_compare_items. rewrite Ez, strcmp_refl. lia.
      * inversion Hl as [|? ? _ Hy]; subst. rewrite List.Forall_forall in Hy.
        specialize (Hy z Hz). unfold item_le, gwyfile_compare_items in *.
        now rewrite <- Ez.
Qed.

(** X1.  [gwyfile_object_find_duplicate_item] finds no duplicate exactly
    when the item names of the object are pairwise distinct; a name it
    reports is the name of two items at least, and the least such name in
    [strcmp] order.  The call leaves the same items in the object, in
    ascending order of their names, and the other fields as they were. *)
Theorem find_duplicate_item_detects_and_sorts (o : GwyfileObject)
    (name : list byte) :
  let r := gwyfile_object_find_duplicate_item o in
  (fst r = None <-> NoDup (map item_name (object_items o)))
  /\ (fst r = Some name ->
      (2 <= occurrences name (object_items o))%nat
      /\ forall name', (2 <= occurrences name' (object_items o))%nat ->
                       strcmp name name' <= 0)
  /\ Permutation (object_items (snd r)) (object_items o)
  /\ items_sorted (object_items (snd r))
  /\ object_name (snd r) = object_name o
  /\ object_name_len (snd r) = object_name_len o
  /\ object_data_size (snd r) = object_data_size o.
Proof.
  intros r. split; [apply find_duplicate_none|]. subst r.
  unfold gwyfile_object_find_duplicate_item.
  destruct (Z.ltb_spec (Z.of_nat (length (object_items o))) 2) as [L|L];
    cbn [fst snd object_items object_name object_name_len object_data_size].
  - split; [discriminate|]. split; [reflexivity|].
    split; [|auto].
    unfold items_sorted.
    destruct (object_items o) as [|x [|y l]]; cbn [length] in L; try lia;
      repeat constructor.
  - split; [|split; [apply qsort_perm | split; [apply qsort_sorted | auto]]].
    intros H.
    destruct (adjacent_duplicate_some _ _ (qsort_sorted _) H) as [H2 Hleast].
    rewrite (occurrences_perm name _ _ (qsort_perm _)) in H2.
    split; [exact H2|]. intros name' H'. apply Hleast.
    now rewrite (occurrences_perm name' _ _ (qsort_perm _)).
Qed.

(** ** The size of what is written *)

Lemma length_concat_strings sa :
  Z.of_nat (length (concat (map (fun s : list byte => s ++ [x00]) sa)))
  = sumZ (map (fun s => strlen s + 1) sa).
Proof.
  induction sa as [|s sa IH]; [reflexivity|].
  cbn [map concat]. rewrite sumZ_cons, !length_app, <- IH. cbn [length].
  unfold strlen. lia.
Qed.

Lemma encoded_length :
  (forall i, wf_item i -> Z.of_nat (length (encode_item i)) = item_size i)
  /\ (forall o, wf_object o ->
                Z.of_nat (length (encode_object o)) = gwyfile_object_size o).
Proof.
  apply tree_ind.
  - intros n l a d v Hleaf Hwf.
    destruct (wf_item_size _ _ _ _ _ Hwf) as (-> & _ & _ & _ & _).
    destruct Hwf as (_ & _ & _ & Hv). cbn [encode_item].
    rewrite !length_app. cbn [length]. unfold strlen.
    destruct v; try discriminate Hleaf;
      rewrite ?length_app, ?length_le_encode, ?length_concat_encoded;
      cbn [length]; try lia.
    + destruct Hv as (_ & -> & _). unfold strlen. lia.
    + destruct Hv as (_ & _ & -> & _).
      pose proof (length_concat_strings sa). lia.
  - intros n l a d o IH Hwf.
    destruct (wf_item_size _ _ _ _ _ Hwf) as (-> & _ & _ & _ & _).
    destruct Hwf as (_ & _ & _ & _ & -> & Hwo). cbn [encode_item].
    rewrite !length_app. cbn [length]. specialize (IH Hwo).
    unfold strlen. lia.
  - intros n l a d oa IH Hwf.
    destruct (wf_item_size _ _ _ _ _ Hwf) as (-> & _ & _ & _ & _).
    destruct Hwf as (_ & _ & _ & _ & _ & -> & Hwo).
    apply all_objects_Forall in Hwo. cbn [encode_item].
    rewrite !length_app, length_le_encode. cbn [length].
    enough (Z.of_nat (length (concat (map encode_object oa)))
            = sumZ (map gwyfile_object_size oa)) by (unfold strlen; lia).
    induction IH as [|o oa Ho _ IHoa]; [reflexivity|].
    apply Forall_cons in Hwo as [Hw1 Hw2].
    cbn [map concat]. rewrite sumZ_cons, length_app, <- (Ho Hw1), <- (IHoa Hw2).
    lia.
  - intros n l items d IH Hwf.
    destruct (wf_object_size _ _ _ _ Hwf) as (-> & _ & _).
    apply wf_object_inv in Hwf as (_ & _ & -> & _ & Hwi).
    cbn [encode_object]. rewrite !length_app, length_le_encode. cbn [length].
    enough (Z.of_nat (length (concat (map encode_item items)))
            = sumZ (map item_size items)) by (unfold strlen; lia).
    induction IH as [|i items Hi _ IHi]; [reflexivity|].
    apply Forall_cons in Hwi as [Hw1 Hw2].
    cbn [map concat]. rewrite sumZ_cons, length_app, <- (Hi Hw1), <- (IHi Hw2).
    lia.
Qed.

(** X3.  Writing a well-formed object succeeds and emits as many bytes as
    [gwyfile_object_size] says, the name and its nul first, then
    [data_size] in four bytes, least significant first; [gwyfile_fwrite]
    emits the four magic bytes more. *)
Theorem written_length_is_object_size (o : GwyfileObject) :
  wf_object o ->
  fst (gwyfile_object_fwrite o) = Ok tt
  /\ Z.of_nat (length (snd (gwyfile_object_fwrite o))) = gwyfile_object_size o
  /\ (exists items,
        snd (gwyfile_object_fwrite o)
        = object_name o ++ [x00] ++ le_encode 4 (object_data_size o) ++ items
        /\ Z.of_nat (length items) = object_data_size o)
  /\ fst (gwyfile_fwrite o) = Ok tt
  /\ Z.of_nat (length (snd (gwyfile_fwrite o))) = 4 + gwyfile_object_size o.
Proof.
  intros Hwf.
  rewrite (gwyfile_fwrite_encodes o Hwf), (proj2 tree_fwrite_encodes o Hwf).
  cbn [fst snd]. rewrite length_app, Nat2Z.inj_add.
  pose proof (proj2 encoded_length o Hwf) as Hlen. rewrite Hlen.
  split; [reflexivity|]. split; [reflexivity|].
  split; [|split; reflexivity].
  destruct o as [n nl items d].
  destruct (wf_object_size _ _ _ _ Hwf) as (Es & _ & _).
  exists (concat (map encode_item items)). split; [reflexivity|].
  cbn [encode_object object_data_size] in *.
  rewrite Es, !length_app, length_le_encode in Hlen. cbn [length] in Hlen.
  unfold strlen in Hlen. lia.
Qed.

Lemma written_length_is_object_size_witness :
  Z.of_nat (length (snd (gwyfile_object_fwrite sample_tree)))
  = gwyfile_object_size sample_tree.
Proof.
  refine (proj1 (proj2 (written_length_is_object_size sample_tree _))).
  by_evaluation.
Defined.

(** ** The tree that is read back *)

Lemma find_duplicate_result n nl items d :
  exists items',
    snd (gwyfile_object_find_duplicate_item (Object n nl items d))
    = Object n nl items' d
    /\ Permutation items' items /\ items_sorted items'.
Proof.
  unfold gwyfile_object_find_duplicate_item.
  cbn [object_items object_name object_name_len object_data_size].
  destruct (Z.ltb_spec (Z.of_nat (length items)) 2) as [L|L]; cbn [snd].
  - exists items. split; [reflexivity|]. split; [reflexivity|].
    unfold items_sorted.
    destruct items as [|x [|y l]]; cbn [length] in L; try lia;
      repeat constructor.
  - exists (qsort items). split; [reflexivity|].
    split; [apply qsort_perm | apply qsort_sorted].
Qed.

Lemma sorted_copy_items n nl items d :
  exists items',
    sorted_copy (Object n nl items d) = Object n nl items' d
    /\ Permutation items' (map item_sorted_copy items)
    /\ items_sorted items'.
Proof. cbn [sorted_copy]. apply find_duplicate_result. Qed.

Lemma sumZ_perm l1 l2 : Permutation l1 l2 -> sumZ l1 = sumZ l2.
Proof.
  induction 1 as [|x l1 l2 _ IH|x y l|l1 l2 l3 _ IH1 _ IH2];
    rewrite ?sumZ_cons; lia.
Qed.

Lemma map_item_size_sorted_copy items :
  map item_size (map item_sorted_copy items) = map item_size items.
Proof.
  rewrite map_map. apply map_ext. intros i. apply item_sorted_copy_size.
Qed.

Lemma map_object_size_sorted_copy oa :
  map gwyfile_object_size (map sorted_copy oa) = map gwyfile_object_size oa.
Proof.
  rewrite map_map. apply map_ext. intros o. apply sorted_copy_size.
Qed.

Lemma Forall_map_sorted_copy {A} (f : A -> A) (P : A -> Prop) l :
  Forall (fun x => P x -> P (f x)) l -> Forall P l -> Forall P (map f l).
Proof.
  induction 1 as [|x l Hx _ IH]; intros H; [constructor|].
  apply Forall_cons in H as [H1 H2]. cbn [map]. constructor; auto.
Qed.

Lemma sorted_copy_wf :
  (forall i, wf_item i -> wf_item (item_sorted_copy i))
  /\ (forall o, wf_object o -> wf_object (sorted_copy o)).
Proof.
  apply tree_ind.
  - intros n l a d v Hv H. destruct v; try discriminate; exact H.
  - intros n l a d o IH (Hn & Hl & Hb & Ha & Hd & Hwo).
    cbn [item_sorted_copy wf_item]. rewrite sorted_copy_size. auto 10.
  - intros n l a d oa IH (Hn & Hl & Hb & Ha & Hp & Hd & Hwo).
    apply all_objects_Forall in Hwo.
    cbn [item_sorted_copy wf_item].
    rewrite length_map, map_object_size_sorted_copy.
    repeat (split; [assumption|]).
    apply all_objects_Forall. now apply Forall_map_sorted_copy.
  - intros n l items d IH Hwf.
    apply wf_object_inv in Hwf as (Hn & Hl & Hd & Hlim & Hwi).
    destruct (sorted_copy_items n l items d) as (items' & -> & HP & _).
    apply wf_object_inv. repeat (split; [assumption|]).
    split.
    + rewrite Hd, <- map_item_size_sorted_copy.
      apply sumZ_perm. apply Permutation_map. now symmetry.
    + split; [assumption|]. rewrite HP. now apply Forall_map_sorted_copy.
Qed.

Lemma sorted_copy_distinct :
  (forall i, item_names_distinct i -> item_names_distinct (item_sorted_copy i))
  /\ (forall o, names_distinct o -> names_distinct (sorted_copy o)).
Proof.
  apply tree_ind.
  - intros n l a d v Hv H. destruct v; try discriminate; exact H.
  - intros n l a d o IH H. cbn [item_sorted_copy item_names_distinct] in *.
    auto.
  - intros n l a d oa IH H. apply names_distinct_objects in H.
    apply (names_distinct_objects n l a d). now apply Forall_map_sorted_copy.
  - intros n l items d IH [Hn Hi]%names_distinct_inv.
    destruct (sorted_copy_items n l items d) as (items' & -> & HP & _).
    apply names_distinct_inv. split.
    + rewrite HP, map_item_name_sorted_copy. exact Hn.
    + rewrite HP. now apply Forall_map_sorted_copy.
Qed.

Lemma sorted_copy_sorted :
  (forall i, item_names_sorted (item_sorted_copy i))
  /\ (forall o, names_sorted (sorted_copy o)).
Proof.
  apply tree_ind.
  - intros n l a d v Hv. destruct v; try discriminate; exact I.
  - intros n l a d o IH. exact IH.
  - intros n l a d oa IH. cbn [item_sorted_copy item_names_sorted].
    apply all_objects_Forall.
    induction IH; cbn [map]; constructor; auto.
  - intros n l items d IH.
    destruct (sorted_copy_items n l items d) as (items' & -> & HP & Hs).
    cbn [names_sorted]. split; [exact Hs|].
    apply all_items_Forall. rewrite HP. clear HP Hs.
    induction IH; cbn [map]; constructor; auto.
Qed.

Lemma deepest_items_perm (l1 l2 : list GwyfileItem) :
  Permutation l1 l2 ->
  foldr (fun i acc => Z.max (item_nesting i) acc) 0 l1
  = foldr (fun i acc => Z.max (item_nesting i) acc) 0 l2.
Proof.
  induction 1 as [|x l1 l2 _ IH|x y l|l1 l2 l3 _ IH1 _ IH2]; cbn [foldr];
    lia.
Qed.

Lemma object_nesting_foldr n nl items d :
  object_nesting (Object n nl items d)
  = 1 + foldr (fun i acc => Z.max (item_nesting i) acc) 0 items.
Proof.
  cbn [object_nesting]. f_equal.
Qed.

Lemma sorted_copy_nesting :
  (forall i, item_nesting (item_sorted_copy i) = item_nesting i)
  /\ (forall o, object_nesting (sorted_copy o) = object_nesting o).
Proof.
  apply tree_ind.
  - intros n l a d v Hv. destruct v; try discriminate; reflexivity.
  - intros n l a d o IH. exact IH.
  - intros n l a d oa IH. cbn [item_sorted_copy item_nesting].
    induction IH as [|o oa Ho _ IHoa]; [reflexivity|].
    cbn [map]. now rewrite Ho, IHoa.
  - intros n l items d IH.
    destruct (sorted_copy_items n l items d) as (items' & -> & HP & _).
    rewrite !object_nesting_foldr. f_equal.
    rewrite (deepest_items_perm _ _ HP). clear HP.
    induction IH as [|i items Hi _ IHi]; [reflexivity|].
    cbn [map foldr]. now rewrite Hi, IHi.
Qed.

(** X4.  What is read from a written file.  For a well-formed tree within
    the depth limit whose item names are distinct in every object,
    [gwyfile_fread] on the bytes written by [gwyfile_fwrite] returns the tree
    with the items of every object in ascending order of their names and
    nothing else changed: the same items, the same sizes.  The tree read
    is read back unchanged when it is written in turn. *)
Theorem written_tree_is_read_in_name_order junk o rest max_size :
  wf_object o -> names_distinct o ->
  object_nesting o <= GWYFILE_MAX_DEPTH ->
  4 + gwyfile_object_size o <= max_size -> max_size < 2 ^ 64 ->
  let o' := sorted_copy o in
  gwyfile_fread junk (snd (gwyfile_fwrite o) ++ rest) max_size = Ok (o', rest)
  /\ Permutation (object_items o') (map item_sorted_copy (object_items o))
  /\ names_sorted o'
  /\ gwyfile_object_size o' = gwyfile_object_size o
  /\ object_nesting o' = object_nesting o
  /\ gwyfile_fread junk (snd (gwyfile_fwrite o') ++ rest) max_size
     = Ok (o', rest).
Proof.
  intros Hwf Hd Hfit Hs Hm o'. subst o'.
  assert (R : forall t, wf_object t -> names_distinct t ->
                object_nesting t <= GWYFILE_MAX_DEPTH ->
                4 + gwyfile_object_size t <= max_size ->
                gwyfile_fread junk (snd (gwyfile_fwrite t) ++ rest) max_size
                = Ok (sorted_copy t, rest)).
  { intros t Hwt Hdt Hft Hst.
    rewrite (gwyfile_fwrite_encodes t Hwt). cbn [snd]. rewrite <- app_assoc.
    destruct (gwyfile_fread_encoded junk t rest max_size Hwt Hst Hm)
      as [(F & D & E) | [(F & E) | (D & E)]]; tauto. }
  split; [now apply R|].
  split.
  { destruct o as [n nl items d].
    destruct (sorted_copy_items n nl items d) as (items' & -> & HP & _).
    exact HP. }
  split; [apply sorted_copy_sorted|].
  split; [apply sorted_copy_size|].
  split; [apply sorted_copy_nesting|].
  rewrite R.
  - now rewrite (proj2 sorted_copy_id _ (proj2 sorted_copy_sorted o)).
  - now apply sorted_copy_wf.
  - now apply sorted_copy_distinct.
  - now rewrite (proj2 sorted_copy_nesting).
  - now rewrite sorted_copy_size.
Qed.

Lemma written_tree_is_read_in_name_order_witness :
  gwyfile_fread (fun _ => x00) (snd (gwyfile_fwrite tree_b_then_a) ++ [])
    SIZE_MAX
  = Ok (sorted_copy tree_b_then_a, []).
Proof.
  refine (proj1 (written_tree_is_read_in_name_order (fun _ => x00)
                   tree_b_then_a [] SIZE_MAX _ _ _ _ _)).
  - by_evaluation.
  - by_evaluation.
  - by_evaluation.
  - by_evaluation.
  - reflexivity.
Defined.

(** ** What the reading primitives return, on any stream *)

Lemma consumed_app c rest lo hi :
  lo <= Z.of_nat (length c) <= hi -> consumed (c ++ rest) rest lo hi.
Proof. intros H. now exists c. Qed.

Lemma consumed_step stream mid rest lo1 hi1 lo2 hi2 lo hi :
  consumed stream mid lo1 hi1 -> consumed mid rest lo2 hi2 ->
  lo <= lo1 + lo2 -> hi1 + hi2 <= hi ->
  consumed stream rest lo hi.
Proof.
  intros (c1 & -> & H1) (c2 & -> & H2) Hlo Hhi.
  exists (c1 ++ c2). rewrite <- app_assoc. split; [reflexivity|].
  rewrite length_app. lia.
Qed.

Lemma consumed_length stream rest lo hi :
  consumed stream rest lo hi ->
  lo <= Z.of_nat (length stream) - Z.of_nat (length rest) <= hi.
Proof. intros (c & -> & H). rewrite length_app. lia. Qed.

Lemma fread_spec size n stream :
  0 < size -> 0 <= n ->
  let '(k, got, rest) := fread size n stream in
  stream = got ++ rest /\ Z.of_nat (length got) <= size * n
  /\ k = Z.of_nat (length got) / size.
Proof.
  intros Hs Hn. unfold fread.
  split; [symmetry; apply firstn_skipn|]. split; [|reflexivity].
  rewrite length_take. lia.
Qed.

Lemma gwyfile_fread_le_spec size n stream :
  0 < size -> 0 <= n ->
  let '(ok, got, rest) := gwyfile_fread_le size n stream in
  stream = got ++ rest /\ Z.of_nat (length got) <= size * n
  /\ (ok = true -> Z.of_nat (length got) = size * n).
Proof.
  intros Hs Hn. unfold gwyfile_fread_le.
  pose proof (fread_spec size n stream Hs Hn) as H.
  destruct (fread size n stream) as [[k got] rest].
  destruct H as (H1 & H2 & ->). split; [exact H1|]. split; [exact H2|].
  intros E%Z.eqb_eq.
  pose proof (Z.mul_div_le (Z.of_nat (length got)) size Hs) as Hd.
  rewrite E in Hd. lia.
Qed.

Lemma fread_byte_spec stream :
  let '(n, buf, rest) := fread 1 1 stream in
  if n =? 1 then exists b, stream = b :: rest /\ buf = [b] else True.
Proof.
  destruct stream as [|b stream]; [exact I|].
  cbn. exists b. split; reflexivity.
Qed.

Lemma gwyfile_check_size_spec max_size size :
  match gwyfile_check_size max_size size with
  | Ok m => size <= max_size /\ m = size_t (max_size - size)
  | Fail _ => True
  | _ => False
  end.
Proof.
  unfold gwyfile_check_size.
  destruct (Z.ltb_spec max_size size); [exact I|]. auto.
Qed.

Lemma buffer_size_grows size max_size :
  buffer_size size max_size -> 0 <= size < 2147483648 -> size < max_size ->
  let size' := u32 (gwyfile_min (gwyfile_max (u32 (2 * size)) 16) max_size) in
  size < size' /\ size' <= max_size /\ buffer_size size' max_size.
Proof.
  intros [Hb Hp] Hs Hm. cbv zeta.
  rewrite (u32_small (2 * size)) by lia.
  assert (Hg : exists g, gwyfile_max (2 * size) 16 = g /\ size < g
                         /\ g <= 2147483648
                         /\ exists k : nat, (k <= 27)%nat /\ g = 16 * 2 ^ Z.of_nat k).
  { unfold gwyfile_max. destruct Hp as [E | [E | (k & Hk & E)]]; [lia| |].
    - subst size. exists 16. cbn. repeat split; try lia. exists 0%nat. split; [lia | reflexivity].
    - assert (k <= 26)%nat.
      { destruct (Nat.eq_dec k 27%nat) as [->|]; [|lia]. subst size.
        change (16 * 2 ^ Z.of_nat 27) with 2147483648 in Hs. lia. }
      assert (E2 : 2 * size = 16 * 2 ^ Z.of_nat (S k)).
      { rewrite Nat2Z.inj_succ, Z.pow_succ_r by lia. lia. }
      assert (0 < 2 ^ Z.of_nat k) by (apply Z.pow_pos_nonneg; lia).
      assert (2 ^ Z.of_nat (S k) <= 2 ^ 27)
        by (apply Z.pow_le_mono_r; lia).
      exists (2 * size).
      destruct (Z.ltb_spec (2 * size) 16); [lia|].
      split; [reflexivity|]. split; [lia|]. split; [lia|].
      exists (S k). split; [lia | exact E2]. }
  destruct Hg as (g & -> & Hg1 & Hg2 & Hg3).
  unfold gwyfile_min. destruct (Z.gtb_spec g max_size).
  - rewrite u32_small by lia. split; [lia|]. split; [lia|].
    split; [lia | now left].
  - rewrite u32_small by lia. split; [lia|]. split; [lia|].
    split; [lia | right; right; exact Hg3].
Qed.

Lemma fread_string_loop_spec stream max_size len size :
  0 <= len <= size -> size <= max_size -> buffer_size size max_size ->
  match fread_string_loop stream max_size len size with
  | Ok (s, len', rest) =>
      stream = s ++ x00 :: rest /\ Forall (fun b => b <> x00) s
      /\ len' = len + strlen s + 1 /\ len' <= max_size
      /\ len' <= 2147483648
  | Fail _ => True
  | _ => False
  end.
Proof.
  revert len size.
  induction stream as [|c stream IH]; intros len size Hl Hs Hb;
    cbn [fread_string_loop]; [exact I|].
  assert (Hstep : forall size', len < size' -> size' <= max_size ->
                    buffer_size size' max_size ->
            match
              (let len' := u32 (len + 1) in
               if byte_eqb c x00 then Ok ([], len', stream)
               else
                 let* (s, len'', rest) :=
                   fread_string_loop stream max_size len' size' in
                 Ok (c :: s, len'', rest))
            with
            | Ok (s, len', rest) =>
                c :: stream = s ++ x00 :: rest /\ Forall (fun b => b <> x00) s
                /\ len' = len + strlen s + 1 /\ len' <= max_size
                /\ len' <= 2147483648
            | Fail _ => True
            | _ => False
            end).
  { intros size' H1 H2 H3. cbv zeta. pose proof (proj1 H3).
    rewrite u32_small by lia.
    destruct (byte_eqb_spec c x00) as [->|Hc].
    - repeat split; try constructor; unfold strlen; cbn [length]; lia.
    - specialize (IH (len + 1) size' ltac:(lia) H2 H3).
      destruct (fread_string_loop stream max_size (len + 1) size')
        as [[[s len''] rest]|e| |]; cbn [bind]; auto.
      destruct IH as (-> & Hn & -> & Hm & Hx).
      repeat split; auto; unfold strlen in *; cbn [length]; lia. }
  destruct (Z.eqb_spec len size) as [E|E].
  - destruct (Z.eqb_spec len max_size); [exact I|].
    destruct (Z.geb_spec size 2147483648); [exact I|].
    cbn [bind].
    destruct (buffer_size_grows size max_size Hb ltac:(lia) ltac:(lia))
      as (G1 & G2 & G3).
    apply Hstep; auto; lia.
  - cbn [bind]. apply Hstep; auto; lia.
Qed.

Lemma gwyfile_fread_string_spec stream max_size :
  0 <= max_size < 2 ^ 64 ->
  match gwyfile_fread_string stream max_size with
  | Ok (s, m, rest) =>
      stream = s ++ x00 :: rest /\ cstring_ok s
      /\ strlen s + 1 <= max_size /\ m = max_size - (strlen s + 1)
  | Fail _ => True
  | _ => False
  end.
Proof.
  intros Hm. unfold gwyfile_fread_string.
  destruct (Z.eqb_spec max_size 0); [exact I|].
  pose proof (fread_string_loop_spec stream max_size 0 0 ltac:(lia) ltac:(lia))
    as H.
  destruct (fread_string_loop stream max_size 0 0) as [[[s len] rest]|e| |];
    cbn [bind]; auto.
  - destruct H as (-> & Hn & -> & H1 & H2).
    { split; [lia | right; now left]. }
    pose proof (strlen_nonneg s).
    split; [reflexivity|]. split; [split; [assumption | lia]|].
    split; [lia|]. rewrite size_t_small by lia. lia.
  - apply H. split; [lia | right; now left].
  - apply H. split; [lia | right; now left].
Qed.

Lemma fread_string_array_spec n stream max_size :
  0 <= max_size < 2 ^ 64 ->
  match fread_string_array n stream max_size with
  | Ok (sa, m, rest) =>
      stream = concat (map (fun s => s ++ [x00]) sa) ++ rest
      /\ length sa = n /\ Forall cstring_ok sa
      /\ sumZ (map (fun s => strlen s + 1) sa) <= max_size
      /\ m = max_size - sumZ (map (fun s => strlen s + 1) sa)
  | Fail _ => True
  | _ => False
  end.
Proof.
  revert stream max_size.
  induction n as [|n IH]; intros stream max_size Hm; cbn [fread_string_array].
  - repeat split; try constructor; unfold sumZ; cbn; lia.
  - pose proof (gwyfile_fread_string_spec stream max_size Hm) as H.
    destruct (gwyfile_fread_string stream max_size) as [[[s m] rest]|e| |];
      cbn [bind]; auto.
    destruct H as (-> & Hs & Hb & ->). pose proof (strlen_nonneg s).
    specialize (IH rest (max_size - (strlen s + 1)) ltac:(lia)).
    destruct (fread_string_array n rest (max_size - (strlen s + 1)))
      as [[[sa m] rest']|e| |]; cbn [bind]; auto.
    destruct IH as (-> & Hl & Hsa & Hsum & ->).
    cbn [map concat length]. rewrite sumZ_cons, <- !app_assoc. cbn [app].
    repeat split; auto; lia.
Qed.

Lemma length_chunks n k bs : length (chunks n k bs) = n.
Proof.
  revert bs. induction n as [|n IH]; intros bs; cbn [chunks length]; auto.
Qed.

Lemma chunks_lengths n k bs :
  length bs = (n * k)%nat -> Forall (fun c => length c = k) (chunks n k bs).
Proof.
  revert bs. induction n as [|n IH]; intros bs H; cbn [chunks]; constructor.
  - rewrite length_take. lia.
  - apply IH. rewrite length_skipn. lia.
Qed.

Lemma signed_range bits x :
  0 < bits -> 0 <= x < 2 ^ bits -> in_range bits (signed bits x).
Proof.
  intros Hb Hx. unfold in_range, signed.
  assert (E : 2 ^ bits = 2 * 2 ^ (bits - 1)).
  { rewrite <- Z.pow_succ_r by lia. f_equal. lia. }
  destruct (Z.ltb_spec x (2 ^ (bits - 1))); lia.
Qed.

Lemma decode_array_spec (k : nat) bits n buf :
  bits = 8 * Z.of_nat k -> (0 < k)%nat -> 0 <= n ->
  Z.of_nat (length buf) = Z.of_nat k * n ->
  Z.of_nat (length (decode_array bits k n buf)) = n
  /\ Forall (in_range bits) (decode_array bits k n buf).
Proof.
  intros -> Hk Hn Hl. unfold decode_array.
  rewrite length_map, length_chunks. split; [lia|].
  apply Forall_map.
  eapply Forall_impl; [apply (chunks_lengths (Z.to_nat n) k); nia|].
  intros c Hc. cbn beta. apply signed_range; [lia|].
  pose proof (le_decode_range c) as Hr. rewrite Hc in Hr.
  replace (2 ^ (8 * Z.of_nat k)) with (256 ^ Z.of_nat k); [exact Hr|].
  replace 256 with (2 ^ 8) by reflexivity. now rewrite <- Z.pow_mul_r by lia.
Qed.

Lemma decode_double_array_spec n buf :
  0 <= n -> Z.of_nat (length buf) = 8 * n ->
  Z.of_nat (length (decode_double_array n buf)) = n
  /\ Forall (fun d => 0 <= d < 2 ^ 64) (decode_double_array n buf).
Proof.
  intros Hn Hl. unfold decode_double_array.
  rewrite length_map, length_chunks. split; [lia|].
  apply Forall_map.
  eapply Forall_impl; [apply (chunks_lengths (Z.to_nat n) 8); lia|].
  intros c Hc. cbn beta.
  pose proof (le_decode_range c) as Hr. rewrite Hc in Hr. exact Hr.
Qed.

Lemma length_partial_buffer junk got alen :
  Z.of_nat (length got) <= alen ->
  Z.of_nat (length (partial_buffer junk got alen)) = alen.
Proof.
  intros H. unfold partial_buffer.
  rewrite length_app, length_map, length_seq. lia.
Qed.

(** ** The outcome of the reader on any stream *)

Lemma type_cases (b : byte) :
  gwyfile_item_type_is_valid (char_to_int b) = true ->
  In (char_to_int b) valid_types.
Proof.
  destruct b; vm_compute; intros H;
    first [ discriminate H | repeat first [left; reflexivity | right] ].
Qed.

Lemma wf_parts_size o :
  wf_parts o ->
  gwyfile_object_size o = strlen (object_name o) + 5 + object_data_size o.
Proof.
  intros ([_ Hn] & Hl & _ & Hd & _). unfold gwyfile_object_size.
  pose proof (strlen_nonneg (object_name o)).
  rewrite Hl, u32_small, size_t_small by lia. lia.
Qed.

Lemma wf_parts_wf o :
  wf_parts o -> gwyfile_object_size o <= 4294967295 -> wf_object o.
Proof.
  intros H Hs. rewrite (wf_parts_size o H) in Hs.
  destruct o as [n nl items d]. destruct H as (Hn & Hl & Hd & Hr & Hi).
  cbn [object_name object_name_len object_data_size object_items] in *.
  apply wf_object_inv. repeat split; auto; try apply Hn. lia.
Qed.

Lemma names_sorted_objects n nl a dsz oa :
  item_names_sorted (Item n nl a dsz (v_oa oa)) <-> Forall names_sorted oa.
Proof. cbn [item_names_sorted]. now rewrite all_objects_Forall. Qed.

Lemma names_sorted_inv n nl items dsz :
  names_sorted (Object n nl items dsz)
  <-> items_sorted items /\ Forall item_names_sorted items.
Proof. cbn [names_sorted]. now rewrite all_items_Forall. Qed.

Lemma good_leaf d n nl a dsz v :
  is_leaf v = true -> 0 <= d <= GWYFILE_MAX_DEPTH ->
  good_item d (Item n nl a dsz v).
Proof.
  intros Hv Hd. unfold good_item.
  destruct v; try discriminate; cbn; repeat split; lia.
Qed.

Lemma item_outcome_ok fuel name alen dsz v stream rest c max_size d :
  stream = c ++ rest -> cstring_ok name ->
  2 <= Z.of_nat (length c) <= strlen name + 2 + dsz -> 0 <= dsz ->
  strlen name + 2 + dsz <= max_size -> max_size < 2 ^ 64 ->
  good_item d (Item name (u32 (strlen name)) alen dsz v) ->
  (max_size < 2 ^ 32 -> wf_item (Item name (strlen name) alen dsz v)) ->
  item_outcome fuel stream max_size d
    (Ok (set_sizes (gwyfile_item_new_internal name v) alen dsz, rest)).
Proof.
  intros -> [Hn Hb] Hc Hd Hs Hm Hg Hw.
  pose proof (strlen_nonneg name).
  unfold gwyfile_item_new_internal, set_sizes, item_outcome.
  assert (E : item_size (Item name (u32 (strlen name)) alen dsz v)
              = strlen name + 2 + dsz).
  { unfold item_size. cbn [item_name_len item_data_size].
    rewrite (u32_small (strlen name)) by lia.
    rewrite u32_small, size_t_small by lia. lia. }
  rewrite E. split; [now apply consumed_app|]. split; [exact Hs|].
  split; [exact Hg|]. rewrite (u32_small (strlen name)) by lia. exact Hw.
Qed.

Lemma array_length_spec t m s2 :
  0 <= m < 2 ^ 64 ->
  match
    (if gwyfile_item_type_is_array t then
       let* max_size := gwyfile_check_size m 4 in
       let '(ok, buf, stream) := gwyfile_fread_le 4 1 s2 in
       if negb ok then error_fread
       else
         let alen := le_decode buf in
         if alen =? 0 then Fail (DataError GWYFILE_ERROR_ARRAY_SIZE)
         else Ok (alen, max_size, stream)
     else Ok (0, m, s2))
  with
  | Ok (alen, m', s3) =>
      if gwyfile_item_type_is_array t then
        4 <= m /\ m' = m - 4 /\ 0 < alen < 2 ^ 32
        /\ exists buf, s2 = buf ++ s3 /\ length buf = 4%nat
      else alen = 0 /\ m' = m /\ s3 = s2
  | Fail _ => True
  | _ => False
  end.
Proof.
  intros Hm. destruct (gwyfile_item_type_is_array t); [|auto].
  pose proof (gwyfile_check_size_spec m 4) as S1.
  destruct (gwyfile_check_size m 4) as [m'|err| |]; cbn [bind]; auto.
  destruct S1 as (Hb & ->). rewrite size_t_small by lia.
  pose proof (gwyfile_fread_le_spec 4 1 s2 ltac:(lia) ltac:(lia)) as S2.
  destruct (gwyfile_fread_le 4 1 s2) as [[ok buf] s3].
  destruct S2 as (-> & _ & Hok). destruct ok; cbn [negb]; [|exact I].
  specialize (Hok eq_refl).
  pose proof (le_decode_range buf) as Hr.
  replace (length buf) with 4%nat in Hr by lia.
  change (256 ^ Z.of_nat 4) with (2 ^ 32) in Hr.
  cbv zeta. destruct (Z.eqb_spec (le_decode buf) 0); [exact I|].
  repeat split; try lia. exists buf. split; [reflexivity | lia].
Qed.

Lemma object_size_in_sum o oa :
  In o oa -> gwyfile_object_size o <= sumZ (map gwyfile_object_size oa).
Proof.
  induction oa as [|x oa IH]; [intros []|].
  cbn [map]. rewrite sumZ_cons. pose proof (object_size_nonneg x).
  assert (0 <= sumZ (map gwyfile_object_size oa))
    by (apply sumZ_nonneg; intros; apply object_size_nonneg).
  intros [->|Hin]; [lia|]. specialize (IH Hin). lia.
Qed.

Section Outcomes.

Variable junk : nat -> byte.
Variable fuel : nat.

Hypothesis object_outcomes :
  forall stream max_size d, 0 <= max_size < 2 ^ 64 -> 0 <= d ->
    object_outcome fuel stream max_size d
      (gwyfile_object_fread_internal junk fuel stream max_size d).
Hypothesis items_outcomes :
  forall stream data_size d object,
    0 <= d < GWYFILE_MAX_DEPTH ->
    0 <= object_data_size object <= data_size -> data_size < 2 ^ 32 ->
    items_outcome fuel stream data_size d object
      (object_fread_items junk fuel stream data_size d object).
Hypothesis item_outcomes :
  forall stream max_size d, 0 <= max_size < 2 ^ 64 ->
    0 <= d <= GWYFILE_MAX_DEPTH ->
    item_outcome fuel stream max_size d
      (gwyfile_item_fread_internal junk fuel stream max_size d).
Hypothesis objects_outcomes :
  forall stream max_size d n, 0 <= max_size < 2 ^ 64 -> 0 <= d ->
    objects_outcome fuel stream max_size d n
      (item_fread_object_array junk fuel stream max_size d n).

Lemma objects_step stream max_size d n :
  0 <= max_size < 2 ^ 64 -> 0 <= d ->
  objects_outcome (S fuel) stream max_size d n
    (item_fread_object_array junk (S fuel) stream max_size d n).
Proof.
  intros Hm Hd. cbn [item_fread_object_array].
  destruct n as [|n].
  - cbn. split; [reflexivity|]. split; [apply (consumed_app []); cbn; lia|].
    split; [unfold sumZ; cbn; lia|]. split; constructor.
  - pose proof (object_outcomes stream max_size d Hm Hd) as H1.
    destruct (gwyfile_object_fread_internal junk fuel stream max_size d)
      as [[o s1]|e| |]; cbn [bind]; try exact I; try contradiction.
    + destruct H1 as (Hc & Hs & Hg & Hw).
      pose proof (object_size_nonneg o).
      destruct (Z.leb_spec (gwyfile_object_size o) max_size); [|lia].
      cbn [assert bind]. rewrite size_t_small by lia.
      pose proof (objects_outcomes s1 (max_size - gwyfile_object_size o) d n
                    ltac:(lia) Hd) as H2.
      destruct (item_fread_object_array junk fuel s1
                  (max_size - gwyfile_object_size o) d n)
        as [[oa rest]|e| |]; cbn [bind]; try exact I; try contradiction.
      * destruct H2 as (Hl & Hc2 & Hs2 & Hg2 & Hw2).
        cbn [objects_outcome map length]. rewrite sumZ_cons.
        split; [now rewrite Hl|].
        split; [apply (consumed_step _ _ _ _ _ _ _ _ _ Hc Hc2); lia|].
        split; [lia|]. split; constructor; auto.
      * cbn [objects_outcome] in *.
        apply consumed_length in Hc. lia.
    + cbn [objects_outcome object_outcome] in *. lia.
Qed.

Lemma items_step stream data_size d object :
  0 <= d < GWYFILE_MAX_DEPTH ->
  0 <= object_data_size object <= data_size -> data_size < 2 ^ 32 ->
  items_outcome (S fuel) stream data_size d object
    (object_fread_items junk (S fuel) stream data_size d object).
Proof.
  intros Hd Ha Hs. cbn [object_fread_items].
  destruct (Z.ltb_spec (object_data_size object) data_size) as [L|L].
  - rewrite (u32_small (data_size - _)) by lia.
    rewrite (u32_small (d + 1)) by (unfold GWYFILE_MAX_DEPTH in *; lia).
    pose proof (item_outcomes stream (data_size - object_data_size object)
                  (d + 1) ltac:(lia) ltac:(lia)) as H1.
    destruct (gwyfile_item_fread_internal junk fuel stream
                (data_size - object_data_size object) (d + 1))
      as [[i s1]|e| |]; cbn [bind]; try exact I; try contradiction.
    + destruct H1 as (Hc & Hsz & Hg & Hw).
      pose proof (item_size_nonneg i).
      unfold gwyfile_object_append. rewrite size_t_small by lia.
      destruct (Z.geb_spec (object_data_size object + item_size i)
                  (object_data_size object)); [|lia].
      cbn [assert bind].
      pose proof (items_outcomes s1 data_size d
                    (Object (object_name object) (object_name_len object)
                       (object_items object ++ [i])
                       (object_data_size object + item_size i))
                    Hd ltac:(cbn; lia) Hs) as H2.
      destruct (object_fread_items junk fuel s1 data_size d _)
        as [[o rest]|e| |]; cbn [bind]; try exact I; try contradiction.
      * destruct H2 as (more & -> & Hsum & Hc2 & Hg2 & Hw2).
        cbn [object_name object_name_len object_items object_data_size] in *.
        exists (i :: more). rewrite <- app_assoc. cbn [app map].
        rewrite sumZ_cons.
        split; [reflexivity|]. split; [lia|].
        split; [apply (consumed_step _ _ _ _ _ _ _ _ _ Hc Hc2); lia|].
        split; constructor; auto. apply Hw. lia.
      * cbn [items_outcome] in *. apply consumed_length in Hc. lia.
    + cbn [items_outcome item_outcome] in *. lia.
  - exists []. destruct object as [n nl items acc].
    cbn [object_name object_name_len object_items object_data_size] in *.
    rewrite app_nil_r. replace acc with data_size by lia.
    split; [reflexivity|]. split; [unfold sumZ; cbn; lia|].
    split; [apply (consumed_app []); cbn; lia|]. split; constructor.
Qed.

Lemma object_step stream max_size d :
  0 <= max_size < 2 ^ 64 -> 0 <= d ->
  object_outcome (S fuel) stream max_size d
    (gwyfile_object_fread_internal junk (S fuel) stream max_size d).
Proof.
  intros Hm Hd. cbn [gwyfile_object_fread_internal].
  destruct (Z.geb_spec d GWYFILE_MAX_DEPTH); [exact I|].
  pose proof (gwyfile_fread_string_spec stream max_size Hm) as S1.
  destruct (gwyfile_fread_string stream max_size) as [[[name m1] s1]|e| |];
    cbn [bind]; try exact I; try contradiction.
  destruct S1 as (-> & Hname & Hb1 & ->). pose proof (strlen_nonneg name).
  pose proof (gwyfile_check_size_spec (max_size - (strlen name + 1)) 4) as S2.
  destruct (gwyfile_check_size (max_size - (strlen name + 1)) 4)
    as [m2|e| |]; cbn [bind]; try exact I; try contradiction.
  destruct S2 as (Hb2 & ->). rewrite size_t_small by lia.
  pose proof (gwyfile_fread_le_spec 4 1 s1 ltac:(lia) ltac:(lia)) as S3.
  destruct (gwyfile_fread_le 4 1 s1) as [[ok buf] s2].
  destruct S3 as (-> & _ & Hok). destruct ok; cbn [negb]; [|exact I].
  specialize (Hok eq_refl).
  pose proof (le_decode_range buf) as Hr.
  replace (length buf) with 4%nat in Hr by lia.
  change (256 ^ Z.of_nat 4) with (2 ^ 32) in Hr.
  set (dsz := le_decode buf) in *.
  destruct (Z.ltb_spec (max_size - (strlen name + 1) - 4) dsz); [exact I|].
  unfold gwyfile_object_new_internal.
  destruct Hname as [Hnul Hlen].
  rewrite (u32_small (strlen name)) by lia.
  pose proof (items_outcomes s2 dsz d (Object name (strlen name) [] 0)
                ltac:(lia) ltac:(cbn; lia) ltac:(lia)) as Hloop.
  destruct (object_fread_items junk fuel s2 dsz d
              (Object name (strlen name) [] 0))
    as [[o1 rest]|e| |]; cbn [bind]; try exact I; try contradiction.
  - destruct Hloop as (more & -> & Hsum & Hc & Hg & Hw).
    cbn [object_name object_name_len object_items object_data_size app] in *.
    rewrite Z.eqb_refl. cbn [assert bind].
    pose proof (find_duplicate_none (Object name (strlen name) more dsz))
      as Hdup.
    destruct (find_duplicate_result name (strlen name) more dsz)
      as (items' & E & HP & Hsorted).
    destruct (gwyfile_object_find_duplicate_item
                (Object name (strlen name) more dsz)) as [[dup|] o'];
      [exact I|].
    cbn [fst snd object_items] in *. subst o'.
    assert (Hparts : wf_parts (Object name (strlen name) items' dsz)).
    { unfold wf_parts.
      cbn [object_name object_name_len object_items object_data_size].
      split; [split; assumption|]. split; [reflexivity|].
      split; [rewrite (sumZ_perm _ _ (Permutation_map item_size HP)); lia|].
      split; [lia|]. now rewrite HP. }
    cbn [object_outcome]. rewrite (wf_parts_size _ Hparts).
    cbn [object_name object_data_size].
    split.
    { apply (consumed_step _ s2 _ (strlen name + 5) (strlen name + 5) 0 dsz);
        [|replace (dsz - 0) with dsz in Hc by lia; exact Hc|lia|lia].
      exists (name ++ x00 :: buf). rewrite <- app_assoc. cbn [app].
      split; [reflexivity|]. rewrite length_app. cbn [length].
      unfold strlen. lia. }
    split; [lia|]. split; [|exact Hparts].
    unfold good_object. split; [|split].
    + apply names_distinct_inv. split.
      * rewrite HP. now apply Hdup.
      * rewrite HP. eapply Forall_impl; [exact Hg|]. intros i Hi. apply Hi.
    + apply names_sorted_inv. split; [exact Hsorted|].
      rewrite HP. eapply Forall_impl; [exact Hg|]. intros i Hi. apply Hi.
    + apply fits_items. split; [lia|].
      rewrite HP. eapply Forall_impl; [exact Hg|]. intros i Hi. apply Hi.
  - cbn [object_outcome items_outcome] in *.
    rewrite length_app. cbn [length]. rewrite length_app. lia.
Qed.

Lemma item_step stream max_size d :
  0 <= max_size < 2 ^ 64 -> 0 <= d <= GWYFILE_MAX_DEPTH ->
  item_outcome (S fuel) stream max_size d
    (gwyfile_item_fread_internal junk (S fuel) stream max_size d).
Proof.
  intros Hm Hd. cbn [gwyfile_item_fread_internal].
  pose proof (gwyfile_fread_string_spec stream max_size Hm) as S1.
  destruct (gwyfile_fread_string stream max_size) as [[[name m1] s1]|err| |];
    cbn [bind]; try exact I; try contradiction.
  destruct S1 as (-> & Hname & Hb1 & ->). pose proof (strlen_nonneg name) as Hn0.
  pose proof (gwyfile_check_size_spec (max_size - (strlen name + 1)) 1) as S2.
  destruct (gwyfile_check_size (max_size - (strlen name + 1)) 1)
    as [m2|err| |]; cbn [bind]; try exact I; try contradiction.
  destruct S2 as (Hb2 & ->). rewrite size_t_small by lia.
  pose proof (fread_byte_spec s1) as S3.
  destruct (fread 1 1 s1) as [[k buf] s2].
  destruct (Z.eqb_spec k 1) as [Ek|Ek]; cbn [negb]; [|exact I].
  destruct S3 as (b & -> & ->). cbn [hd].
  destruct (gwyfile_item_type_is_valid (char_to_int b)) eqn:Ev; cbn [negb];
    [|exact I].
  apply type_cases in Ev. generalize dependent (char_to_int b). intros t Ht.
  set (m := max_size - (strlen name + 1) - 1) in *.
  assert (Hhead : forall c rest, s2 = c ++ rest ->
            name ++ x00 :: b :: s2 = (name ++ x00 :: b :: c) ++ rest).
  { intros c rest ->. rewrite <- app_assoc. reflexivity. }
  assert (Hlen : forall c, Z.of_nat (length (name ++ x00 :: b :: c))
                           = strlen name + 2 + Z.of_nat (length c)).
  { intros c. rewrite length_app. cbn [length]. unfold strlen. lia. }
  assert (Hm' : 0 <= m < 2 ^ 64) by lia.
  match goal with
  | |- item_outcome _ _ _ _ (bind ?e _) =>
      pose proof (array_length_spec t m s2 Hm') as Sa;
      destruct e as [[[alen m3] s3]|err| |]; cbn [bind];
      try exact I; try contradiction
  end.
  cbn [In] in Ht.
  repeat (destruct Ht as [<-|Ht]); [..|contradiction].
  - (* bool *)
    change (gwyfile_item_type_is_array GWYFILE_ITEM_BOOL) with false in Sa.
    destruct Sa as (-> & -> & ->).
    unfold GWYFILE_ITEM_BOOL at 1. decide_type_tests.
    pose proof (gwyfile_check_size_spec m 1) as S4.
    destruct (gwyfile_check_size m 1) as [m4|err| |]; cbn [bind];
      try exact I; try contradiction.
    pose proof (fread_byte_spec s2) as S5.
    destruct (fread 1 1 s2) as [[k5 buf5] rest].
    destruct (Z.eqb_spec k5 1) as [Ek5|Ek5]; [|exact I].
    destruct S5 as (b5 & -> & ->).
    apply (item_outcome_ok _ _ _ _ _ _ _ _ _ _ (Hhead [b5] rest eq_refl));
      rewrite ?Hlen; cbn [length]; auto; try lia.
    + now apply good_leaf.
    + intros Hx. cbn [wf_item]. repeat split; try apply Hname; lia.
  - (* char *)
    change (gwyfile_item_type_is_array GWYFILE_ITEM_CHAR) with false in Sa.
    destruct Sa as (-> & -> & ->).
    unfold GWYFILE_ITEM_CHAR. decide_type_tests.
    pose proof (gwyfile_check_size_spec m 1) as S4.
    destruct (gwyfile_check_size m 1) as [m4|err| |]; cbn [bind];
      try exact I; try contradiction.
    pose proof (fread_byte_spec s2) as S5.
    destruct (fread 1 1 s2) as [[k5 buf5] rest].
    destruct (Z.eqb_spec k5 1) as [Ek5|Ek5]; [|exact I].
    destruct S5 as (b5 & -> & ->).
    apply (item_outcome_ok _ _ _ _ _ _ _ _ _ _ (Hhead [b5] rest eq_refl));
      rewrite ?Hlen; cbn [length]; auto; try lia.
    + now apply good_leaf.
    + intros Hx. cbn [wf_item]. repeat split; try apply Hname; lia.
  - (* int32 *)
    change (gwyfile_item_type_is_array GWYFILE_ITEM_INT32) with false in Sa.
    destruct Sa as (-> & -> & ->).
    unfold GWYFILE_ITEM_INT32. decide_type_tests.
    pose proof (gwyfile_check_size_spec m 4) as S4.
    destruct (gwyfile_check_size m 4) as [m4|err| |]; cbn [bind];
      try exact I; try contradiction.
    pose proof (gwyfile_fread_le_spec 4 1 s2 ltac:(lia) ltac:(lia)) as S5.
    destruct (gwyfile_fread_le 4 1 s2) as [[ok buf] rest].
    destruct S5 as (-> & _ & Hok). destruct ok; [|exact I].
    specialize (Hok eq_refl).
    apply (item_outcome_ok _ _ _ _ _ _ _ _ _ _ (Hhead buf rest eq_refl));
      rewrite ?Hlen; auto; try lia.
    + now apply good_leaf.
    + intros Hx. cbn [wf_item]. repeat split; try apply Hname; try lia.
      all: apply (signed_range 32); [lia|];
        pose proof (le_decode_range buf) as Hr;
        replace (length buf) with 4%nat in Hr by lia;
        change (256 ^ Z.of_nat 4) with (2 ^ 32) in Hr; exact Hr.
  - (* int64 *)
    change (gwyfile_item_type_is_array GWYFILE_ITEM_INT64) with false in Sa.
    destruct Sa as (-> & -> & ->).
    unfold GWYFILE_ITEM_INT64. decide_type_tests.
    pose proof (gwyfile_check_size_spec m 8) as S4.
    destruct (gwyfile_check_size m 8) as [m4|err| |]; cbn [bind];
      try exact I; try contradiction.
    pose proof (gwyfile_fread_le_spec 8 1 s2 ltac:(lia) ltac:(lia)) as S5.
    destruct (gwyfile_fread_le 8 1 s2) as [[ok buf] rest].
    destruct S5 as (-> & _ & Hok). destruct ok; [|exact I].
    specialize (Hok eq_refl).
    apply (item_outcome_ok _ _ _ _ _ _ _ _ _ _ (Hhead buf rest eq_refl));
      rewrite ?Hlen; auto; try lia.
    + now apply good_leaf.
    + intros Hx. cbn [wf_item]. repeat split; try apply Hname; try lia.
      all: apply (signed_range 64); [lia|];
        pose proof (le_decode_range buf) as Hr;
        replace (length buf) with 8%nat in Hr by lia;
        change (256 ^ Z.of_nat 8) with (2 ^ 64) in Hr; exact Hr.
  - (* double *)
    change (gwyfile_item_type_is_array GWYFILE_ITEM_DOUBLE) with false in Sa.
    destruct Sa as (-> & -> & ->).
    unfold GWYFILE_ITEM_DOUBLE. decide_type_tests.
    pose proof (gwyfile_check_size_spec m 8) as S4.
    destruct (gwyfile_check_size m 8) as [m4|err| |]; cbn [bind];
      try exact I; try contradiction.
    pose proof (gwyfile_fread_le_spec 8 1 s2 ltac:(lia) ltac:(lia)) as S5.
    destruct (gwyfile_fread_le 8 1 s2) as [[ok buf] rest].
    destruct S5 as (-> & _ & Hok). destruct ok; [|exact I].
    specialize (Hok eq_refl).
    apply (item_outcome_ok _ _ _ _ _ _ _ _ _ _ (Hhead buf rest eq_refl));
      rewrite ?Hlen; auto; try lia.
    + now apply good_leaf.
    + intros Hx. cbn [wf_item]. 
      pose proof (le_decode_range buf) as Hr.
      replace (length buf) with 8%nat in Hr by lia.
      change (256 ^ Z.of_nat 8) with (2 ^ 64) in Hr.
      repeat split; try apply Hname; try lia.
  - (* string *)
    change (gwyfile_item_type_is_array GWYFILE_ITEM_STRING) with false in Sa.
    destruct Sa as (-> & -> & ->).
    unfold GWYFILE_ITEM_STRING. decide_type_tests.
    pose proof (gwyfile_fread_string_spec s2 m ltac:(lia)) as S4.
    destruct (gwyfile_fread_string s2 m) as [[[s m4] rest]|err| |];
      cbn [bind]; try exact I; try contradiction.
    destruct S4 as (-> & Hs & Hb4 & ->). pose proof (strlen_nonneg s).
    unfold gwyfile_item_new_internal_string.
    rewrite size_t_small by lia.
    apply (item_outcome_ok _ _ _ _ _ _ _ _ _ _
             (Hhead (s ++ [x00]) rest
                ltac:(rewrite <- app_assoc; reflexivity)));
      rewrite ?Hlen, ?length_app; cbn [length]; unfold strlen in *; auto;
      try lia.
    + now apply good_leaf.
    + intros Hx. cbn [wf_item]. unfold strlen.
      repeat split; try apply Hname; try apply Hs; try lia.
  - (* object *)
    change (gwyfile_item_type_is_array GWYFILE_ITEM_OBJECT) with false in Sa.
    destruct Sa as (-> & -> & ->).
    unfold GWYFILE_ITEM_OBJECT. decide_type_tests.
    pose proof (object_outcomes s2 m d ltac:(lia) ltac:(lia)) as S4.
    destruct (gwyfile_object_fread_internal junk fuel s2 m d)
      as [[o rest]|err| |]; cbn [bind]; try exact I; try contradiction.
    + destruct S4 as ((c & -> & Hc) & Hsz & Hg & Hw).
      pose proof (object_size_nonneg o).
      apply (item_outcome_ok _ _ _ _ _ _ _ _ _ _ (Hhead c rest eq_refl));
        rewrite ?Hlen; auto; try lia.
      intros Hx. cbn [wf_item].
      repeat split; try apply Hname; try lia.
      apply wf_parts_wf; [exact Hw | lia].
    + cbn [item_outcome object_outcome] in *.
      rewrite length_app. cbn [length]. lia.
  - (* char array *)
    change (gwyfile_item_type_is_array GWYFILE_ITEM_CHAR_ARRAY) with true in Sa.
    destruct Sa as (Hb3 & -> & Ha & buf & -> & Hbuf).
    unfold GWYFILE_ITEM_CHAR_ARRAY. decide_type_tests.
    pose proof (gwyfile_check_size_spec (m - 4) alen) as S4.
    destruct (gwyfile_check_size (m - 4) alen) as [m4|err| |]; cbn [bind];
      try exact I; try contradiction.
    destruct S4 as (Hb4 & _).
    pose proof (fread_spec 1 alen s3 ltac:(lia) ltac:(lia)) as S5.
    destruct (fread 1 alen s3) as [[k5 got] rest].
    destruct S5 as (-> & Hgot & _).
    destruct (Z.eqb_spec k5 0) as [Ek5|Ek5]; cbn [negb]; [exact I|].
    unfold gwyfile_item_new_internal_char_array.
    rewrite size_t_small by lia.
    apply (item_outcome_ok _ _ _ _ _ _ _ _ _ _
             (Hhead (buf ++ got) rest
                ltac:(rewrite <- app_assoc; reflexivity)));
      rewrite ?Hlen, ?length_app; auto; try lia.
    + now apply good_leaf.
    + intros Hx. cbn [wf_item].
      rewrite length_partial_buffer by lia.
      repeat split; try apply Hname; try lia.
  - (* int32 array *)
    change (gwyfile_item_type_is_array GWYFILE_ITEM_INT32_ARRAY) with true in Sa.
    destruct Sa as (Hb3 & -> & Ha & buf & -> & Hbuf).
    unfold GWYFILE_ITEM_INT32_ARRAY. decide_type_tests.
    destruct (Z.gtb_spec alen ((m - 4) / 4)) as [G|G]; [exact I|].
    pose proof (Z.mul_div_le (m - 4) 4 ltac:(lia)) as Hdiv.
    pose proof (gwyfile_fread_le_spec 4 alen s3 ltac:(lia) ltac:(lia)) as S5.
    destruct (gwyfile_fread_le 4 alen s3) as [[ok got] rest].
    destruct S5 as (-> & _ & Hok). destruct ok; [|exact I].
    specialize (Hok eq_refl).
    unfold gwyfile_item_new_internal_int32_array.
    rewrite (size_t_small (4 + alen * 4)) by lia.
    apply (item_outcome_ok _ _ _ _ _ _ _ _ _ _
             (Hhead (buf ++ got) rest
                ltac:(rewrite <- app_assoc; reflexivity)));
      rewrite ?Hlen, ?length_app; auto; try lia.
    + now apply good_leaf.
    + intros Hx. cbn [wf_item].
      destruct (decode_array_spec 4 32 alen got eq_refl ltac:(lia) ltac:(lia)
                  ltac:(lia)) as [Hl Hr].
      repeat split; try apply Hname; try lia. exact Hr.
  - (* int64 array *)
    change (gwyfile_item_type_is_array GWYFILE_ITEM_INT64_ARRAY) with true in Sa.
    destruct Sa as (Hb3 & -> & Ha & buf & -> & Hbuf).
    unfold GWYFILE_ITEM_INT64_ARRAY. decide_type_tests.
    destruct (Z.gtb_spec alen ((m - 4) / 8)) as [G|G]; [exact I|].
    pose proof (Z.mul_div_le (m - 4) 8 ltac:(lia)) as Hdiv.
    pose proof (gwyfile_fread_le_spec 8 alen s3 ltac:(lia) ltac:(lia)) as S5.
    destruct (gwyfile_fread_le 8 alen s3) as [[ok got] rest].
    destruct S5 as (-> & _ & Hok). destruct ok; [|exact I].
    specialize (Hok eq_refl).
    unfold gwyfile_item_new_internal_int64_array.
    rewrite (size_t_small (4 + alen * 8)) by lia.
    apply (item_outcome_ok _ _ _ _ _ _ _ _ _ _
             (Hhead (buf ++ got) rest
                ltac:(rewrite <- app_assoc; reflexivity)));
      rewrite ?Hlen, ?length_app; auto; try lia.
    + now apply good_leaf.
    + intros Hx. cbn [wf_item].
      destruct (decode_array_spec 8 64 alen got eq_refl ltac:(lia) ltac:(lia)
                  ltac:(lia)) as [Hl Hr].
      repeat split; try apply Hname; try lia. exact Hr.
  - (* double array *)
    change (gwyfile_item_type_is_array GWYFILE_ITEM_DOUBLE_ARRAY) with true in Sa.
    destruct Sa as (Hb3 & -> & Ha & buf & -> & Hbuf).
    unfold GWYFILE_ITEM_DOUBLE_ARRAY. decide_type_tests.
    destruct (Z.gtb_spec alen ((m - 4) / 8)) as [G|G]; [exact I|].
    pose proof (Z.mul_div_le (m - 4) 8 ltac:(lia)) as Hdiv.
    pose proof (gwyfile_fread_le_spec 8 alen s3 ltac:(lia) ltac:(lia)) as S5.
    destruct (gwyfile_fread_le 8 alen s3) as [[ok got] rest].
    destruct S5 as (-> & _ & Hok). destruct ok; [|exact I].
    specialize (Hok eq_refl).
    unfold gwyfile_item_new_internal_double_array.
    rewrite (size_t_small (4 + alen * 8)) by lia.
    apply (item_outcome_ok _ _ _ _ _ _ _ _ _ _
             (Hhead (buf ++ got) rest
                ltac:(rewrite <- app_assoc; reflexivity)));
      rewrite ?Hlen, ?length_app; auto; try lia.
    + now apply good_leaf.
    + intros Hx. cbn [wf_item].
      destruct (decode_double_array_spec alen got ltac:(lia) ltac:(lia))
        as [Hl Hr].
      repeat split; try apply Hname; try lia. exact Hr.
  - (* string array *)
    change (gwyfile_item_type_is_array GWYFILE_ITEM_STRING_ARRAY) with true in Sa.
    destruct Sa as (Hb3 & -> & Ha & buf & -> & Hbuf).
    unfold GWYFILE_ITEM_STRING_ARRAY. decide_type_tests.
    destruct (Z.gtb_spec alen (m - 4)) as [G|G]; [exact I|].
    pose proof (fread_string_array_spec (Z.to_nat alen) s3 (m - 4)
                  ltac:(lia)) as S5.
    destruct (fread_string_array (Z.to_nat alen) s3 (m - 4))
      as [[[sa m5] rest]|err| |]; cbn [bind]; try exact I; try contradiction.
    destruct S5 as (-> & Hl & Hsa & Hsum & ->).
    assert (0 <= sumZ (map (fun s => strlen s + 1) sa)).
    { apply sumZ_nonneg. intros s. pose proof (strlen_nonneg s). lia. }
    unfold gwyfile_item_new_internal_string_array.
    rewrite firstn_all2 by lia.
    rewrite (fold_left_string_sizes sa 4) by lia.
    pose proof (length_concat_strings sa) as Hcat.
    apply (item_outcome_ok _ _ _ _ _ _ _ _ _ _
             (Hhead (buf ++ concat (map (fun s => s ++ [x00]) sa)) rest
                ltac:(rewrite <- app_assoc; reflexivity)));
      rewrite ?Hlen, ?length_app; auto; try lia.
    + now apply good_leaf.
    + intros Hx. cbn [wf_item].
      repeat split; try apply Hname; try lia. exact Hsa.
  - (* object array *)
    change (gwyfile_item_type_is_array GWYFILE_ITEM_OBJECT_ARRAY) with true in Sa.
    destruct Sa as (Hb3 & -> & Ha & buf & -> & Hbuf).
    unfold GWYFILE_ITEM_OBJECT_ARRAY. decide_type_tests.
    destruct (Z.gtb_spec alen ((m - 4) / 5)) as [G|G]; [exact I|].
    pose proof (objects_outcomes s3 (m - 4) d (Z.to_nat alen) ltac:(lia)
                  ltac:(lia)) as S5.
    destruct (item_fread_object_array junk fuel s3 (m - 4) d (Z.to_nat alen))
      as [[oa rest]|err| |]; cbn [bind]; try exact I; try contradiction.
    + destruct S5 as (Hl & (c & -> & Hc) & Hsum & Hg & Hw).
      assert (0 <= sumZ (map gwyfile_object_size oa)).
      { apply sumZ_nonneg. intros o. apply object_size_nonneg. }
      unfold gwyfile_item_new_internal_object_array.
      rewrite firstn_all2 by lia.
      rewrite (fold_left_object_sizes oa 4) by lia.
      apply (item_outcome_ok _ _ _ _ _ _ _ _ _ _
               (Hhead (buf ++ c) rest
                  ltac:(rewrite <- app_assoc; reflexivity)));
        rewrite ?Hlen, ?length_app; auto; try lia.
      * unfold good_item. split; [|split].
        -- apply names_distinct_objects.
           eapply Forall_impl; [exact Hg|]. intros o Ho. apply Ho.
        -- apply names_sorted_objects.
           eapply Forall_impl; [exact Hg|]. intros o Ho. apply Ho.
        -- apply fits_objects; [lia|].
           eapply Forall_impl; [exact Hg|]. intros o Ho. apply Ho.
      * intros Hx. cbn [wf_item].
        repeat split; try apply Hname; try lia.
        apply all_objects_Forall. apply List.Forall_forall. intros o Ho.
        apply wf_parts_wf.
        -- rewrite List.Forall_forall in Hw. now apply Hw.
        -- pose proof (object_size_in_sum o oa Ho). lia.
    + cbn [item_outcome objects_outcome] in *.
      rewrite length_app. cbn [length]. rewrite length_app. lia.
Qed.

End Outcomes.

Lemma reader_outcomes junk fuel :
  (forall stream max_size d, 0 <= max_size < 2 ^ 64 -> 0 <= d ->
     object_outcome fuel stream max_size d
       (gwyfile_object_fread_internal junk fuel stream max_size d))
  /\ (forall stream data_size d object,
        0 <= d < GWYFILE_MAX_DEPTH ->
        0 <= object_data_size object <= data_size -> data_size < 2 ^ 32 ->
        items_outcome fuel stream data_size d object
          (object_fread_items junk fuel stream data_size d object))
  /\ (forall stream max_size d, 0 <= max_size < 2 ^ 64 ->
        0 <= d <= GWYFILE_MAX_DEPTH ->
        item_outcome fuel stream max_size d
          (gwyfile_item_fread_internal junk fuel stream max_size d))
  /\ (forall stream max_size d n, 0 <= max_size < 2 ^ 64 -> 0 <= d ->
        objects_outcome fuel stream max_size d n
          (item_fread_object_array junk fuel stream max_size d n)).
Proof.
  induction fuel as [|fuel (IH1 & IH2 & IH3 & IH4)].
  - repeat split; intros; cbn; lia.
  - split; [|split; [|split]]; intros.
    + now apply object_step.
    + now apply items_step.
    + now apply item_step.
    + now apply objects_step.
Qed.

Lemma gwyfile_object_fread_outcome junk stream max_size :
  0 <= max_size < 2 ^ 64 ->
  match gwyfile_object_fread junk stream max_size with
  | Ok (o, rest) =>
      consumed stream rest 5 (gwyfile_object_size o)
      /\ gwyfile_object_size o <= max_size
      /\ good_object 0 o /\ wf_parts o
  | Fail _ => True
  | _ => False
  end.
Proof.
  intros Hm. unfold gwyfile_object_fread.
  pose proof (proj1 (reader_outcomes junk (fread_fuel stream)) stream max_size
                0 Hm ltac:(lia)) as H.
  destruct (gwyfile_object_fread_internal junk (fread_fuel stream) stream
              max_size 0) as [[o rest]|e| |]; auto.
  cbn [object_outcome] in H. unfold fread_fuel in H. lia.
Qed.

Lemma gwyfile_fread_outcome junk stream max_size :
  0 <= max_size < 2 ^ 64 ->
  match gwyfile_fread junk stream max_size with
  | Ok (o, rest) =>
      consumed stream rest 9 (4 + gwyfile_object_size o)
      /\ 4 + gwyfile_object_size o <= max_size
      /\ good_object 0 o /\ wf_parts o
  | Fail _ => True
  | _ => False
  end.
Proof.
  intros Hm. unfold gwyfile_fread, GWYFILE_MAGIC_LEN.
  pose proof (gwyfile_check_size_spec max_size 4) as S1.
  destruct (gwyfile_check_size max_size 4) as [m|e| |]; cbn [bind]; auto.
  destruct S1 as [Hb ->]. rewrite size_t_small by lia.
  pose proof (fread_spec 1 4 stream ltac:(lia) ltac:(lia)) as S2.
  destruct (fread 1 4 stream) as [[k magic] s1].
  destruct S2 as (-> & Hl & ->). rewrite Z.div_1_r.
  destruct (Z.eqb_spec (Z.of_nat (length magic)) 4) as [E|E]; cbn [negb];
    [|exact I].
  destruct (magic_ok magic); cbn [negb]; [|exact I].
  pose proof (gwyfile_object_fread_outcome junk s1 (max_size - 4)
                ltac:(lia)) as H.
  destruct (gwyfile_object_fread junk s1 (max_size - 4)) as [[o rest]|e| |];
    auto.
  destruct H as (Hc & Hs & Hg & Hw). split; [|split; [lia | auto]].
  apply (consumed_step _ s1 _ 4 4 5 (gwyfile_object_size o)); auto; try lia.
  apply consumed_app. lia.
Qed.

(** X5.  The three reading functions return on every stream, with a tree
    or with [NULL] and an error: the reading ends however the stream is
    built, and none of the [assert]s on the sizes it adds up and compares
    fails. *)
Theorem reading_completes junk stream max_size :
  0 <= max_size < 2 ^ 64 ->
  completes (gwyfile_fread junk stream max_size) = true
  /\ completes (gwyfile_object_fread junk stream max_size) = true
  /\ completes (gwyfile_item_fread junk stream max_size) = true.
Proof.
  intros Hm. split; [|split].
  - pose proof (gwyfile_fread_outcome junk stream max_size Hm) as H.
    destruct (gwyfile_fread junk stream max_size) as [[o rest]|e| |];
      try reflexivity; contradiction.
  - pose proof (gwyfile_object_fread_outcome junk stream max_size Hm) as H.
    destruct (gwyfile_object_fread junk stream max_size) as [[o rest]|e| |];
      try reflexivity; contradiction.
  - unfold gwyfile_item_fread.
    pose proof (proj1 (proj2 (proj2 (reader_outcomes junk (fread_fuel stream))))
                  stream max_size 0 Hm
                  ltac:(unfold GWYFILE_MAX_DEPTH; lia)) as H.
    destruct (gwyfile_item_fread_internal junk (fread_fuel stream) stream
                max_size 0) as [[i rest]|e| |]; try reflexivity;
      cbn [item_outcome] in H; [contradiction|].
    unfold fread_fuel in H. lia.
Qed.

Lemma reading_completes_witness :
  completes (gwyfile_fread (fun _ => x00) file_x_twice SIZE_MAX) = true.
Proof.
  refine (proj1 (reading_completes (fun _ => x00) file_x_twice SIZE_MAX _)).
  vm_compute. split; [intros H; discriminate H | reflexivity].
Defined.

(** X6.  [gwyfile_fread] stays within [max_size]: when it returns an
    object, what is left of the stream is the stream without the bytes
    read, at least nine and at most four more than the size of the object,
    which is at most [max_size]. *)
Theorem reading_is_confined junk stream max_size o rest :
  0 <= max_size < 2 ^ 64 ->
  gwyfile_fread junk stream max_size = Ok (o, rest) ->
  (exists read, stream = read ++ rest
                /\ 9 <= Z.of_nat (length read) <= 4 + gwyfile_object_size o)
  /\ 4 + gwyfile_object_size o <= max_size
  /\ gwyfile_object_size o
     = strlen (object_name o) + 1 + 4 + object_data_size o.
Proof.
  intros Hm E.
  pose proof (gwyfile_fread_outcome junk stream max_size Hm) as H.
  rewrite E in H. destruct H as (Hc & Hs & _ & Hw).
  split; [exact Hc|]. split; [exact Hs|].
  rewrite (wf_parts_size o Hw). lia.
Qed.

Lemma reading_is_confined_witness :
  4 + gwyfile_object_size (Object [x54] 1 [Item [x62] 1 0 1 (v_b true)] 4)
  <= SIZE_MAX.
Proof.
  refine (proj1 (proj2 (reading_is_confined (fun _ => x00) file_bool_two
                          SIZE_MAX _ [] _ _))).
  - vm_compute. split; [intros H; discriminate H | reflexivity].
  - vm_compute. reflexivity.
Defined.

(** X7.  The tree [gwyfile_fread] returns is in good order whatever the
    stream: in every object the item names are pairwise distinct and in
    ascending [strcmp] order, the objects nest at most [GWYFILE_MAX_DEPTH]
    deep, every cached size and array length is the one of the data held,
    and an object of at most 0xFFFFFFFF bytes passes the size checks of the
    writer throughout. *)
Theorem decoded_tree_is_in_order junk stream max_size o rest :
  0 <= max_size < 2 ^ 64 ->
  gwyfile_fread junk stream max_size = Ok (o, rest) ->
  names_distinct o /\ names_sorted o
  /\ object_nesting o <= GWYFILE_MAX_DEPTH
  /\ object_data_size o = sumZ (map item_size (object_items o))
  /\ Forall wf_item (object_items o)
  /\ (gwyfile_object_size o <= 4294967295 -> wf_object o).
Proof.
  intros Hm E.
  pose proof (gwyfile_fread_outcome junk stream max_size Hm) as H.
  rewrite E in H. destruct H as (_ & _ & (Hd & Hs & Hn) & Hw).
  split; [exact Hd|]. split; [exact Hs|]. split; [lia|].
  split; [apply Hw|]. split; [apply Hw|]. now apply wf_parts_wf.
Qed.

Lemma decoded_tree_is_in_order_witness :
  names_sorted
    (Object [x54] 1 [Item [x61] 1 0 1 (v_b false); Item [x62] 1 0 1 (v_b true)]
       8).
Proof.
  refine (proj1 (proj2 (decoded_tree_is_in_order (fun _ => x00) file_b_then_a
                          SIZE_MAX _ [] _ _))).
  - vm_compute. split; [intros H; discriminate H | reflexivity].
  - vm_compute. reflexivity.
Defined.

(** X8.  Reading, writing and reading again gives the tree of the first
    reading: an object of at most 0xFFFFFFFF bytes that [gwyfile_fread]
    returned, from whatever stream, is written by [gwyfile_fwrite] without
    error, in four bytes more than its size, and [gwyfile_fread] returns
    the same object from the bytes written. *)
Theorem decoded_tree_round_trips junk stream max_size o rest junk' rest' :
  0 <= max_size < 2 ^ 64 ->
  gwyfile_fread junk stream max_size = Ok (o, rest) ->
  gwyfile_object_size o <= 4294967295 ->
  fst (gwyfile_fwrite o) = Ok tt
  /\ Z.of_nat (length (snd (gwyfile_fwrite o))) = 4 + gwyfile_object_size o
  /\ gwyfile_fread junk' (snd (gwyfile_fwrite o) ++ rest') max_size
     = Ok (o, rest').
Proof.
  intros Hm E Hs.
  pose proof (gwyfile_fread_outcome junk stream max_size Hm) as H.
  rewrite E in H. destruct H as (_ & Hsz & (Hd & Hsort & Hn) & Hw).
  assert (Hwf : wf_object o) by now apply wf_parts_wf.
  rewrite (gwyfile_fwrite_encodes o Hwf). cbn [fst snd].
  split; [reflexivity|]. split.
  - rewrite length_app, Nat2Z.inj_add, (proj2 encoded_length o Hwf).
    reflexivity.
  - rewrite <- app_assoc.
    destruct (gwyfile_fread_encoded junk' o rest' max_size Hwf Hsz
                ltac:(lia))
      as [(F & D & R) | [(F & R) | (D & R)]]; try tauto; try lia.
    now rewrite R, (proj2 sorted_copy_id o Hsort).
Qed.

Lemma decoded_tree_round_trips_witness :
  gwyfile_fread (fun _ => x01)
    (snd (gwyfile_fwrite (Object [x54] 1 [Item [x62] 1 0 1 (v_b true)] 4))
     ++ [x2a]) SIZE_MAX
  = Ok (Object [x54] 1 [Item [x62] 1 0 1 (v_b true)] 4, [x2a]).
Proof.
  refine (proj2 (proj2 (decoded_tree_round_trips (fun _ => x00) file_bool_two
                          SIZE_MAX _ [] (fun _ => x01) [x2a] _ _ _))).
  - vm_compute. split; [intros H; discriminate H | reflexivity].
  - vm_compute. reflexivity.
  - vm_compute. intros H; discriminate H.
Defined.

(** ** Errors of the file header and of the item header *)


(** X9.  What [gwyfile_fread] does with the first four bytes.  With
    [max_size] below four, and with a stream shorter than four bytes, it
    fails with CONFINEMENT; with four bytes other than ["GWYP"] it fails
    with MAGIC; after ["GWYP"] it is [gwyfile_object_fread] on the rest of
    the stream with four less of [max_size]. *)
Theorem gwyfile_fread_checks_magic junk stream max_size :
  0 <= max_size < 2 ^ 64 ->
  (max_size < 4 ->
   gwyfile_fread junk stream max_size
   = Fail (DataError GWYFILE_ERROR_CONFINEMENT))
  /\ (4 <= max_size -> (length stream < 4)%nat ->
      gwyfile_fread junk stream max_size
      = Fail (DataError GWYFILE_ERROR_CONFINEMENT))
  /\ (4 <= max_size -> (4 <= length stream)%nat ->
      firstn 4 stream <> GWYFILE_MAGIC_HEADER2 ->
      gwyfile_fread junk stream max_size = Fail (DataError GWYFILE_ERROR_MAGIC))
  /\ (4 <= max_size -> firstn 4 stream = GWYFILE_MAGIC_HEADER2 ->
      gwyfile_fread junk stream max_size
      = gwyfile_object_fread junk (skipn 4 stream) (max_size - 4)).
Proof.
  intros Hm. unfold gwyfile_fread, gwyfile_check_size, GWYFILE_MAGIC_LEN.
  split; [|split; [|split]].
  - intros H. destruct (Z.ltb_spec max_size 4); [reflexivity | lia].
  - intros H Hl. destruct (Z.ltb_spec max_size 4); [lia|]. cbn [bind].
    unfold fread. change (Z.to_nat (1 * 4)) with 4%nat.
    rewrite Z.div_1_r, length_take.
    match goal with
    | |- context [Z.eqb ?a 4] => destruct (Z.eqb_spec a 4); [lia|]
    end.
    reflexivity.
  - intros H Hl Hne. destruct (Z.ltb_spec max_size 4); [lia|]. cbn [bind].
    unfold fread. change (Z.to_nat (1 * 4)) with 4%nat.
    rewrite Z.div_1_r, length_take.
    match goal with
    | |- context [Z.eqb ?a 4] => destruct (Z.eqb_spec a 4); [|lia]
    end.
    cbn [negb]. unfold magic_ok.
    destruct (gwyfile_strequal_spec (take 4 stream) GWYFILE_MAGIC_HEADER2);
      [contradiction | reflexivity].
  - intros H He. destruct (Z.ltb_spec max_size 4); [lia|]. cbn [bind].
    unfold fread. change (Z.to_nat (1 * 4)) with 4%nat.
    rewrite Z.div_1_r, He. cbn [length negb Z.eqb Z.of_nat Pos.of_succ_nat
                                 Pos.succ Pos.eqb].
    unfold magic_ok.
    destruct (gwyfile_strequal_spec GWYFILE_MAGIC_HEADER2
                GWYFILE_MAGIC_HEADER2); [|congruence].
    cbn [negb]. now rewrite size_t_small by lia.
Qed.

Lemma gwyfile_fread_checks_magic_witness :
  gwyfile_fread (fun _ => x00) [x47; x57; x59; x51; x00] SIZE_MAX
  = Fail (DataError GWYFILE_ERROR_MAGIC).
Proof.
  refine (proj1 (proj2 (proj2 (gwyfile_fread_checks_magic (fun _ => x00)
                                 [x47; x57; x59; x51; x00] SIZE_MAX _)))
            _ _ _).
  - vm_compute. split; [intros H; discriminate H | reflexivity].
  - vm_compute. intros H; discriminate H.
  - cbn. lia.
  - intros H. discriminate H.
Defined.




(** X11.  [gwyfile_fread_string] returns a string exactly when the stream
    starts with that string and a nul, the string with its nul is at most
    [max_size] and at most 0x80000000 bytes long; it then leaves the bytes
    after the nul in the stream and takes the length read off [max_size].
    It returns on every stream. *)
Theorem gwyfile_fread_string_reads_to_nul stream max_size s m rest :
  0 <= max_size < 2 ^ 64 ->
  (gwyfile_fread_string stream max_size = Ok (s, m, rest)
   <-> stream = s ++ x00 :: rest /\ Forall (fun b => b <> x00) s
       /\ strlen s + 1 <= max_size /\ strlen s + 1 <= 2147483648
       /\ m = max_size - (strlen s + 1))
  /\ completes (gwyfile_fread_string stream max_size) = true.
Proof.
  intros Hm.
  pose proof (gwyfile_fread_string_spec stream max_size Hm) as H.
  split; [split|].
  - intros E. rewrite E in H. destruct H as (-> & [Hn Hb] & Hs & ->). auto.
  - intros (-> & Hn & Hs & Hb & ->).
    apply gwyfile_fread_string_ok; [split; assumption | lia | lia].
  - destruct (gwyfile_fread_string stream max_size) as [x|e| |];
      try reflexivity; contradiction.
Qed.

Lemma gwyfile_fread_string_reads_to_nul_witness :
  gwyfile_fread_string [x68; x69; x00; x2a] 3 = Ok ([x68; x69], 0, [x2a]).
Proof.
  refine (proj2 (proj1 (gwyfile_fread_string_reads_to_nul
                          [x68; x69; x00; x2a] 3 [x68; x69] 0 [x2a] _)) _).
  - vm_compute. split; [intros H; discriminate H | reflexivity].
  - split; [reflexivity|]. split; [by_evaluation|].
    vm_compute. repeat split; intros H; discriminate H.
Defined.

(** ** Looking up, taking and adding items in the store *)

Module StoreFacts.
Import Heap.

Lemma find_name_first l name k h :
  Forall (allocated h) l ->
  exists r, find_name l name k h = Done r h
    /\ match r with
       | None =>
           forall p x, In p l -> items h !! p = Some x -> i_name x <> name
       | Some j =>
           exists i p x,
             j = (k + i)%nat /\ l !! i = Some p /\ items h !! p = Some x
             /\ i_name x = name
             /\ forall i' p' x', (i' < i)%nat -> l !! i' = Some p' ->
                                 items h !! p' = Some x' -> i_name x' <> name
       end.
Proof.
  intros H. revert k. induction H as [|p l [x Hx] _ IH]; intros k.
  - exists None. split; [reflexivity|]. intros ? ? [].
  - cbn [find_name]. unfold bind at 1, get_item. rewrite Hx.
    destruct (gwyfile_strequal_spec (i_name x) name) as [E|E].
    + exists (Some k). split; [reflexivity|].
      exists 0%nat, p, x. repeat split; auto; try lia.
    + destruct (IH (S k)) as [r [Hr Hspec]]. exists r. split; [exact Hr|].
      destruct r as [j|].
      * destruct Hspec as (i & q & y & -> & Hi & Hq & Hn & Hbefore).
        exists (S i), q, y. repeat split; auto; try lia.
        intros [|i'] p' x' Hlt Hi' Hp'.
        -- cbn in Hi'. congruence.
        -- apply (Hbefore i' p' x'); auto. lia.
      * intros q y [<-|Hq] Hy; [congruence | eauto].
Qed.

(** X12.  An object asked for a name none of its items has: [gwyfile_object_get]
    and [gwyfile_object_take] return [NULL], [gwyfile_object_remove] returns
    [false], and the store is as before. *)
Theorem missing_name_is_not_found h object x name :
  objects h !! object = Some x ->
  Forall (allocated h) (o_items x) ->
  (forall p z, In p (o_items x) -> items h !! p = Some z -> i_name z <> name) ->
  gwyfile_object_get (Some object) name h = Done None h
  /\ gwyfile_object_take (Some object) name h = Done None h
  /\ gwyfile_object_remove (Some object) name h = Done false h.
Proof.
  intros Hx Hall Hno.
  destruct (find_name_first (o_items x) name 0 h Hall) as (r & Hr & Hspec).
  assert (r = None) as ->.
  { destruct r as [j|]; [|reflexivity]. exfalso.
    destruct Hspec as (i & p & z & _ & Hi & Hp & Hn & _).
    apply (Hno p z); auto. apply list_elem_of_In.
    now apply list_elem_of_lookup_2 in Hi. }
  assert (Hfind : gwyfile_object_find object name h
                  = Done (length (o_items x)) h).
  { unfold gwyfile_object_find, bind, get_object. now rewrite Hx, Hr. }
  assert (Hdet : forall f, detach object name f h = Done None h).
  { intros f. unfold detach, bind at 1, get_object at 1. rewrite Hx.
    unfold bind at 1. rewrite Hfind.
    destruct (Z.ltb_spec (Z.of_nat (length (o_items x)))
                (Z.of_nat (length (o_items x)))); [lia | reflexivity]. }
  split; [|split].
  - unfold gwyfile_object_get, bind at 1, get_object at 1. rewrite Hx.
    unfold bind. rewrite Hfind. unfold ret. f_equal.
    apply lookup_ge_None. lia.
  - apply Hdet.
  - unfold gwyfile_object_remove, bind. now rewrite Hdet.
Qed.

Lemma missing_name_is_not_found_witness :
  gwyfile_object_remove (Some 1%positive) [x7a] store_with_rival
  = Done false store_with_rival.
Proof.
  refine (proj2 (proj2 (missing_name_is_not_found store_with_rival 1%positive
                          (Object None [x4f] 1 [2%positive] 6) [x7a] _ _ _))).
  - vm_compute. reflexivity.
  - constructor; [|constructor]. vm_compute. eauto.
  - intros p z [<-|[]] Hz. vm_compute in Hz. injection Hz as <-.
    cbn. intros H; discriminate H.
Defined.

(** X13.  [gwyfile_object_get] returns the first item of the object that
    has the name asked for, when there is one, and leaves the store as it
    is. *)
Theorem get_returns_first_of_name h object x name i p z :
  objects h !! object = Some x ->
  Forall (allocated h) (o_items x) ->
  o_items x !! i = Some p -> items h !! p = Some z -> i_name z = name ->
  (forall i' p' z', (i' < i)%nat -> o_items x !! i' = Some p' ->
                    items h !! p' = Some z' -> i_name z' <> name) ->
  gwyfile_object_get (Some object) name h = Done (Some p) h.
Proof.
  intros Hx Hall Hi Hp Hn Hbefore.
  destruct (find_name_first (o_items x) name 0 h Hall) as (r & Hr & Hspec).
  assert (r = Some i) as ->.
  { destruct r as [j|].
    - destruct Hspec as (i0 & p0 & z0 & -> & Hi0 & Hp0 & Hn0 & Hb0).
      f_equal. cbn [Nat.add].
      destruct (Nat.lt_trichotomy i0 i) as [L|[E|L]]; [|exact E|].
      + exfalso. now apply (Hbefore i0 p0 z0).
      + exfalso. now apply (Hb0 i p z).
    - exfalso. apply (Hspec p z); auto. apply list_elem_of_In.
      now apply list_elem_of_lookup_2 in Hi. }
  unfold gwyfile_object_get, bind at 1, get_object at 1. rewrite Hx.
  unfold bind at 1, gwyfile_object_find, bind at 1, get_object. rewrite Hx.
  unfold bind. rewrite Hr. unfold ret. now rewrite Hi.
Qed.

Lemma get_returns_first_of_name_witness :
  gwyfile_object_get (Some 1%positive) [x61] store_with_rival
  = Done (Some 2%positive) store_with_rival.
Proof.
  refine (get_returns_first_of_name store_with_rival 1%positive
            (Object None [x4f] 1 [2%positive] 6) [x61] 0 2%positive
            (Item GWYFILE_ITEM_STRING 0 [x61] 1 true (Some 1%positive) 3
               (s [x68; x69])) _ _ _ _ _ _).
  - vm_compute. reflexivity.
  - constructor; [|constructor]. vm_compute. eauto.
  - reflexivity.
  - vm_compute. reflexivity.
  - reflexivity.
  - intros i' p' z' Hlt. lia.
Defined.


Lemma run_bind {A B} (m : M A) (k : A -> M B) h a h' :
  m h = Done a h' -> bind m k h = k a h'.
Proof. unfold bind. now intros ->. Qed.

Lemma run_get_item p x h : items h !! p = Some x -> get_item p h = Done x h.
Proof. unfold get_item. now intros ->. Qed.

Lemma run_get_object p x h :
  objects h !! p = Some x -> get_object p h = Done x h.
Proof. unfold get_object. now intros ->. Qed.

Lemma run_item_size p x h :
  items h !! p = Some x -> i_type x <> 0 ->
  gwyfile_item_size (Some p) h = Done (item_size_of x) h.
Proof.
  intros Hx Ht. unfold gwyfile_item_size.
  rewrite (run_bind _ _ _ _ _ (run_get_item p x h Hx)).
  destruct (Z.eqb_spec (i_type x) 0); [contradiction | reflexivity].
Qed.

Ltac run_pure :=
  match goal with
  | |- bind ?m ?k ?h = _ =>
      let r := eval hnf in (m h) in
      match r with
      | Done ?a ?h' => change (bind m k h) with (k a h'); cbv beta
      end
  end.

Ltac run_get H :=
  first [ rewrite (run_bind _ _ _ _ _ (run_get_item _ _ _ H))
        | rewrite (run_bind _ _ _ _ _ (run_get_object _ _ _ H)) ].

Lemma run_propagate_root object x n (increase : bool) h :
  objects h !! object = Some x -> o_owner x = None ->
  (if increase then 0 <= o_data_size x /\ 0 <= n
                    /\ o_data_size x + n < 2 ^ 64
   else 0 <= n <= o_data_size x /\ o_data_size x < 2 ^ 64) ->
  propagate object n increase h
  = Done tt (Heap (items h)
               (<[object := object_with_data_size x
                              (if increase then o_data_size x + n
                               else o_data_size x - n)]> (objects h))
               (next h)).
Proof.
  intros Hx Ho Hn. unfold propagate. run_pure.
  cbn [gwyfile_object_propagate_size_change].
  run_get Hx. unfold changed_size. destruct increase.
  - rewrite size_t_small by lia.
    destruct (Z.geb_spec (o_data_size x + n) (o_data_size x)); [|lia].
    run_pure. rewrite Ho. reflexivity.
  - rewrite size_t_small by lia.
    destruct (Z.leb_spec n (o_data_size x)); [|lia].
    run_pure. rewrite Ho. reflexivity.
Qed.

Lemma item_size_of_range y : 0 <= item_size_of y < 2 ^ 64.
Proof. unfold item_size_of, size_t. apply Z.mod_pos_bound. lia. Qed.

(** The store after [item] was appended to [object]. *)
Lemma append_appends h object item x y :
  objects h !! object = Some x -> items h !! item = Some y ->
  o_owner x = None -> i_type y <> 0 ->
  0 <= o_data_size x -> o_data_size x + item_size_of y < 2 ^ 64 ->
  gwyfile_object_append object item h
  = Done tt
      (Heap (<[item := with_owner y (Some object)]> (items h))
         (<[object := Object None (o_name x) (o_name_len x)
                        (o_items x ++ [item])
                        (o_data_size x + item_size_of y)]> (objects h))
         (next h)).
Proof.
  intros Hx Hy Hxo Ht Hd Hs.
  pose proof (item_size_of_range y) as Hn.
  unfold gwyfile_object_append.
  run_get Hx. run_pure.
  match goal with |- bind _ _ ?h' = _ => set (h1 := h') end.
  rewrite (run_bind _ _ h1 _ _ (run_get_item item y h1 Hy)).
  run_pure.
  match goal with |- bind _ _ ?h' = _ => set (h2 := h') end.
  assert (Hy2 : items h2 !! item = Some (with_owner y (Some object)))
    by apply lookup_insert_eq.
  rewrite (run_bind _ _ h2 _ _ (run_item_size item _ h2 Hy2 Ht)).
  assert (Hx2 : objects h2 !! object
                = Some (object_with_items x (o_items x ++ [item])))
    by apply lookup_insert_eq.
  rewrite (run_propagate_root object _
             (item_size_of (with_owner y (Some object))) true h2 Hx2 Hxo
             ltac:(split; [exact Hd | split; [apply Hn | exact Hs]])).
  f_equal. subst h2 h1. cbn [items objects next].
  f_equal. rewrite insert_insert_eq. f_equal.
  unfold object_with_data_size, object_with_items. cbn. now rewrite Hxo.
Qed.

Lemma add_appends h object item x y :
  objects h !! object = Some x -> items h !! item = Some y ->
  i_owner y = None -> o_owner x = None ->
  Forall (allocated h) (o_items x) ->
  (forall p z, In p (o_items x) -> items h !! p = Some z ->
               i_name z <> i_name y) ->
  i_type y <> 0 ->
  0 <= o_data_size x -> o_data_size x + item_size_of y < 2 ^ 64 ->
  gwyfile_object_add (Some object) (Some item) h
  = Done true
      (Heap (<[item := with_owner y (Some object)]> (items h))
         (<[object := Object None (o_name x) (o_name_len x)
                        (o_items x ++ [item])
                        (o_data_size x + item_size_of y)]> (objects h))
         (next h)).
Proof.
  intros Hx Hy Hyo Hxo Hall Hno Ht Hd Hs.
  unfold gwyfile_object_add.
  run_get Hy. rewrite Hyo. run_pure. run_get Hx.
  destruct (find_name_first (o_items x) (i_name y) 0 h Hall)
    as (r & Hr & Hspec).
  rewrite (run_bind _ _ _ _ _ Hr).
  destruct r as [j|].
  { exfalso. destruct Hspec as (i & p & z & _ & Hi & Hp & Hn' & _).
    apply (Hno p z); auto. apply list_elem_of_In.
    now apply list_elem_of_lookup_2 in Hi. }
  rewrite (run_bind _ _ _ _ _ (append_appends h object item x y Hx Hy Hxo Ht
                                 Hd Hs)).
  reflexivity.
Qed.

(** X14.  [gwyfile_object_add] of a root item under a new name to a root
    object returns [true]; afterwards the item is the last item of the
    object and is owned by it, the object's [data_size] has grown by
    [gwyfile_item_size] of the item, and nothing else in the store has
    changed. *)
Theorem add_appends_and_owns h object item x y :
  objects h !! object = Some x -> items h !! item = Some y ->
  i_owner y = None -> o_owner x = None ->
  Forall (allocated h) (o_items x) ->
  (forall p z, In p (o_items x) -> items h !! p = Some z ->
               i_name z <> i_name y) ->
  i_type y <> 0 ->
  0 <= o_data_size x -> o_data_size x + item_size_of y < 2 ^ 64 ->
  exists h',
    gwyfile_object_add (Some object) (Some item) h = Done true h'
    /\ objects h' !! object
       = Some (Object None (o_name x) (o_name_len x) (o_items x ++ [item])
                 (o_data_size x + item_size_of y))
    /\ items h' !! item = Some (with_owner y (Some object))
    /\ (forall p, p <> object -> objects h' !! p = objects h !! p)
    /\ (forall p, p <> item -> items h' !! p = items h !! p)
    /\ next h' = next h
    /\ gwyfile_object_get (Some object) (i_name y) h' = Done (Some item) h'.
Proof.
  intros Hx Hy Hyo Hxo Hall Hno Ht Hd Hs. eexists.
  split; [exact (add_appends h object item x y Hx Hy Hyo Hxo Hall Hno Ht Hd Hs)|].
  cbn [objects items next].
  split; [apply lookup_insert_eq|]. split; [apply lookup_insert_eq|].
  split; [intros p Hp; apply lookup_insert_ne; congruence|].
  split; [intros p Hp; apply lookup_insert_ne; congruence|].
  split; [reflexivity|].
  assert (Hitem : ~ In item (o_items x)).
  { intros Hin. apply (Hno item y Hin Hy). reflexivity. }
  eapply get_returns_first_of_name with (i := length (o_items x)).
  - cbn [objects]. apply lookup_insert_eq.
  - cbn [o_items items]. apply Forall_app. split.
    + eapply Forall_impl; [exact Hall|]. intros p [z Hz]. unfold allocated.
      cbn [items]. destruct (decide (p = item)) as [->|Hne].
      * rewrite lookup_insert_eq. eauto.
      * rewrite lookup_insert_ne by congruence. eauto.
    + constructor; [|constructor]. unfold allocated. cbn [items].
      rewrite lookup_insert_eq. eauto.
  - cbn [o_items]. now rewrite lookup_app_r, Nat.sub_diag by lia.
  - cbn [items]. apply lookup_insert_eq.
  - reflexivity.
  - cbn [o_items items]. intros i' p' z' Hlt Hi' Hp'.
    rewrite lookup_app_l in Hi' by lia.
    assert (Hin : In p' (o_items x)).
    { apply list_elem_of_In. now apply list_elem_of_lookup_2 in Hi'. }
    rewrite lookup_insert_ne in Hp' by (intros ->; contradiction).
    cbn [with_owner i_name]. now apply (Hno p' z').
Qed.

Lemma add_appends_and_owns_witness :
  exists h',
    gwyfile_object_add (Some 1%positive) (Some 3%positive)
      (store_after (Heap.bind (gwyfile_object_new_internal [x4f]) (fun O =>
                    Heap.bind (gwyfile_item_new_string [x62] [x68; x69]) (fun I =>
                    Heap.bind (gwyfile_object_add (Some O) (Some I)) (fun _ =>
                    gwyfile_item_new_string [x61] [x79; x6f])))))
    = Done true h'.
Proof.
  destruct (add_appends_and_owns
              (store_after (Heap.bind (gwyfile_object_new_internal [x4f]) (fun O =>
                    Heap.bind (gwyfile_item_new_string [x62] [x68; x69]) (fun I =>
                    Heap.bind (gwyfile_object_add (Some O) (Some I)) (fun _ =>
                    gwyfile_item_new_string [x61] [x79; x6f])))))
              1%positive 3%positive
              (Object None [x4f] 1 [2%positive] 6)
              (Item GWYFILE_ITEM_STRING 0 [x61] 1 true None 3 (s [x79; x6f])))
    as (h' & H & _).
  - vm_compute. reflexivity.
  - vm_compute. reflexivity.
  - reflexivity.
  - reflexivity.
  - constructor; [|constructor]. vm_compute. eauto.
  - intros p z [<-|[]] Hz. vm_compute in Hz. injection Hz as <-.
    cbn. intros E; discriminate E.
  - intros E; discriminate E.
  - cbn. lia.
  - vm_compute. reflexivity.
  - exists h'. exact H.
Defined.


Lemma find_index h object x name i p z :
  objects h !! object = Some x ->
  Forall (allocated h) (o_items x) ->
  o_items x !! i = Some p -> items h !! p = Some z -> i_name z = name ->
  (forall i' p' z', (i' < i)%nat -> o_items x !! i' = Some p' ->
                    items h !! p' = Some z' -> i_name z' <> name) ->
  gwyfile_object_find object name h = Done i h.
Proof.
  intros Hx Hall Hi Hp Hn Hbefore.
  destruct (find_name_first (o_items x) name 0 h Hall) as (r & Hr & Hspec).
  assert (r = Some i) as ->.
  { destruct r as [j|].
    - destruct Hspec as (i0 & p0 & z0 & -> & Hi0 & Hp0 & Hn0 & Hb0).
      f_equal. cbn [Nat.add].
      destruct (Nat.lt_trichotomy i0 i) as [L|[E|L]]; [|exact E|].
      + exfalso. now apply (Hbefore i0 p0 z0).
      + exfalso. now apply (Hb0 i p z).
    - exfalso. apply (Hspec p z); auto. apply list_elem_of_In.
      now apply list_elem_of_lookup_2 in Hi. }
  unfold gwyfile_object_find. run_get Hx.
  rewrite (run_bind _ _ _ _ _ Hr). reflexivity.
Qed.

Lemma swap_with_last_last (l : list addr) p :
  swap_with_last (l ++ [p]) (length l) = l ++ [p].
Proof.
  unfold swap_with_last.
  rewrite lookup_app_r, Nat.sub_diag by lia. cbn [lookup list_lookup].
  rewrite last_snoc, length_app. cbn [length].
  destruct (Nat.ltb_spec (S (length l)) (length l + 1)); [lia | reflexivity].
Qed.

Lemma with_owner_back y p : i_owner y = None -> with_owner (with_owner y p) None = y.
Proof. destruct y. cbn. now intros ->. Qed.

(** X15.  Taking undoes adding.  After [gwyfile_object_add] has added a
    root item under a new name to a root object, [gwyfile_object_take] with
    that name returns the item and leaves the store exactly as it was
    before the addition: the item is a root again and the object has its
    old items and its old [data_size]. *)
Theorem take_undoes_add h object item x y :
  objects h !! object = Some x -> items h !! item = Some y ->
  i_owner y = None -> o_owner x = None ->
  Forall (allocated h) (o_items x) ->
  (forall p z, In p (o_items x) -> items h !! p = Some z ->
               i_name z <> i_name y) ->
  i_type y <> 0 ->
  0 <= o_data_size x -> o_data_size x + item_size_of y < 2 ^ 64 ->
  (added <- gwyfile_object_add (Some object) (Some item) ;;
   taken <- gwyfile_object_take (Some object) (i_name y) ;;
   ret (added, taken)) h
  = Done (true, Some item) h.
Proof.
  intros Hx Hy Hyo Hxo Hall Hno Ht Hd Hs.
  pose proof (item_size_of_range y) as Hn.
  rewrite (run_bind _ _ _ _ _
             (add_appends h object item x y Hx Hy Hyo Hxo Hall Hno Ht Hd Hs)).
  set (y1 := with_owner y (Some object)).
  set (x1 := Object None (o_name x) (o_name_len x) (o_items x ++ [item])
               (o_data_size x + item_size_of y)).
  set (h1 := Heap _ _ (next h)).
  assert (Hy1 : items h1 !! item = Some y1) by apply lookup_insert_eq.
  assert (Hx1 : objects h1 !! object = Some x1) by apply lookup_insert_eq.
  assert (Hitem : ~ In item (o_items x)).
  { intros Hin. apply (Hno item y Hin Hy). reflexivity. }
  assert (Hfind : gwyfile_object_find object (i_name y) h1
                  = Done (length (o_items x)) h1).
  { apply (find_index h1 object x1 (i_name y) (length (o_items x)) item y1
             Hx1).
    - cbn [o_items x1]. apply Forall_app. split.
      + eapply Forall_impl; [exact Hall|]. intros p [z Hz]. unfold allocated.
        cbn [items h1]. destruct (decide (p = item)) as [->|Hne].
        * rewrite lookup_insert_eq. eauto.
        * rewrite lookup_insert_ne by congruence. eauto.
      + constructor; [|constructor]. unfold allocated. rewrite Hy1. eauto.
    - cbn [o_items x1]. now rewrite lookup_app_r, Nat.sub_diag by lia.
    - exact Hy1.
    - reflexivity.
    - cbn [o_items x1]. intros i' p' z' Hlt Hi' Hp'.
      rewrite lookup_app_l in Hi' by lia.
      assert (Hin : In p' (o_items x)).
      { apply list_elem_of_In. now apply list_elem_of_lookup_2 in Hi'. }
      cbn [items h1] in Hp'.
      rewrite lookup_insert_ne in Hp' by (intros ->; contradiction).
      now apply (Hno p' z'). }
  enough (Htake : gwyfile_object_take (Some object) (i_name y) h1
                  = Done (Some item) h).
  { rewrite (run_bind _ _ _ _ _ Htake). reflexivity. }
  unfold gwyfile_object_take, detach.
  run_get Hx1. rewrite (run_bind _ _ _ _ _ Hfind).
  cbn [o_items x1]. rewrite length_app. cbn [length].
  destruct (Z.ltb_spec (Z.of_nat (length (o_items x)))
              (Z.of_nat (length (o_items x) + 1))); [|lia].
  rewrite swap_with_last_last.
  run_pure.
  match goal with |- bind _ _ ?h' = _ => set (h2 := h') end.
  assert (Hy2 : items h2 !! item = Some y1) by exact Hy1.
  assert (Hx2 : objects h2 !! object = Some x1) by apply lookup_insert_eq.
  run_pure.
  cbn [gwyfile_object_remove_last].
  assert (Hlast :
    (x0 <- get_object object ;;
     assert (negb (Z.of_nat (length (o_items x0)) =? 0)) ;;
     match last (o_items x0) with
     | None => fun _ => Undefined
     | Some item0 =>
         y0 <- get_item item0 ;;
         assert (match i_owner y0 with
                 | Some p => Pos.eqb p object
                 | None => false
                 end) ;;
         n <- gwyfile_item_size (Some item0) ;;
         propagate object n false ;;
         y2 <- get_item item0 ;;
         put_item item0 (with_owner y2 None) ;;
         ret tt ;;
         x2 <- get_object object ;;
         put_object object (object_with_items x2 (removelast (o_items x2)))
     end) h2 = Done tt h).
  { run_get Hx2. cbn [o_items x1]. rewrite length_app. cbn [length].
    destruct (Z.eqb_spec (Z.of_nat (length (o_items x) + 1)) 0); [lia|].
    run_pure. rewrite last_snoc.
    run_get Hy2. cbn [i_owner y1 with_owner]. rewrite Pos.eqb_refl. run_pure.
    rewrite (run_bind _ _ h2 _ _ (run_item_size item _ h2 Hy2 Ht)).
    rewrite (run_bind _ _ h2 tt _
               (run_propagate_root object x1 (item_size_of y1) false h2 Hx2
                  eq_refl
                  ltac:(cbn [o_data_size x1];
                        change (item_size_of y1) with (item_size_of y);
                        lia))).
    match goal with |- bind _ _ ?h' = _ => set (h3 := h') end.
    assert (Hy3 : items h3 !! item = Some y1) by exact Hy1.
    run_get Hy3. run_pure. run_pure.
    match goal with |- bind _ _ ?h' = _ => set (h4 := h') end.
    assert (Hx4 : objects h4 !! object
                  = Some (object_with_data_size x1
                            (o_data_size x1 - item_size_of y1)))
      by apply lookup_insert_eq.
    run_get Hx4. unfold put_object. f_equal.
    subst h4 h3 h2 h1. cbn [items objects next].
    change (item_size_of y1) with (item_size_of y).
    subst y1 x1. rewrite with_owner_back by assumption.
    rewrite !insert_insert_eq.
    rewrite (insert_id (items h) item y Hy).
    unfold object_with_items, object_with_data_size.
    cbn [o_owner o_name o_name_len o_items o_data_size].
    rewrite removelast_last.
    replace (o_data_size x + item_size_of y - item_size_of y)
      with (o_data_size x) by lia.
    replace (Object None (o_name x) (o_name_len x) (o_items x) (o_data_size x))
      with x by (destruct x; cbn in *; congruence).
    rewrite (insert_id (objects h) object x Hx).
    now destruct h. }
  rewrite (run_bind _ _ _ _ _ Hlast).
  unfold ret. f_equal. cbn [o_items x1].
  now rewrite lookup_app_r, Nat.sub_diag by lia.
Qed.

Lemma take_undoes_add_witness :
  (added <- gwyfile_object_add (Some 1%positive) (Some 3%positive) ;;
   taken <- gwyfile_object_take (Some 1%positive) [x61] ;;
   ret (added, taken))
    (store_after (Heap.bind (gwyfile_object_new_internal [x4f]) (fun O =>
                  Heap.bind (gwyfile_item_new_string [x62] [x68; x69]) (fun I =>
                  Heap.bind (gwyfile_object_add (Some O) (Some I)) (fun _ =>
                  gwyfile_item_new_string [x61] [x79; x6f])))))
  = Done (true, Some 3%positive)
      (store_after (Heap.bind (gwyfile_object_new_internal [x4f]) (fun O =>
                    Heap.bind (gwyfile_item_new_string [x62] [x68; x69]) (fun I =>
                    Heap.bind (gwyfile_object_add (Some O) (Some I)) (fun _ =>
                    gwyfile_item_new_string [x61] [x79; x6f]))))).
Proof.
  refine (take_undoes_add _ 1%positive 3%positive
            (Object None [x4f] 1 [2%positive] 6)
            (Item GWYFILE_ITEM_STRING 0 [x61] 1 true None 3 (s [x79; x6f]))
            _ _ _ _ _ _ _ _ _).
  - vm_compute. reflexivity.
  - vm_compute. reflexivity.
  - reflexivity.
  - reflexivity.
  - constructor; [|constructor]. vm_compute. eauto.
  - intros p z [<-|[]] Hz. vm_compute in Hz. injection Hz as <-.
    cbn. intros E; discriminate E.
  - intros E; discriminate E.
  - cbn. lia.
  - vm_compute. reflexivity.
Defined.

End StoreFacts.

(** ** Identifiers are ASCII *)

Lemma ascii_high_bit c : byte_to_Z c < 128 -> Z.land (byte_to_Z c) 128 = 0.
Proof.
  destruct c; intros H; try reflexivity; vm_compute in H; discriminate H.
Qed.

Lemma ascii_is_valid_utf8 s :
  Forall (fun c => byte_to_Z c < 128) s -> gwyfile_is_valid_utf8 s = true.
Proof.
  unfold gwyfile_is_valid_utf8.
  induction 1 as [|c s Hc _ IH]; [reflexivity|].
  cbn [is_valid_utf8_loop]. cbv zeta. rewrite Z.eqb_refl.
  now rewrite (ascii_high_bit c Hc), Z.eqb_refl.
Qed.

Lemma ident_char_ascii c : is_ident_char c = true -> byte_to_Z c < 128.
Proof. unfold is_ident_char, is_alpha. cbv zeta. lia. Qed.

(** X16.  A name that [gwyfile_is_valid_identifier] accepts is not empty,
    consists of bytes below 0x80, and is accepted by [gwyfile_is_valid_utf8];
    so when the identifier check of an object name passes without a
    warning, the UTF-8 check of the same name passes without an error. *)
Theorem identifiers_are_valid_utf8 (s : list byte) (code : GwyfileInvalidCode)
    (el : errlist) :
  gwyfile_is_valid_identifier s = true ->
  s <> [] /\ Forall (fun c => byte_to_Z c < 128) s
  /\ gwyfile_is_valid_utf8 s = true
  /\ gwyfile_check_valid_identifier s el = (true, el)
  /\ gwyfile_check_valid_utf8 s code el = (true, el).
Proof.
  intros H.
  assert (Ha : Forall (fun c => byte_to_Z c < 128) s).
  { destruct s as [|c s]; [discriminate|]. cbn in H.
    apply andb_prop in H as [H1 H2]. constructor.
    - apply ident_char_ascii. unfold is_ident_char. now rewrite H1.
    - apply List.Forall_forall. intros x Hx. apply ident_char_ascii.
      rewrite forallb_forall in H2. now apply H2. }
  split; [intros ->; discriminate|]. split; [exact Ha|].
  pose proof (ascii_is_valid_utf8 s Ha) as Hu. split; [exact Hu|].
  unfold gwyfile_check_valid_identifier, gwyfile_check_valid_utf8.
  now rewrite H, Hu.
Qed.

Lemma identifiers_are_valid_utf8_witness :
  gwyfile_is_valid_utf8 [x47; x77; x79; x5f; x31] = true.
Proof.
  refine (proj1 (proj2 (proj2 (identifiers_are_valid_utf8 [x47; x77; x79; x5f; x31]
                          GWYFILE_INVALID_UTF8_TYPE None _)))).
  reflexivity.
Defined.

(** ** The size invariant under additions *)

Module InvariantFacts.
Import Heap.

Lemma size_invariant_spec h :
  size_invariant h = true
  <-> (forall p x, objects h !! p = Some x -> object_size_ok h x = true)
      /\ (forall p y, items h !! p = Some y -> item_size_ok h y = true).
Proof.
  unfold size_invariant. rewrite andb_true_iff, !forallb_forall.
  split; intros [H1 H2]; split.
  - intros p x Hx. apply (H1 (p, x)). apply list_elem_of_In.
    now apply elem_of_map_to_list.
  - intros p y Hy. apply (H2 (p, y)). apply list_elem_of_In.
    now apply elem_of_map_to_list.
  - intros [p x] Hin. apply list_elem_of_In, elem_of_map_to_list in Hin.
    now apply (H1 p x).
  - intros [p y] Hin. apply list_elem_of_In, elem_of_map_to_list in Hin.
    now apply (H2 p y).
Qed.

Lemma sizes_of_ext {A} (m m' : gmap addr A) f l :
  (forall p, In p l -> f <$> (m' !! p) = f <$> (m !! p)) ->
  sizes_of m' f l = sizes_of m f l.
Proof.
  unfold sizes_of. induction l as [|p l IH]; intros H; [reflexivity|].
  cbn [foldr]. rewrite IH by (intros q Hq; apply H; now right).
  specialize (H p (or_introl eq_refl)).
  destruct (m' !! p), (m !! p); cbn in H; try discriminate; [|reflexivity].
  injection H as ->. reflexivity.
Qed.

Lemma sizes_of_snoc {A} (m : gmap addr A) f l p x n :
  sizes_of m f l = Some n -> m !! p = Some x ->
  sizes_of m f (l ++ [p]) = Some (n + f x).
Proof.
  unfold sizes_of. revert n. induction l as [|q l IH]; intros n Hn Hp.
  - cbn in *. injection Hn as <-. rewrite Hp. f_equal. lia.
  - cbn [app foldr] in *.
    destruct (m !! q) as [z|]; [|discriminate].
    destruct (foldr _ (Some 0) l) as [k|] eqn:E; [|discriminate].
    injection Hn as <-. rewrite (IH k eq_refl Hp). f_equal. lia.
Qed.

Lemma item_size_ok_ext h h' y :
  (forall p, In p (wrapped y) -> objects h' !! p = objects h !! p) ->
  item_size_ok h' y = item_size_ok h y.
Proof.
  unfold item_size_ok, wrapped. intros H.
  destruct (i_v y); try reflexivity.
  - now rewrite (H x (or_introl eq_refl)).
  - rewrite (sizes_of_ext (objects h) (objects h') object_size_of); auto.
    intros p Hp. now rewrite H.
Qed.

Lemma unwrapped_check h object :
  forallb (fun qz => negb (existsb (Pos.eqb object) (wrapped (snd qz))))
    (map_to_list (items h)) = true ->
  forall q z, items h !! q = Some z -> ~ In object (wrapped z).
Proof.
  rewrite forallb_forall. intros H q z Hz Hin.
  specialize (H (q, z)). cbn [snd] in H.
  rewrite negb_true_iff in H.
  assert (E : existsb (Pos.eqb object) (wrapped z) = true).
  { apply existsb_exists. exists object. split; [exact Hin|].
    apply Pos.eqb_refl. }
  rewrite H in E; [discriminate|].
  apply list_elem_of_In. now apply elem_of_map_to_list.
Qed.

(** X17.  [gwyfile_object_add] keeps the size invariant.  In a store where
    every object's [data_size] is the sum of the sizes of its items and every
    item wrapping objects has the [data_size] their sizes give, adding a root
    item under a new name to a root object that no item wraps gives a
    store with the same property. *)
Theorem add_keeps_size_invariant h object item x y :
  objects h !! object = Some x -> items h !! item = Some y ->
  i_owner y = None -> o_owner x = None ->
  Forall (allocated h) (o_items x) ->
  (forall p z, In p (o_items x) -> items h !! p = Some z ->
               i_name z <> i_name y) ->
  i_type y <> 0 ->
  0 <= o_data_size x -> o_data_size x + item_size_of y < 2 ^ 64 ->
  (forall q z, items h !! q = Some z -> ~ In object (wrapped z)) ->
  size_invariant h = true ->
  exists h',
    gwyfile_object_add (Some object) (Some item) h = Done true h'
    /\ size_invariant h' = true.
Proof.
  intros Hx Hy Hyo Hxo Hall Hno Ht Hd Hs Hwrap Hinv. eexists.
  split; [exact (StoreFacts.add_appends h object item x y Hx Hy Hyo Hxo Hall
                   Hno Ht Hd Hs)|].
  apply size_invariant_spec in Hinv as [Hobj Hitem].
  apply size_invariant_spec.
  set (h' := Heap _ _ (next h)).
  assert (Hsizes : forall l, sizes_of (items h') item_size_of l
                             = sizes_of (items h) item_size_of l).
  { intros l. apply sizes_of_ext. intros p _. cbn [items h'].
    destruct (decide (p = item)) as [->|Hne].
    - now rewrite lookup_insert_eq, Hy.
    - now rewrite lookup_insert_ne by congruence. }
  assert (Hobjects : forall z, ~ In object (wrapped z) ->
                       item_size_ok h' z = item_size_ok h z).
  { intros z Hz. apply item_size_ok_ext. intros p Hp. cbn [objects h'].
    apply lookup_insert_ne. intros ->. contradiction. }
  split.
  - intros p z Hz. cbn [objects h'] in Hz. unfold object_size_ok.
    destruct (decide (p = object)) as [->|Hne].
    + rewrite lookup_insert_eq in Hz. injection Hz as <-.
      cbn [o_items o_data_size].
      specialize (Hobj object x Hx). unfold object_size_ok in Hobj.
      destruct (sizes_of (items h) item_size_of (o_items x)) as [n|] eqn:E;
        [|discriminate].
      apply Z.eqb_eq in Hobj.
      rewrite (sizes_of_snoc (items h') item_size_of (o_items x) item
                 (with_owner y (Some object)) n).
      * apply Z.eqb_eq. rewrite Hobj. reflexivity.
      * now rewrite Hsizes.
      * apply lookup_insert_eq.
    + rewrite lookup_insert_ne in Hz by congruence.
      rewrite Hsizes. exact (Hobj p z Hz).
  - intros p z Hz. cbn [items h'] in Hz.
    destruct (decide (p = item)) as [->|Hne].
    + rewrite lookup_insert_eq in Hz. injection Hz as <-.
      rewrite Hobjects by (apply (Hwrap item y Hy)).
      exact (Hitem item y Hy).
    + rewrite lookup_insert_ne in Hz by congruence.
      rewrite Hobjects by (apply (Hwrap p z Hz)).
      exact (Hitem p z Hz).
Qed.

Lemma add_keeps_size_invariant_witness :
  exists h',
    gwyfile_object_add (Some 1%positive) (Some 3%positive)
      (store_after (Heap.bind (gwyfile_object_new_internal [x4f]) (fun O =>
                    Heap.bind (gwyfile_item_new_string [x62] [x68; x69]) (fun I =>
                    Heap.bind (gwyfile_object_add (Some O) (Some I)) (fun _ =>
                    gwyfile_item_new_string [x61] [x79; x6f])))))
    = Done true h'
    /\ size_invariant h' = true.
Proof.
  refine (add_keeps_size_invariant _ 1%positive 3%positive
            (Object None [x4f] 1 [2%positive] 6)
            (Item GWYFILE_ITEM_STRING 0 [x61] 1 true None 3 (s [x79; x6f]))
            _ _ _ _ _ _ _ _ _ _ _).
  - vm_compute. reflexivity.
  - vm_compute. reflexivity.
  - reflexivity.
  - reflexivity.
  - constructor; [|constructor]. vm_compute. eauto.
  - intros p z [<-|[]] Hz. vm_compute in Hz. injection Hz as <-.
    cbn. intros E; discriminate E.
  - intros E; discriminate E.
  - cbn. lia.
  - vm_compute. reflexivity.
  - apply unwrapped_check. vm_compute. reflexivity.
  - vm_compute. reflexivity.
Defined.

End InvariantFacts.

(** ** The readers of single objects and items *)

(** X18.  [gwyfile_object_fread] and [gwyfile_item_fread] give the
    guarantees of [gwyfile_fread]: what they return was read from the front
    of the stream, in no more bytes than its size, which is at most
    [max_size]; names are distinct and sorted in every object, the nesting
    is within the limit, and an item read within a [max_size] below 2^32 is
    well formed. *)
Theorem single_reads_are_confined junk stream max_size :
  0 <= max_size < 2 ^ 64 ->
  (forall o rest,
      gwyfile_object_fread junk stream max_size = Ok (o, rest) ->
      consumed stream rest 5 (gwyfile_object_size o)
      /\ gwyfile_object_size o <= max_size
      /\ names_distinct o /\ names_sorted o
      /\ object_nesting o <= GWYFILE_MAX_DEPTH
      /\ (max_size < 2 ^ 32 -> wf_object o))
  /\ (forall i rest,
         gwyfile_item_fread junk stream max_size = Ok (i, rest) ->
         consumed stream rest 2 (item_size i)
         /\ item_size i <= max_size
         /\ item_names_distinct i /\ item_names_sorted i
         /\ item_nesting i <= GWYFILE_MAX_DEPTH
         /\ (max_size < 2 ^ 32 -> wf_item i)).
Proof.
  intros Hm. split.
  - intros o rest E.
    pose proof (gwyfile_object_fread_outcome junk stream max_size Hm) as H.
    rewrite E in H. destruct H as (Hc & Hs & (Hd & Hsort & Hn) & Hw).
    repeat (split; [assumption || lia|]).
    intros Hx. apply wf_parts_wf; [exact Hw | lia].
  - intros i rest E. unfold gwyfile_item_fread in E.
    pose proof (proj1 (proj2 (proj2 (reader_outcomes junk (fread_fuel stream))))
                  stream max_size 0 Hm
                  ltac:(unfold GWYFILE_MAX_DEPTH; lia)) as H.
    rewrite E in H. destruct H as (Hc & Hs & (Hd & Hsort & Hn) & Hw).
    repeat (split; [assumption || lia|]). exact Hw.
Qed.

Lemma single_reads_are_confined_witness :
  item_size (Item [x62] 1 0 1 (v_b true)) <= SIZE_MAX.
Proof.
  refine (proj1 (proj2 (proj2 (single_reads_are_confined (fun _ => x00)
                                 [x62; x00; x62; x02] SIZE_MAX _)
                          (Item [x62] 1 0 1 (v_b true)) [] _))).
  - vm_compute. split; [intros H; discriminate H | reflexivity].
  - vm_compute. reflexivity.
Defined.

(** ** The escaped names of the paths *)

Lemma escaped_loops_agree s len :
  0 <= len ->
  let '(n, more) := escaped_strlen_loop s len in
  let '(out, more') := escaped_strappend_loop s len in
  more' = more /\ n = len + Z.of_nat (length out)
  /\ n <= Z.max len (GWYFILE_PATH_ABBREVIATION_LIMIT + 4)
  /\ Forall (fun b => 32 <= byte_to_Z b < 127) out.
Proof.
  revert len. induction s as [|c s IH]; intros len Hl;
    cbn [escaped_strlen_loop escaped_strappend_loop].
  - cbn [length]. repeat split; try lia. constructor.
  - destruct (byte_eqb c x00).
    { cbn [length]. repeat split; try lia. constructor. }
    unfold GWYFILE_PATH_ABBREVIATION_LIMIT in *.
    destruct (Z.leb_spec len 64) as [L|L].
    2:{ cbn [length]. repeat split; try lia. constructor. }
    assert (Hhex : forall k, 0 <= k < 16 ->
                     32 <= byte_to_Z (hexadecimal k) < 127).
    { intros k Hk.
      assert (Hc : In k [0;1;2;3;4;5;6;7;8;9;10;11;12;13;14;15]) by (cbn; lia).
      cbn [In] in Hc.
      repeat (destruct Hc as [<-|Hc]; [vm_compute; split; [discriminate | reflexivity]|]).
      contradiction. }
    pose proof (byte_to_Z_range c) as Hc.
    destruct (is_escaped_char c) eqn:E1; [|destruct (is_plain_char c) eqn:E2].
    + rewrite size_t_small by lia. specialize (IH (len + 2) ltac:(lia)).
      destruct (escaped_strlen_loop s (len + 2)) as [n more].
      destruct (escaped_strappend_loop s (len + 2)) as [out more'].
      destruct IH as (-> & -> & Hb & Hf). cbn [length].
      repeat split; try lia.
      constructor; [vm_compute; split; [discriminate | reflexivity]|].
      constructor; [|exact Hf].
      unfold is_escaped_char in E1. cbv zeta in E1. lia.
    + rewrite size_t_small by lia. specialize (IH (len + 1) ltac:(lia)).
      destruct (escaped_strlen_loop s (len + 1)) as [n more].
      destruct (escaped_strappend_loop s (len + 1)) as [out more'].
      destruct IH as (-> & -> & Hb & Hf). cbn [length].
      repeat split; try lia.
      constructor; [|exact Hf].
      unfold is_plain_char in E2. cbv zeta in E2. lia.
    + rewrite size_t_small by lia. specialize (IH (len + 4) ltac:(lia)).
      destruct (escaped_strlen_loop s (len + 4)) as [n more].
      destruct (escaped_strappend_loop s (len + 4)) as [out more'].
      destruct IH as (-> & -> & Hb & Hf). cbn [length].
      repeat split; try lia.
      constructor; [vm_compute; split; [discriminate | reflexivity]|].
      constructor; [vm_compute; split; [discriminate | reflexivity]|].
      constructor.
      { apply Hhex. split; [apply Z.div_pos; lia|].
        apply Z.div_lt_upper_bound; lia. }
      constructor; [apply Hhex; apply Z.mod_pos_bound; lia|]. exact Hf.
Qed.

Lemma escaped_output s :
  Z.of_nat (length (gwyfile_escaped_strappend s)) = gwyfile_escaped_strlen s
  /\ gwyfile_escaped_strlen s <= GWYFILE_PATH_ABBREVIATION_LIMIT + 7
  /\ Forall (fun b => 32 <= byte_to_Z b < 127) (gwyfile_escaped_strappend s).
Proof.
  unfold gwyfile_escaped_strappend, gwyfile_escaped_strlen.
  pose proof (escaped_loops_agree s 0 ltac:(lia)) as H.
  destruct (escaped_strlen_loop s 0) as [n more].
  destruct (escaped_strappend_loop s 0) as [out more'].
  destruct H as (-> & -> & Hb & Hf).
  unfold GWYFILE_PATH_ABBREVIATION_LIMIT in *.
  destruct more.
  - rewrite size_t_small by lia. rewrite length_app. cbn [length].
    split; [lia|]. split; [lia|].
    apply Forall_app. split; [exact Hf|].
    repeat constructor; vm_compute; discriminate.
  - split; [lia|]. split; [lia | exact Hf].
Qed.

(** X19.  [gwyfile_escaped_strappend] stores exactly
    [gwyfile_escaped_strlen(s)] bytes, which is what [gwyfile_format_path]
    reserves for the name; they are at most 71, whatever the length of the
    name, and all of them are printable ASCII (0x20 to 0x7e); a name of
    at most 64 plain characters is stored as it is. *)
Theorem escaped_name_fits_its_length (s : list byte) :
  Z.of_nat (length (gwyfile_escaped_strappend s)) = gwyfile_escaped_strlen s
  /\ gwyfile_escaped_strlen s <= 71
  /\ Forall (fun b => 32 <= byte_to_Z b < 127) (gwyfile_escaped_strappend s)
  /\ (Forall (fun c => is_plain_char c = true /\ is_escaped_char c = false) s ->
      (length s <= 64)%nat ->
      gwyfile_escaped_strappend s = s /\ gwyfile_escaped_strlen s = strlen s).
Proof.
  destruct (escaped_output s) as (H1 & H2 & H3).
  split; [exact H1|]. split; [exact H2|]. split; [exact H3|].
  intros Hp Hl.
  enough (E : forall len, 0 <= len -> len + strlen s <= 64 ->
                escaped_strappend_loop s len = (s, false)).
  { assert (Ea : gwyfile_escaped_strappend s = s).
    { unfold gwyfile_escaped_strappend.
      now rewrite (E 0 ltac:(lia) ltac:(unfold strlen; lia)). }
    split; [exact Ea|]. rewrite <- H1, Ea. reflexivity. }
  clear Hl H1 H2 H3.
  induction Hp as [|c s [Hc1 Hc2] _ IH]; intros len H0 Hlen; [reflexivity|].
  cbn [escaped_strappend_loop].
  destruct (byte_eqb_spec c x00) as [->|_]; [discriminate Hc1|].
  unfold GWYFILE_PATH_ABBREVIATION_LIMIT, strlen in *. cbn [length] in Hlen.
  destruct (Z.leb_spec len 64); [|lia].
  rewrite Hc2, Hc1, size_t_small by lia.
  now rewrite IH by lia.
Qed.

(** ** The buffer of [gwyfile_format_path] *)

Lemma escaped_strlen_range s : 0 <= gwyfile_escaped_strlen s <= 71.
Proof.
  destruct (escaped_output s) as (H1 & H2 & _).
  unfold GWYFILE_PATH_ABBREVIATION_LIMIT in *. lia.
Qed.

Lemma path_total_range names :
  0 <= path_total names <= 71 * Z.of_nat (length names).
Proof.
  unfold path_total. induction names as [|s names IH].
  - unfold sumZ. cbn. lia.
  - cbn [map length]. rewrite sumZ_cons.
    pose proof (escaped_strlen_range s). lia.
Qed.

Lemma path_length_spec names i len :
  0 <= i -> i + Z.of_nat (length names) < 2 ^ 32 ->
  0 <= len -> len + 72 * Z.of_nat (length names) < 2 ^ 64 ->
  path_length names i len
  = len + path_total names
    + (if i =? 0 then Z.max 0 (Z.of_nat (length names) - 1)
       else Z.of_nat (length names)).
Proof.
  revert i len. induction names as [|s names IH]; intros i len Hi Hn Hl Hb.
  - cbn [path_length length]. unfold path_total, sumZ. cbn.
    destruct (i =? 0); lia.
  - cbn [path_length length] in *. cbv zeta.
    pose proof (escaped_strlen_range s).
    pose proof (path_total_range names).
    unfold path_total in *. cbn [map]. rewrite sumZ_cons.
    rewrite (u32_small (i + 1)) by lia.
    destruct (Z.eqb_spec i 0) as [->|Hne].
    + rewrite size_t_small by lia.
      rewrite IH by lia.
      destruct (Z.eqb_spec (0 + 1) 0); lia.
    + rewrite (size_t_small (len + 1)) by lia.
      rewrite size_t_small by lia.
      rewrite IH by lia.
      destruct (Z.eqb_spec (i + 1) 0); lia.
Qed.

Lemma joined_path_snoc done s :
  joined_path (done ++ [s])
  = match done with
    | [] => gwyfile_escaped_strappend s
    | _ => gwyfile_escaped_strappend s ++ [x2f] ++ joined_path done
    end.
Proof.
  induction done as [|t done IH]; [reflexivity|].
  cbn [app joined_path]. rewrite IH.
  destruct done as [|u done]; cbn [app]; [reflexivity|].
  now rewrite <- !app_assoc.
Qed.

Lemma length_joined_path names :
  Z.of_nat (length (joined_path names))
  = path_total names + Z.max 0 (Z.of_nat (length names) - 1).
Proof.
  unfold path_total. induction names as [|s names IH].
  - unfold sumZ. cbn. lia.
  - cbn [map length joined_path]. rewrite sumZ_cons.
    destruct (escaped_output s) as (H1 & _).
    destruct names as [|t names].
    + unfold sumZ. cbn. lia.
    + rewrite !length_app, !Nat2Z.inj_add, IH. cbn [length]. lia.
Qed.

Lemma store_bytes_at front old rest bs pos :
  Z.of_nat (length front) = pos -> length old = length bs ->
  store_bytes (front ++ old ++ rest) pos bs = Some (front ++ bs ++ rest).
Proof.
  intros Hp Hl. unfold store_bytes. rewrite !length_app.
  destruct (Z.leb_spec 0 pos); [|lia].
  destruct (Z.leb_spec (pos + Z.of_nat (length bs))
              (Z.of_nat (length front + (length old + length rest))));
    [|lia].
  cbn [andb]. f_equal.
  replace (Z.to_nat pos) with (length front) by lia.
  rewrite take_app_length. f_equal. f_equal.
  rewrite drop_app_add', <- Hl by reflexivity.
  now rewrite drop_app_length.
Qed.

Lemma split_front (front : list byte) (n : nat) :
  (n <= length front)%nat ->
  exists front' old, front = front' ++ old /\ length old = n
                     /\ length front' = (length front - n)%nat.
Proof.
  intros H. exists (take (length front - n) front),
              (drop (length front - n) front).
  split; [symmetry; apply take_drop|].
  rewrite length_drop, length_take. lia.
Qed.

Lemma fill_path_spec names done front i pos :
  Z.of_nat (length done) = i ->
  i + Z.of_nat (length names) < 2 ^ 32 ->
  Z.of_nat (length front) = pos ->
  pos = path_total names
        + (if i =? 0 then Z.max 0 (Z.of_nat (length names) - 1)
           else Z.of_nat (length names)) ->
  fill_path names i pos (front ++ joined_path done ++ [x00])
  = Some (0, joined_path (done ++ names) ++ [x00]).
Proof.
  revert done front i pos.
  induction names as [|s names IH]; intros done front i pos Hi Hn Hf Hp.
  - cbn [length] in *. unfold path_total, sumZ in Hp. cbn in Hp.
    assert (E0 : pos = 0) by (destruct (i =? 0); lia).
    rewrite E0 in *.
    destruct front; [|cbn in Hf; lia].
    cbn [fill_path app]. now rewrite app_nil_r.
  - cbn [fill_path length] in *.
    pose proof (escaped_strlen_range s) as Hs.
    pose proof (path_total_range names) as Ht.
    destruct (escaped_output s) as (Hlen & _).
    unfold path_total in Hp. cbn [map] in Hp. rewrite sumZ_cons in Hp.
    fold (path_total names) in Hp.
    rewrite (u32_small (i + 1)) by lia.
    replace (done ++ s :: names) with ((done ++ [s]) ++ names)
      by (rewrite <- app_assoc; reflexivity).
    destruct (Z.eqb_spec i 0) as [E0|Hne].
    + (* the leaf: no separator *)
      destruct done; [|cbn in Hi; lia]. cbn [joined_path app] in *.
      rewrite size_t_small by lia.
      destruct (split_front front (Z.to_nat (gwyfile_escaped_strlen s))
                  ltac:(lia)) as (front' & old & -> & Hold & Hfront').
      rewrite <- app_assoc.
      rewrite store_bytes_at by lia.
      change (gwyfile_escaped_strappend s ++ [x00])
        with (joined_path [s] ++ [x00]).
      apply IH; cbn [length]; try lia.
      destruct (Z.eqb_spec (i + 1) 0); lia.
    + rewrite (size_t_small (pos - 1)) by lia.
      destruct (split_front front 1 ltac:(lia))
        as (front1 & old1 & -> & Hold1 & Hfront1).
      rewrite <- app_assoc.
      rewrite (store_bytes_at front1 old1 _ [x2f]) by (cbn [length]; lia).
      rewrite size_t_small by lia.
      destruct (split_front front1 (Z.to_nat (gwyfile_escaped_strlen s))
                  ltac:(rewrite length_app in Hf; lia))
        as (front' & old & -> & Hold & Hfront').
      rewrite <- app_assoc.
      rewrite store_bytes_at
        by (rewrite ?length_app in *; lia).
      replace (gwyfile_escaped_strappend s ++ [x2f] ++ joined_path done ++ [x00])
        with (joined_path (done ++ [s]) ++ [x00]).
      2:{ rewrite joined_path_snoc. destruct done; [cbn in Hi; lia|].
          now rewrite <- !app_assoc. }
      apply IH; rewrite ?length_app in *; cbn [length] in *; try lia.
      destruct (Z.eqb_spec (i + 1) 0); lia.
Qed.

Lemma c_string_printable l :
  Forall (fun b => 32 <= byte_to_Z b < 127) l -> c_string (l ++ [x00]) = l.
Proof.
  induction 1 as [|b l Hb _ IH]; [reflexivity|].
  cbn [app c_string].
  destruct (byte_eqb_spec b x00) as [->|_];
    [change (byte_to_Z x00) with 0 in Hb; lia|].
  now rewrite IH.
Qed.

Lemma joined_path_printable names :
  Forall (fun b => 32 <= byte_to_Z b < 127) (joined_path names).
Proof.
  induction names as [|s names IH]; [constructor|].
  destruct (escaped_output s) as (_ & _ & Hs).
  cbn [joined_path]. destruct names as [|t names]; [exact Hs|].
  apply Forall_app. split; [exact IH|].
  apply Forall_app. split; [|exact Hs].
  repeat constructor; vm_compute; discriminate.
Qed.

(** X20.  [gwyfile_format_path] fills the buffer it allocates and nothing
    else.  For the names on the way from the leaf to the root, the length
    it computes is the length of the escaped names joined by ['/'], every
    byte it stores lies inside the buffer, the final [assert(pos == 0)]
    holds, and the string returned is the escaped names from the root down
    to the leaf, whatever the buffer held before, or ["the toplevel object"]
    when that string is empty. *)
Theorem format_path_fills_its_buffer junk h leaf_object leaf_item names :
  Heap.is_null_pointer leaf_object || Heap.is_null_pointer leaf_item = true ->
  Paths.owner_names (S (size (Heap.items h) + size (Heap.objects h)))
    leaf_object leaf_item h = Heap.Done names h ->
  Z.of_nat (length names) < 2 ^ 32 ->
  path_length names 0 0 = Z.of_nat (length (joined_path names))
  /\ Paths.gwyfile_format_path junk leaf_object leaf_item h
     = Heap.Done (if path_length names 0 0 =? 0 then the_toplevel_object
                  else joined_path names) h.
Proof.
  intros Hnull Hnames Hn.
  assert (Elen : path_length names 0 0 = Z.of_nat (length (joined_path names))).
  { rewrite path_length_spec by lia. rewrite length_joined_path.
    cbn [Z.eqb]. lia. }
  split; [exact Elen|].
  unfold Paths.gwyfile_format_path. rewrite Hnull.
  unfold Heap.assert at 1.
  rewrite (StoreFacts.run_bind _ _ h tt h eq_refl).
  rewrite (StoreFacts.run_bind Heap.cells _ h _ h eq_refl).
  rewrite (StoreFacts.run_bind _ _ _ _ _ Hnames).
  destruct (Z.eqb_spec (path_length names 0 0) 0) as [E|E]; [reflexivity|].
  rewrite Elen, Nat2Z.id.
  pose proof (fill_path_spec names [] (map junk (seq 0 (length (joined_path names))))
                0 (Z.of_nat (length (joined_path names))) eq_refl
                ltac:(lia)
                ltac:(now rewrite length_map, length_seq)
                ltac:(rewrite length_joined_path; cbn [Z.eqb]; lia)) as Hfill.
  cbn [joined_path app] in Hfill. rewrite Hfill.
  unfold Heap.assert. rewrite (StoreFacts.run_bind _ _ h tt h eq_refl).
  unfold Heap.ret. f_equal.
  apply c_string_printable, joined_path_printable.
Qed.

Lemma format_path_fills_its_buffer_witness :
  Paths.gwyfile_format_path (fun _ => x00) None (Some 2%positive)
    store_with_rival
  = Heap.Done [x4f; x2f; x61] store_with_rival.
Proof.
  refine (proj2 (format_path_fills_its_buffer (fun _ => x00) store_with_rival
                   None (Some 2%positive) [[x61]; [x4f]] _ _ _)).
  - reflexivity.
  - vm_compute. reflexivity.
  - vm_compute. reflexivity.
Defined.

(** ** Typed lookups, and releasing the object of an item *)

Module TypedFacts.
Import Heap Typed StoreFacts.

Lemma find_name_type_first l name type k h :
  Forall (allocated h) l ->
  exists r, find_name_type l name type k h = Done r h
    /\ match r with
       | None =>
           forall p x, In p l -> items h !! p = Some x ->
                       ~ (i_type x = type /\ i_name x = name)
       | Some j =>
           exists i p x,
             j = (k + i)%nat /\ l !! i = Some p /\ items h !! p = Some x
             /\ i_type x = type /\ i_name x = name
       end.
Proof.
  intros H. revert k. induction H as [|p l [x Hx] _ IH]; intros k.
  - exists None. split; [reflexivity|]. intros ? ? [].
  - cbn [find_name_type]. unfold bind at 1, get_item. rewrite Hx.
    destruct (Z.eqb_spec (i_type x) type) as [T|T];
      [destruct (gwyfile_strequal_spec (i_name x) name) as [E|E]|]; cbn [andb].
    + exists (Some k). split; [reflexivity|].
      exists 0%nat, p, x. repeat split; auto; try lia.
    + destruct (IH (S k)) as [r [Hr Hspec]]. exists r. split; [exact Hr|].
      destruct r as [j|].
      * destruct Hspec as (i & q & y & -> & Hi & Hq & Ht & Hn).
        exists (S i), q, y. repeat split; auto; try lia.
      * intros q y [<-|Hq] Hy; [|eauto]. intros [_ Hn]. congruence.
    + destruct (IH (S k)) as [r [Hr Hspec]]. exists r. split; [exact Hr|].
      destruct r as [j|].
      * destruct Hspec as (i & q & y & -> & Hi & Hq & Ht & Hn).
        exists (S i), q, y. repeat split; auto; try lia.
      * intros q y [<-|Hq] Hy; [|eauto]. intros [Ht _]. congruence.
Qed.

(** X21.  In an object whose items have distinct names, the typed lookups
    are the plain ones followed by a test of the type: when
    [gwyfile_object_get] finds no item, or one of another type,
    [gwyfile_object_get_with_type] and [gwyfile_object_take_with_type]
    return [NULL] and change nothing; when it finds an item of the type
    asked for, [gwyfile_object_get_with_type] returns that item and
    [gwyfile_object_take_with_type] does what [gwyfile_object_take] does. *)
Theorem typed_lookup_tests_the_named_item h object x name type :
  objects h !! object = Some x ->
  Forall (allocated h) (o_items x) ->
  (forall i j p q y z,
      o_items x !! i = Some p -> o_items x !! j = Some q ->
      items h !! p = Some y -> items h !! q = Some z ->
      i_name y = i_name z -> i = j) ->
  exists r,
    gwyfile_object_get (Some object) name h = Done r h
    /\ match r with
       | None =>
           gwyfile_object_get_with_type (Some object) name type h
           = Done None h
           /\ gwyfile_object_take_with_type (Some object) name type h
              = Done None h
       | Some p =>
           exists z, items h !! p = Some z
             /\ if i_type z =? type then
                  gwyfile_object_get_with_type (Some object) name type h
                  = Done (Some p) h
                  /\ gwyfile_object_take_with_type (Some object) name type h
                     = gwyfile_object_take (Some object) name h
                else
                  gwyfile_object_get_with_type (Some object) name type h
                  = Done None h
                  /\ gwyfile_object_take_with_type (Some object) name type h
                     = Done None h
       end.
Proof.
  intros Hx Hall Hdist.
  destruct (find_name_first (o_items x) name 0 h Hall) as (r1 & Hr1 & S1).
  destruct (find_name_type_first (o_items x) name type 0 h Hall)
    as (r2 & Hr2 & S2).
  assert (Hget : gwyfile_object_get (Some object) name h
                 = Done (o_items x !! match r1 with
                                      | Some k => k
                                      | None => length (o_items x)
                                      end) h).
  { unfold gwyfile_object_get. run_get Hx. unfold gwyfile_object_find.
    unfold bind at 1. unfold bind at 1. rewrite (run_get_object _ _ _ Hx).
    unfold bind. rewrite Hr1. reflexivity. }
  assert (Hfind : gwyfile_object_find_with_type object name type h
                  = Done (match r2 with
                          | Some k => k
                          | None => length (o_items x)
                          end) h).
  { unfold gwyfile_object_find_with_type. run_get Hx.
    unfold bind. rewrite Hr2. reflexivity. }
  assert (Hnone : r2 = None ->
            gwyfile_object_get_with_type (Some object) name type h
            = Done None h
            /\ gwyfile_object_take_with_type (Some object) name type h
               = Done None h).
  { intros ->. unfold gwyfile_object_get_with_type,
      gwyfile_object_take_with_type.
    split; run_get Hx; rewrite (run_bind _ _ _ _ _ Hfind);
      rewrite Z.ltb_irrefl; reflexivity. }
  rewrite Hget. eexists. split; [reflexivity|].
  destruct r1 as [k1|].
  - destruct S1 as (i1 & p & z & -> & Hi1 & Hp & Hn & _). cbn [Nat.add].
    rewrite Hi1. exists z. split; [exact Hp|].
    destruct (Z.eqb_spec (i_type z) type) as [T|T].
    + destruct r2 as [k2|].
      * destruct S2 as (i2 & q & y & -> & Hi2 & Hq & _ & Hn2).
        cbn [Nat.add] in Hfind.
        assert (i2 = i1) as -> by (eapply Hdist; eauto; congruence).
        pose proof (lookup_lt_Some _ _ _ Hi1) as Hlt.
        split.
        -- unfold gwyfile_object_get_with_type. run_get Hx.
           rewrite (run_bind _ _ _ _ _ Hfind).
           destruct (Z.ltb_spec (Z.of_nat i1) (Z.of_nat (length (o_items x))));
             [|lia].
           unfold ret. now rewrite Hi1.
        -- unfold gwyfile_object_take_with_type, gwyfile_object_take, detach.
           run_get Hx. run_get Hx. rewrite (run_bind _ _ _ _ _ Hfind).
           assert (Hf : gwyfile_object_find object name h = Done i1 h).
           { unfold gwyfile_object_find. run_get Hx.
             unfold bind. rewrite Hr1. reflexivity. }
           rewrite (run_bind _ _ _ _ _ Hf). reflexivity.
      * exfalso. apply (S2 p z); auto.
        apply list_elem_of_In. now apply list_elem_of_lookup_2 in Hi1.
    + apply Hnone. destruct r2 as [k2|]; [exfalso | reflexivity].
      destruct S2 as (i2 & q & y & -> & Hi2 & Hq & Ht & Hn2).
      assert (i2 = i1) as -> by (eapply Hdist; eauto; congruence).
      congruence.
  - rewrite (lookup_ge_None_2 (o_items x) (length (o_items x))) by lia.
    apply Hnone. destruct r2 as [k2|]; [exfalso | reflexivity].
    destruct S2 as (i2 & q & y & -> & Hi2 & Hq & Ht & Hn2).
    apply (S1 q y); auto.
    apply list_elem_of_In. now apply list_elem_of_lookup_2 in Hi2.
Qed.

Lemma typed_lookup_tests_the_named_item_witness :
  exists r,
    gwyfile_object_get (Some 1%positive) [x61] store_with_rival
    = Done r store_with_rival
    /\ match r with
       | None =>
           gwyfile_object_get_with_type (Some 1%positive) [x61]
             GWYFILE_ITEM_BOOL store_with_rival
           = Done None store_with_rival
           /\ gwyfile_object_take_with_type (Some 1%positive) [x61]
                GWYFILE_ITEM_BOOL store_with_rival
              = Done None store_with_rival
       | Some p =>
           exists z, items store_with_rival !! p = Some z
             /\ if i_type z =? GWYFILE_ITEM_BOOL then
                  gwyfile_object_get_with_type (Some 1%positive) [x61]
                    GWYFILE_ITEM_BOOL store_with_rival
                  = Done (Some p) store_with_rival
                  /\ gwyfile_object_take_with_type (Some 1%positive) [x61]
                       GWYFILE_ITEM_BOOL store_with_rival
                     = gwyfile_object_take (Some 1%positive) [x61]
                         store_with_rival
                else
                  gwyfile_object_get_with_type (Some 1%positive) [x61]
                    GWYFILE_ITEM_BOOL store_with_rival
                  = Done None store_with_rival
                  /\ gwyfile_object_take_with_type (Some 1%positive) [x61]
                       GWYFILE_ITEM_BOOL store_with_rival
                     = Done None store_with_rival
       end.
Proof.
  refine (typed_lookup_tests_the_named_item store_with_rival 1%positive
            (Object None [x4f] 1 [2%positive] 6) [x61] GWYFILE_ITEM_BOOL
            _ _ _).
  - vm_compute. reflexivity.
  - constructor; [|constructor]. vm_compute. eauto.
  - intros [|i] [|j] p q y z Hi Hj; try reflexivity; discriminate.
Defined.

End TypedFacts.
Module ReleaseFacts.
Import Heap Typed StoreFacts.

Lemma object_with_owner_back x p :
  o_owner x = None -> object_with_owner (object_with_owner x p) None = x.
Proof. destruct x. cbn. now intros ->. Qed.

(** X22.  Wrapping a root object into an item and releasing it again:
    [gwyfile_item_new_object] makes the new item the owner of the object
    and [gwyfile_item_get_object] returns the object; then
    [gwyfile_item_release_object] returns the object, frees the item only,
    and every cell of the store is as it was before the item was made. *)
Theorem release_undoes_new_object h name value x :
  objects h !! value = Some x -> o_owner x = None ->
  items h !! next h = None ->
  exists h1,
    gwyfile_item_new_object name (Some value) h = Done (next h) h1
    /\ objects h1 !! value = Some (object_with_owner x (Some (next h)))
    /\ gwyfile_item_get_object (Some (next h)) h1 = Done (Some value) h1
    /\ gwyfile_item_release_object (Some (next h)) h1
       = Done (Some value) (Heap (items h) (objects h) (Pos.succ (next h))).
Proof.
  intros Hx Ho Hfresh.
  exists (Heap (<[next h := Item GWYFILE_ITEM_OBJECT 0 name (u32 (strlen name))
                              true None (object_size_of x) (o value)]>
                  (items h))
            (<[value := object_with_owner x (Some (next h))]> (objects h))
            (Pos.succ (next h))).
  split; [|split; [|split]].
  - unfold gwyfile_item_new_object. run_get Hx. rewrite Ho.
    reflexivity.
  - cbn [objects]. apply lookup_insert_eq.
  - unfold gwyfile_item_get_object, typed_item.
    unfold bind, get_item. cbn [items]. rewrite lookup_insert_eq.
    cbn. reflexivity.
  - unfold gwyfile_item_release_object, typed_item.
    unfold bind, get_item, get_object, put_object, put_item, free_calls, assert,
      ret.
    cbn [items objects next]. rewrite lookup_insert_eq.
    cbn [i_type i_owner i_v i_array_length i_data_size fst snd
         is_null_pointer items objects next].
    rewrite Z.eqb_refl.
    cbn [i_type i_owner i_v i_array_length i_data_size fst snd
         is_null_pointer items objects next].
    rewrite lookup_insert_eq. cbn [gwyfile_item_free].
    unfold bind, get_item, free_item, assert, ret. cbn [items objects next].
    rewrite lookup_insert_eq.
    cbn [i_type i_owner i_v i_data_owned with_value is_null_pointer
         items objects next].
    rewrite Z.eqb_refl. cbn [items objects next].
    f_equal. f_equal.
    + rewrite insert_insert_eq. now apply delete_insert_id.
    + rewrite insert_insert_eq, object_with_owner_back by exact Ho.
      now apply insert_id.
Qed.

Lemma release_undoes_new_object_witness :
  exists h1,
    gwyfile_item_new_object [x62] (Some 1%positive) store_with_rival
    = Done (next store_with_rival) h1
    /\ objects h1 !! 1%positive
       = Some (object_with_owner (Object None [x4f] 1 [2%positive] 6)
                 (Some (next store_with_rival)))
    /\ gwyfile_item_get_object (Some (next store_with_rival)) h1
       = Done (Some 1%positive) h1
    /\ gwyfile_item_release_object (Some (next store_with_rival)) h1
       = Done (Some 1%positive)
           (Heap (items store_with_rival) (objects store_with_rival)
              (Pos.succ (next store_with_rival))).
Proof.
  refine (release_undoes_new_object store_with_rival [x62] 1%positive
            (Object None [x4f] 1 [2%positive] 6) _ _ _); vm_compute; reflexivity.
Defined.

End ReleaseFacts.

(** ** Distinct item names *)

Lemma names_distinct_top o :
  names_distinct o -> NoDup (map item_name (object_items o)).
Proof. destruct o. now intros [H _]. Qed.

(** C4, with the conditions it needs.  Item names are pairwise distinct
    within every object of a tree that [gwyfile_fread] or
    [gwyfile_object_fread] returns, whatever the stream.
    [gwyfile_object_add] returns [false], and leaves the store as it was,
    when the object already holds an item with the name of the item offered,
    and it returns [true] only when no item of the object has that name.
    [gwyfile_fread] fails with DUPLICATE_NAME, an error of the DATA domain,
    on the file written from a well-formed tree within the depth limit in
    which some object has two items of the same name. *)
Theorem duplicate_names_are_rejected :
  (forall junk stream max_size o rest,
      0 <= max_size < 2 ^ 64 ->
      gwyfile_fread junk stream max_size = Ok (o, rest)
      \/ gwyfile_object_fread junk stream max_size = Ok (o, rest) ->
      names_distinct o /\ NoDup (map item_name (object_items o)))
  /\ (forall h object item x y,
         Heap.objects h !! object = Some x ->
         Heap.items h !! item = Some y ->
         Heap.i_owner y = None ->
         Forall (allocated h) (Heap.o_items x) ->
         (exists p z, In p (Heap.o_items x) /\ Heap.items h !! p = Some z
                      /\ Heap.i_name z = Heap.i_name y) ->
         Heap.gwyfile_object_add (Some object) (Some item) h
         = Heap.Done false h)
  /\ (forall h object item x y h',
         Heap.objects h !! object = Some x ->
         Heap.items h !! item = Some y ->
         Forall (allocated h) (Heap.o_items x) ->
         Heap.gwyfile_object_add (Some object) (Some item) h
         = Heap.Done true h' ->
         forall p z, In p (Heap.o_items x) -> Heap.items h !! p = Some z ->
                     Heap.i_name z <> Heap.i_name y)
  /\ (forall junk o rest max_size,
         wf_object o -> ~ names_distinct o ->
         object_nesting o <= GWYFILE_MAX_DEPTH ->
         4 + gwyfile_object_size o <= max_size -> max_size < 2 ^ 64 ->
         fst (gwyfile_fwrite o) = Ok tt
         /\ gwyfile_fread junk (snd (gwyfile_fwrite o) ++ rest) max_size
            = Fail (DataError GWYFILE_ERROR_DUPLICATE_NAME))
  /\ error_domain (DataError GWYFILE_ERROR_DUPLICATE_NAME)
     = GWYFILE_ERROR_DOMAIN_DATA.
Proof.
  split; [|split; [|split; [|split; [|reflexivity]]]].
  - intros junk stream max_size o rest Hm [E|E].
    + pose proof (gwyfile_fread_outcome junk stream max_size Hm) as H.
      rewrite E in H. destruct H as (_ & _ & (Hd & _) & _).
      split; [exact Hd | now apply names_distinct_top].
    + pose proof (gwyfile_object_fread_outcome junk stream max_size Hm) as H.
      rewrite E in H. destruct H as (_ & _ & (Hd & _) & _).
      split; [exact Hd | now apply names_distinct_top].
  - intros h object item x y. apply HeapFacts.add_rejects_taken_name.
  - intros h object item x y h' Hx Hy Hall Hadd.
    unfold Heap.gwyfile_object_add, Heap.bind, Heap.get_item, Heap.get_object
      in Hadd.
    rewrite Hy in Hadd.
    destruct (Heap.assert (Heap.is_null_pointer (Heap.i_owner y)) h)
      as [[] h0| | |] eqn:Ea; try discriminate Hadd.
    assert (h0 = h) as ->.
    { unfold Heap.assert in Ea.
      destruct (Heap.is_null_pointer (Heap.i_owner y));
        [now injection Ea | discriminate Ea]. }
    rewrite Hx in Hadd.
    destruct (HeapFacts.find_name_spec (Heap.o_items x) (Heap.i_name y) 0 h
                Hall) as [r [Hr Hiff]].
    rewrite Hr in Hadd. destruct r as [k|]; [discriminate Hadd|].
    now apply Hiff.
  - intros junk o rest max_size Hwf Hdup Hfit Hs Hm.
    rewrite (gwyfile_fwrite_encodes o Hwf). cbn [fst snd].
    split; [reflexivity|]. rewrite <- app_assoc.
    destruct (gwyfile_fread_encoded junk o rest max_size Hwf Hs Hm)
      as [(F & D & E) | [(F & E) | (D & E)]]; tauto.
Qed.

Lemma duplicate_names_are_rejected_witness :
  Heap.gwyfile_object_add (Some 1%positive) (Some 3%positive) store_with_rival
  = Heap.Done false store_with_rival
  /\ gwyfile_fread (fun _ => x00) (snd (gwyfile_fwrite tree_x_twice) ++ [])
       SIZE_MAX
     = Fail (DataError GWYFILE_ERROR_DUPLICATE_NAME).
Proof.
  destruct duplicate_names_are_rejected as (_ & Hadd & _ & Hread & _).
  split.
  - apply (Hadd store_with_rival 1%positive 3%positive
             (Heap.Object None [x4f] 1 [2%positive] 6)
             (Heap.Item GWYFILE_ITEM_STRING 0 [x61] 1 true None 3
                (Heap.s [x79; x6f]))).
    + vm_compute. reflexivity.
    + vm_compute. reflexivity.
    + reflexivity.
    + constructor; [|constructor]. vm_compute. eauto.
    + exists 2%positive.
      exists (Heap.Item GWYFILE_ITEM_STRING 0 [x61] 1 true (Some 1%positive) 3
                (Heap.s [x68; x69])).
      split; [now left|]. split; vm_compute; reflexivity.
  - apply (Hread (fun _ => x00) tree_x_twice [] SIZE_MAX).
    + by_evaluation.
    + intros [Hn _]. vm_compute in Hn. inversion Hn as [|? ? Hin _].
      apply Hin. constructor.
    + vm_compute. intros H; discriminate H.
    + vm_compute. intros H; discriminate H.
    + reflexivity.
Defined.

(** C4 as stated, for every payload with two items of one name, fails.  In
    the tree [deep_x_twice] the object with the two items ["x"] is the 201st
    down the tree: the reader refuses to enter it, and reports
    TOO_DEEP_NESTING, before it has read any of its items. *)
Lemma deep_duplicate_is_reported_as_nesting :
  wf_object deep_x_twice
  /\ ~ names_distinct deep_x_twice
  /\ fst (gwyfile_fwrite deep_x_twice) = Ok tt
  /\ forall junk,
       gwyfile_fread junk (snd (gwyfile_fwrite deep_x_twice)) SIZE_MAX
       = Fail (DataError GWYFILE_ERROR_TOO_DEEP_NESTING).
Proof.
  split; [by_evaluation|]. split.
  - intros H. vm_compute in H.
    repeat match type of H with
           | _ /\ (_ /\ True) => destruct H as [_ [H _]]
           end.
    destruct H as [Hn _]. inversion Hn as [|? ? Hin _].
    apply Hin. constructor.
  - split; [vm_compute; reflexivity|]. intros junk. vm_compute. reflexivity.
Qed.

(** ** The minimal file of the format description *)

Example minimal_file_written :
  gwyfile_fwrite gwyempty
  = (Ok tt, [x47; x57; x59; x50; x47; x77; x79; x45; x6d; x70; x74; x79; x00;
             x00; x00; x00; x00]).
Proof. reflexivity. Qed.

Example minimal_file_read junk :
  gwyfile_fread junk (snd (gwyfile_fwrite gwyempty)) SIZE_MAX
  = Ok (gwyempty, []).
Proof. vm_compute. reflexivity. Qed.

(** ** Removing an item that wraps nested objects

    The item, the three objects below it and their items are freed; the
    object that held the item is left empty. *)

Example nested_item_is_removed :
  exists h,
    Scenarios.remove_nested Heap.empty = Heap.Done (8%positive, true) h
    /\ map_to_list (Heap.items h) = []
    /\ map_to_list (Heap.objects h)
       = [(8%positive, Heap.Object None [x4f] 1 [] 0)].
Proof. eexists. split; [vm_compute; reflexivity|]. split; reflexivity. Qed.
